(** * moj_broj_solvers: expression model, best-first search, Countdown adapter

    A shallow embedding of the three Python modules of the repository
    ([parser.py], [search.py], [moj_broj_solver.py]) followed by the
    properties of the specification that were settled against it.

    Conventions of the embedding:
    - a Python [int] is a [Z]; a Python [float] is an IEEE-754 binary64
      value, a [spec_float] of [SpecFloat] with [prec = 53], [emax = 1024];
    - a Python [str] is a [string];
    - a call that may raise returns a [PyResult]: [Ok v] or [Raise e];
    - a Python list used as a stack ([append]/[pop]) is a Coq list whose
      head is the top of the stack; a list that is only appended to and then
      iterated (token list, output queue) keeps Python's order;
    - memoized attributes ([_value], [path_length], [path_depth], [h]) are
      recomputed: the objects are never mutated after construction, so the
      cache cannot be observed. *)

From Stdlib Require Import ZArith List Bool Lia String Ascii Permutation.
From Stdlib Require Import SpecFloat DecimalString Decimal DecimalPos DecimalZ.
From Stdlib Require Import Sorted.
Import ListNotations.

Open Scope Z_scope.

(* ================================================================= *)
(** ** Python values, exceptions and the error monad                  *)
(* ================================================================= *)

Module Py.

(** The exceptions that the modelled code raises, its own three classes and
    the built-in ones reached through built-in operations. *)
Inductive exn : Type :=
| InvalidExpressionException (msg : string)
| ExpressionParseError (msg : string)
| CountDownNumbersException (msg : string)
| ZeroDivisionError
| OverflowError
| ValueError
| IndexError.

Inductive PyResult (A : Type) : Type :=
| Ok (a : A)
| Raise (e : exn).

Arguments Ok {A} a.
Arguments Raise {A} e.

Definition bind {A B : Type} (m : PyResult A) (k : A -> PyResult B) : PyResult B :=
  match m with
  | Ok a => k a
  | Raise e => Raise e
  end.

(** [for x in l: acc = f(acc, x)] where the body may raise. *)
Fixpoint foldM {A S : Type} (f : S -> A -> PyResult S) (l : list A) (s : S)
  : PyResult S :=
  match l with
  | [] => Ok s
  | x :: l' => bind (f s x) (foldM f l')
  end.

(** [[f(x) for x in l]] where [f] may raise. *)
Fixpoint mapM {A B : Type} (f : A -> PyResult B) (l : list A) : PyResult (list B) :=
  match l with
  | [] => Ok []
  | x :: l' => bind (f x) (fun y => bind (mapM f l') (fun ys => Ok (y :: ys)))
  end.

(** *** Integers and floats *)

Definition prec : Z := 53.
Definition emax : Z := 1024.

Definition float_of_int (n : Z) : spec_float :=
  match n with
  | Z0 => S754_zero false
  | Zpos p => S754_finite false p 0
  | Zneg p => S754_finite true p 0
  end.

(** [a / b] on two ints: true division.  CPython returns the quotient
    correctly rounded (to nearest, ties to even) to a binary64 float, raises
    [ZeroDivisionError] when [b] is zero and [OverflowError] when the rounded
    quotient is not finite.  [SFdiv] on the two integers taken as
    mantissas with exponent 0 is that correctly rounded quotient. *)
Definition truediv (a b : Z) : PyResult spec_float :=
  if b =? 0 then Raise ZeroDivisionError
  else
    match SFdiv prec emax (float_of_int a) (float_of_int b) with
    | S754_infinity _ => Raise OverflowError
    | f => Ok f
    end.

(** [int(x)] on a float: truncation toward zero. *)
Definition int_of_float (f : spec_float) : PyResult Z :=
  match f with
  | S754_zero _ => Ok 0
  | S754_finite s m e =>
      let mag := match e with
                 | Zneg k => Z.shiftr (Zpos m) (Zpos k)
                 | _ => Z.shiftl (Zpos m) e
                 end in
      Ok (if s then - mag else mag)
  | S754_infinity _ => Raise OverflowError
  | S754_nan => Raise ValueError
  end.

(** [int(a / b)], the idiom both [value] and [get_result] use for ['/']. *)
Definition int_truediv (a b : Z) : PyResult Z :=
  bind (truediv a b) int_of_float.

(** [str(n)] / ['{}'.format(n)] for an int: decimal digits, a leading ['-']
    for negative numbers.  (The optional digit-count limit of recent
    interpreters on int/str conversion is not modelled.) *)
Definition str_of_int (n : Z) : string :=
  NilZero.string_of_int (Z.to_int n).

(** [c in s] for a one-character [c]. *)
Fixpoint char_in (c : ascii) (s : string) : bool :=
  match s with
  | EmptyString => false
  | String d s' => Ascii.eqb c d || char_in c s'
  end.

(** Value of one decimal digit character. *)
Definition digit_value (c : ascii) : Z := Z.of_nat (nat_of_ascii c) - 48.

(** [int(s)] for a string [s] of decimal digits, most significant first
    (leading zeros are accepted, as [int] accepts them). *)
Fixpoint int_of_digits_acc (s : string) (acc : Z) : Z :=
  match s with
  | EmptyString => acc
  | String c s' => int_of_digits_acc s' (10 * acc + digit_value c)
  end.

Definition int_of_digits (s : string) : Z := int_of_digits_acc s 0.

(** [l.pop()] on a stack: [IndexError] on the empty list. *)
Definition pop {A : Type} (l : list A) : PyResult (A * list A) :=
  match l with
  | [] => Raise IndexError
  | x :: l' => Ok (x, l')
  end.

End Py.

Import Py.

Declare Scope py_scope.
Notation "x <- m ;; k" := (Py.bind m (fun x => k))
  (at level 61, m at next level, right associativity) : py_scope.
Notation "' p <- m ;; k" := (Py.bind m (fun p => k))
  (at level 61, p pattern, m at next level, right associativity) : py_scope.
Open Scope py_scope.

(* ================================================================= *)
(** ** parser.py: the expression model                                *)
(* ================================================================= *)

Module Parser.

(** The operator symbols.  The code carries them as the one-character
    strings ['+'], ['-'], ['*'], ['/']; every construction site of the
    repository ([parse], [moves_to_expression], [possible_moves]) passes one
    of these four. *)
Inductive operator : Type := Plus | Minus | Times | Slash.

Definition operator_eqb (a b : operator) : bool :=
  match a, b with
  | Plus, Plus | Minus, Minus | Times, Times | Slash, Slash => true
  | _, _ => false
  end.

Definition symbol (o : operator) : string :=
  match o with
  | Plus => "+" | Minus => "-" | Times => "*" | Slash => "/"
  end.

Definition precedence (operator : operator) : Z :=
  match operator with
  | Plus | Minus => 2
  | Slash | Times => 3
  end.

Definition associative (operator : operator) : bool :=
  match operator with
  | Plus | Times => true
  | _ => false
  end.

(** [associative(parent_op)] where [parent_op] may be [None]:
    [None in ('+', '*')] is [False]. *)
Definition associative_opt (parent_op : option operator) : bool :=
  match parent_op with
  | Some o => associative o
  | None => false
  end.

(** [BinaryIntegerArithmeticExpression]: a literal ([_value] set, [o] is
    [None]) or an operator node with two children. *)
Inductive Expression : Type :=
| Literal (_value : Z)
| Binary (op1 op2 : Expression) (o : operator).

(** The [value] property. *)
Fixpoint value (e : Expression) : PyResult Z :=
  match e with
  | Literal v => Ok v
  | Binary op1 op2 o =>
      v1 <- value op1 ;;
      v2 <- value op2 ;;
      match o with
      | Plus => Ok (v1 + v2)
      | Minus => Ok (v1 - v2)
      | Times => Ok (v1 * v2)
      | Slash => int_truediv v1 v2
      end
  end.

(** [v1 % v2] on ints: the sign of the result follows the divisor, as
    [Z.modulo]; [ZeroDivisionError] on a zero divisor. *)
Definition py_mod (v1 v2 : Z) : PyResult Z :=
  if v2 =? 0 then Raise ZeroDivisionError else Ok (v1 mod v2).

(** [__init__(value=n)]. *)
Definition literal (n : Z) : Expression := Literal n.

(** [__init__(op1=.., op2=.., o=..)]: the divisibility check runs only for
    ['/'] (short-circuit [and]) and reads both children's values. *)
Definition compose (op1 op2 : Expression) (o : operator) : PyResult Expression :=
  match o with
  | Slash =>
      v1 <- value op1 ;;
      v2 <- value op2 ;;
      r <- py_mod v1 v2 ;;
      if negb (r =? 0)
      then Raise (InvalidExpressionException
                    "Division is only allowed if the quotient is an integer.")
      else Ok (Binary op1 op2 o)
  | _ => Ok (Binary op1 op2 o)
  end.

Inductive side : Type := SideL | SideR.

Definition side_is_r (s : option side) : bool :=
  match s with Some SideR => true | _ => false end.

Definition parens (r : string) : string := ("(" ++ r ++ ")")%string.

(** [rep(parent_op=None, side=None)]. *)
Fixpoint rep (e : Expression) (parent_op : option operator) (sd : option side)
  : string :=
  match e with
  | Literal v => str_of_int v
  | Binary op1 op2 o =>
      let r1 := rep op1 (Some o) (Some SideL) in
      let r2 := rep op2 (Some o) (Some SideR) in
      let r := (r1 ++ " " ++ symbol o ++ " " ++ r2)%string in
      if match parent_op with
         | Some p => precedence p >? precedence o
         | None => false
         end
      then parens r
      else if negb (associative_opt parent_op) && side_is_r sd
      then parens r
      else r
  end.

(** [__str__]. *)
Definition render (e : Expression) : string := rep e None None.

(** A token: the pair [(Token.kind, val)]; for the four operator kinds
    [val] is the operator character. *)
Inductive token : Type :=
| Tok_number (n : Z)
| Tok_open_paren
| Tok_close_paren
| Tok_op (o : operator).

Definition numbers : string := "0123456789".

Definition is_space (c : ascii) : bool :=
  Ascii.eqb c " " || Ascii.eqb c "010" || Ascii.eqb c "009".

(** The body of [tokenize]'s [for c in s] loop, with the flush after it. *)
Fixpoint tokenize_loop (s : string) (tokens : list token) (on_number : bool)
  (number : string) : PyResult (list token) :=
  match s with
  | EmptyString =>
      Ok (if on_number then tokens ++ [Tok_number (int_of_digits number)]
          else tokens)
  | String c s' =>
      if char_in c numbers
      then tokenize_loop s' tokens true (number ++ String c "")
      else
        let '(tokens, number) :=
          if on_number
          then (tokens ++ [Tok_number (int_of_digits number)], ""%string)
          else (tokens, number) in
        if is_space c then tokenize_loop s' tokens false number
        else if Ascii.eqb c "(" then
          tokenize_loop s' (tokens ++ [Tok_open_paren]) false number
        else if Ascii.eqb c ")" then
          tokenize_loop s' (tokens ++ [Tok_close_paren]) false number
        else if Ascii.eqb c "+" then
          tokenize_loop s' (tokens ++ [Tok_op Plus]) false number
        else if Ascii.eqb c "-" then
          tokenize_loop s' (tokens ++ [Tok_op Minus]) false number
        else if Ascii.eqb c "*" then
          tokenize_loop s' (tokens ++ [Tok_op Times]) false number
        else if Ascii.eqb c "/" then
          tokenize_loop s' (tokens ++ [Tok_op Slash]) false number
        else Raise (ExpressionParseError ("Unknown symbol: " ++ String c ""))
  end.

Definition tokenize (s : string) : PyResult (list token) :=
  tokenize_loop s [] false "".

(** Entries of [operator_stack]: ['('] or an operator. *)
Inductive stack_entry : Type :=
| S_open
| S_op (o : operator).

(** Entries of [output_queue]: an int or an operator. *)
Inductive queue_item : Type :=
| Q_int (n : Z)
| Q_op (o : operator).

(** The [while operator_stack] loop run on an operator token [val]. *)
Fixpoint pop_higher (val : operator) (output_queue : list queue_item)
  (operator_stack : list stack_entry) : list queue_item * list stack_entry :=
  match operator_stack with
  | [] => (output_queue, [])
  | S_open :: _ => (output_queue, operator_stack)
  | S_op val2 :: rest =>
      if precedence val <=? precedence val2
      then pop_higher val (output_queue ++ [Q_op val2]) rest
      else (output_queue, operator_stack)
  end.

(** The [while operator_stack] loop run on [')']; [None] when the stack
    empties with [open_found] still false. *)
Fixpoint pop_to_open (output_queue : list queue_item)
  (operator_stack : list stack_entry)
  : option (list queue_item * list stack_entry) :=
  match operator_stack with
  | [] => None
  | S_open :: rest => Some (output_queue, rest)
  | S_op val2 :: rest => pop_to_open (output_queue ++ [Q_op val2]) rest
  end.

(** One iteration of [for token in tokens]. *)
Definition shunt_token (st : list queue_item * list stack_entry) (t : token)
  : PyResult (list queue_item * list stack_entry) :=
  let '(output_queue, operator_stack) := st in
  match t with
  | Tok_number val => Ok (output_queue ++ [Q_int val], operator_stack)
  | Tok_op val =>
      let '(output_queue, operator_stack) :=
        pop_higher val output_queue operator_stack in
      Ok (output_queue, S_op val :: operator_stack)
  | Tok_open_paren => Ok (output_queue, S_open :: operator_stack)
  | Tok_close_paren =>
      match pop_to_open output_queue operator_stack with
      | Some st' => Ok st'
      | None => Raise (ExpressionParseError "Mismatched parentheses")
      end
  end.

(** The final [while operator_stack] loop. *)
Fixpoint drain (output_queue : list queue_item)
  (operator_stack : list stack_entry) : PyResult (list queue_item) :=
  match operator_stack with
  | [] => Ok output_queue
  | S_open :: _ => Raise (ExpressionParseError "Mismatched parentheses")
  | S_op op :: rest => drain (output_queue ++ [Q_op op]) rest
  end.

(** One iteration of [for item in output_queue]. *)
Definition build_item (stack : list Expression) (item : queue_item)
  : PyResult (list Expression) :=
  match item with
  | Q_int n => Ok (literal n :: stack)
  | Q_op o =>
      '(operand2, stack) <- pop stack ;;
      '(operand1, stack) <- pop stack ;;
      e <- compose operand1 operand2 o ;;
      Ok (e :: stack)
  end.

(** [BinaryIntegerArithmeticExpression.parse]. *)
Definition parse (s : string) : PyResult Expression :=
  tokens <- tokenize s ;;
  '(output_queue, operator_stack) <- foldM shunt_token tokens ([], []) ;;
  output_queue <- drain output_queue operator_stack ;;
  stack <- foldM build_item output_queue [] ;;
  '(e, _) <- pop stack ;;
  Ok e.

End Parser.

Import Parser.

(* ================================================================= *)
(** ** search.py: search nodes and the best-first engine              *)
(* ================================================================= *)

Module Search.

(** [SearchNode].  [parent] and [move_to_reach] are written together, by
    [expand] only, and are both [None] on a root: the two slots are one
    optional pair here.  The three functions a node is built with are the
    same for every node of a search and are kept in [Capabilities]. *)
#[warnings="-register-all"]
Inductive SearchNode (D M : Type) : Type :=
| Node (data : D) (reached_from : option (SearchNode D M * M)).

Arguments Node {D M} data reached_from.

Definition data {D M : Type} (n : SearchNode D M) : D :=
  match n with Node d _ => d end.

Definition parent {D M : Type} (n : SearchNode D M) : option (SearchNode D M) :=
  match n with Node _ r => option_map fst r end.

Definition move_to_reach {D M : Type} (n : SearchNode D M) : option M :=
  match n with Node _ r => option_map snd r end.

(** What the caller supplies: the functions stored in a node, the
    comparison of identity keys ([==] and [<] on the values [id] returns),
    and the optional ['path_cost'] entry of the [data] dictionary. *)
Record Capabilities (D M K : Type) : Type := {
  id : SearchNode D M -> K;
  key_eqb : K -> K -> bool;
  key_ltb : K -> K -> bool;
  path_cost : D -> option Z;
  possible_moves : SearchNode D M -> list M;
  apply_move : SearchNode D M -> M -> PyResult D
}.

Arguments id {D M K} _ _.
Arguments key_eqb {D M K} _ _ _.
Arguments key_ltb {D M K} _ _ _.
Arguments path_cost {D M K} _ _.
Arguments possible_moves {D M K} _ _.
Arguments apply_move {D M K} _ _ _.

(** [AStarSearch]'s fields. *)
Record AStarSearch (D M : Type) : Type := {
  start : SearchNode D M;
  is_goal : SearchNode D M -> bool;
  heuristic : SearchNode D M -> PyResult Z;
  max_depth : option Z
}.

Arguments start {D M} _.
Arguments is_goal {D M} _ _.
Arguments heuristic {D M} _ _.
Arguments max_depth {D M} _.

Section Engine.

Context {D M K : Type} (caps : Capabilities D M K).

Let node : Type := SearchNode D M.

(** [SearchNode.__eq__] and [SearchNode.__lt__]. *)
Definition node_eqb (a b : node) : bool := key_eqb caps (id caps a) (id caps b).
Definition node_ltb (a b : node) : bool := key_ltb caps (id caps a) (id caps b).

(** [expand]: every move is applied before any child is looked at. *)
Definition expand (self : node) : PyResult (list node) :=
  mapM (fun move =>
          d <- apply_move caps self move ;;
          Ok (Node d (Some (self, move))))
       (possible_moves caps self).

(** [get_path_length] / [compute_path_length]. *)
Fixpoint get_path_length (self : node) : Z :=
  match self with
  | Node _ None => 0
  | Node d (Some (p, _)) =>
      match path_cost caps d with Some c => c | None => 1 end
      + get_path_length p
  end.

(** [get_path_depth] / [compute_path_depth]. *)
Fixpoint get_path_depth (self : node) : Z :=
  match self with
  | Node _ None => 0
  | Node _ (Some (p, _)) => 1 + get_path_depth p
  end.

(** [get_path]: the moves from the root, oldest first.  [moves_rev] is the
    list the [while n.parent] loop builds. *)
Fixpoint moves_rev (n : node) : list M :=
  match n with
  | Node _ None => []
  | Node _ (Some (p, m)) => m :: moves_rev p
  end.

Definition get_path (self : node) : list M := List.rev (moves_rev self).

(** *** The frontier

    [heapq] is Python's library; it is taken by its contract: [heappush]
    adds an entry, [heappop] removes and returns a least entry.  Entries are
    the tuples [(sortkey, node)], compared as Python compares tuples: on the
    first component where they differ under [==]. *)
Definition entry : Type := Z * node.

Definition entry_ltb (a b : entry) : bool :=
  if fst a =? fst b
  then if node_eqb (snd a) (snd b) then false else node_ltb (snd a) (snd b)
  else fst a <? fst b.

Definition heappush (frontier : list entry) (x : entry) : list entry :=
  frontier ++ [x].

Fixpoint heappop (frontier : list entry) : option (entry * list entry) :=
  match frontier with
  | [] => None
  | x :: rest =>
      match heappop rest with
      | None => Some (x, [])
      | Some (y, rest') =>
          if entry_ltb y x then Some (y, x :: rest') else Some (x, rest)
      end
  end.

(** [k in fset], [fset.add(k)]. *)
Definition set_mem (k : K) (fset : list K) : bool :=
  existsb (key_eqb caps k) fset.

Definition set_add (k : K) (fset : list K) : list K :=
  if set_mem k fset then fset else k :: fset.

(** [visited[k]] and [visited[k] = v] on the dictionary [visited]. *)
Fixpoint dict_get (k : K) (visited : list (K * node)) : option node :=
  match visited with
  | [] => None
  | (k', v) :: rest => if key_eqb caps k k' then Some v else dict_get k rest
  end.

Fixpoint dict_set (k : K) (v : node) (visited : list (K * node))
  : list (K * node) :=
  match visited with
  | [] => [(k, v)]
  | (k', v') :: rest =>
      if key_eqb caps k k' then (k', v) :: rest
      else (k', v') :: dict_set k v rest
  end.

Variable search : AStarSearch D M.

(** The local function [sortkey]. *)
Definition sortkey (n : node) : PyResult Z :=
  h <- heuristic search n ;;
  Ok (get_path_length n + h).

(** [not self.max_depth]: true for [None] and for [0]. *)
Definition no_max_depth : bool :=
  match max_depth search with
  | None => true
  | Some d => d =? 0
  end.

Definition max_depth_value : Z :=
  match max_depth search with Some d => d | None => 0 end.

(** The three collections of [do_search]. *)
Record loop_state : Type := {
  frontier : list entry;
  fset : list K;
  visited : list (K * node)
}.

(** The body of [for new in current.expand()]. *)
Definition visit_child (st : loop_state) (new : node) : PyResult loop_state :=
  let k := id caps new in
  if match dict_get k (visited st) with
     | Some old => get_path_length new >=? get_path_length old
     | None => false
     end
  then Ok st
  else if set_mem k (fset st) then Ok st
  else
    '(fr, fs) <-
      (if no_max_depth then
         key <- sortkey new ;;
         Ok (heappush (frontier st) (key, new), set_add k (fset st))
       else if get_path_depth new <? max_depth_value then
         key <- sortkey new ;;
         Ok (heappush (frontier st) (key, new), set_add k (fset st))
       else Ok (frontier st, fset st)) ;;
    Ok {| frontier := fr; fset := fs; visited := dict_set k new (visited st) |}.

(** The [while frontier] loop.  [fuel] bounds the number of expansions;
    [None] is "fuel exhausted", never a result of the Python code. *)
Fixpoint search_loop (fuel : nat) (st : loop_state)
  : option (PyResult (bool * option (list M))) :=
  match heappop (frontier st) with
  | None => Some (Ok (false, None))
  | Some ((_, current), frontier') =>
      if is_goal search current
      then Some (Ok (true, Some (get_path current)))
      else
        match fuel with
        | O => None
        | S fuel' =>
            match
              children <- expand current ;;
              foldM visit_child children
                    {| frontier := frontier'; fset := fset st;
                       visited := visited st |}
            with
            | Raise e => Some (Raise e)
            | Ok st' => search_loop fuel' st'
            end
        end
  end.

(** [do_search]. *)
Definition do_search (fuel : nat) : option (PyResult (bool * option (list M))) :=
  match sortkey (start search) with
  | Raise e => Some (Raise e)
  | Ok key =>
      search_loop fuel
        {| frontier := [(key, start search)];
           fset := set_add (id caps (start search)) [];
           visited := [] |}
  end.

End Engine.

End Search.

Import Search.

(* ================================================================= *)
(** ** moj_broj_solver.py: the Countdown adapter                      *)
(* ================================================================= *)

Module Solver.

Definition get_result (n1 n2 : Z) (operator : operator) : PyResult Z :=
  match operator with
  | Plus => Ok (n1 + n2)
  | Minus => Ok (n1 - n2)
  | Times => Ok (n1 * n2)
  | Slash => int_truediv n1 n2
  end.

(** A move: the triple [(n1, operator, n2)]. *)
Definition Move : Type := Z * operator * Z.

(** The [data] dictionary has the single key ['brojevi']. *)
Definition Data : Type := list Z.

Definition CNode : Type := SearchNode Data Move.

(** [itertools.combinations(l, 2)]: the pairs of elements at positions
    [i < j], in lexicographic order of positions. *)
Fixpoint combinations2 {A : Type} (l : list A) : list (A * A) :=
  match l with
  | [] => []
  | x :: rest => map (pair x) rest ++ combinations2 rest
  end.

(** [sorted(l)] on ints. *)
Fixpoint insert_sorted (x : Z) (l : list Z) : list Z :=
  match l with
  | [] => [x]
  | y :: rest => if x <=? y then x :: l else y :: insert_sorted x rest
  end.

Fixpoint sorted (l : list Z) : list Z :=
  match l with
  | [] => []
  | x :: rest => insert_sorted x (sorted rest)
  end.

(** [==] and [<] on tuples of ints. *)
Fixpoint tuple_eqb (a b : list Z) : bool :=
  match a, b with
  | [], [] => true
  | x :: a', y :: b' => (x =? y) && tuple_eqb a' b'
  | _, _ => false
  end.

Fixpoint tuple_ltb (a b : list Z) : bool :=
  match a, b with
  | _, [] => false
  | [], _ :: _ => true
  | x :: a', y :: b' => if x =? y then tuple_ltb a' b' else x <? y
  end.

(** [l.remove(x)]: drops the first occurrence, [ValueError] without one. *)
Fixpoint list_remove (x : Z) (l : list Z) : PyResult (list Z) :=
  match l with
  | [] => Raise ValueError
  | y :: rest =>
      if y =? x then Ok rest
      else rest' <- list_remove x rest ;; Ok (y :: rest')
  end.

(** [min(l)] on ints. *)
Definition py_min (l : list Z) : PyResult Z :=
  match l with
  | [] => Raise ValueError
  | x :: rest => Ok (fold_left Z.min rest x)
  end.

Section FindSolution.

(** [self.brojevi], [self.cilj] and the argument [tolerance]. *)
Variables (brojevi : list Z) (cilj : Z) (tolerance : Z).

Definition _id (node : CNode) : list Z := sorted (data node).

Definition is_goal (node : CNode) : bool :=
  existsb (fun number => Z.abs (number - cilj) <=? tolerance) (data node).

Definition heuristic (node : CNode) : PyResult Z :=
  py_min (map (fun n => Z.abs (n - cilj)) (data node)).

(** The moves [possible_moves] appends for one pair [(n1, n2)]. *)
Definition pair_moves (p : Z * Z) : list Move :=
  let '(n1, n2) := p in
  [(n1, Times, n2); (n1, Plus, n2)]
  ++ (if negb (n2 =? 0) && (n1 mod n2 =? 0) then [(n1, Slash, n2)] else [])
  ++ (if negb (n1 =? 0) && (n2 mod n1 =? 0) then [(n2, Slash, n1)] else [])
  ++ (if n1 >=? n2 then [(n1, Minus, n2)] else [(n2, Minus, n1)]).

Definition possible_moves (node : CNode) : list Move :=
  flat_map pair_moves (combinations2 (data node)).

Definition apply_move (node : CNode) (move : Move) : PyResult Data :=
  let '(n1, operator, n2) := move in
  brojevi1 <- list_remove n1 (data node) ;;
  brojevi2 <- list_remove n2 brojevi1 ;;
  result <- get_result n1 n2 operator ;;
  Ok (brojevi2 ++ [result]).

Definition capabilities : Capabilities Data Move (list Z) :=
  {| id := _id;
     key_eqb := tuple_eqb;
     key_ltb := tuple_ltb;
     path_cost := fun _ => None;
     Search.possible_moves := possible_moves;
     Search.apply_move := apply_move |}.

Definition start_node : CNode := Node brojevi None.

(** [AStarSearch(start_node, is_goal, heuristic)]: no depth bound. *)
Definition search : AStarSearch Data Move :=
  {| start := start_node;
     Search.is_goal := is_goal;
     Search.heuristic := heuristic;
     max_depth := None |}.

(** [extract_expression]: the first expression whose value is [val] is
    removed and returned; [expressions.remove(None)] raises [ValueError]
    when there is none. *)
Fixpoint extract_expression (expressions : list Expression) (val : Z)
  : PyResult (Expression * list Expression) :=
  match expressions with
  | [] => Raise ValueError
  | e :: rest =>
      v <- value e ;;
      if v =? val then Ok (e, rest)
      else
        '(found, rest') <- extract_expression rest val ;;
        Ok (found, e :: rest')
  end.

(** [min([(abs(e.value - cilj), e) for e in expressions])]: the tuples
    compare on the difference first and, the expressions being distinct
    objects, on [Expression.__lt__] (the values) next; [min] keeps the
    first of the least.  Each tuple carries the value read while the list
    was built. *)
Definition closer (a b : Z * Z * Expression) : bool :=
  let '(d1, v1, _) := a in
  let '(d2, v2, _) := b in
  if d1 =? d2 then v1 <? v2 else d1 <? d2.

Definition closest (expressions : list Expression) : PyResult (Z * Expression) :=
  tuples <- mapM (fun e => v <- value e ;; Ok (Z.abs (v - cilj), v, e))
                 expressions ;;
  match tuples with
  | [] => Raise ValueError
  | t :: rest =>
      let '(d, _, e) :=
        fold_left (fun best x => if closer x best then x else best) rest t in
      Ok (d, e)
  end.

Definition replay_move (expressions : list Expression) (move : Move)
  : PyResult (list Expression) :=
  let '(n1, op, n2) := move in
  '(e1, expressions) <- extract_expression expressions n1 ;;
  '(e2, expressions) <- extract_expression expressions n2 ;;
  result <- compose e1 e2 op ;;
  Ok (expressions ++ [result]).

Definition moves_to_expression (moves : list Move) : PyResult Expression :=
  expressions <- foldM replay_move moves (map literal brojevi) ;;
  '(_, expression) <- closest expressions ;;
  Ok expression.

(** [find_solution(tolerance)]; [None] only when [do_search] runs out of
    fuel. *)
Definition find_solution (fuel : nat)
  : option (PyResult (list Move * Expression)) :=
  match do_search capabilities search fuel with
  | None => None
  | Some (Raise e) => Some (Raise e)
  | Some (Ok (result, path)) =>
      Some (
        if negb result
        then Raise (CountDownNumbersException "No path found.")
        else
          match path with
          | None | Some [] =>
              '(_, expression) <- closest (map literal brojevi) ;;
              Ok ([], expression)
          | Some path =>
              expression <- moves_to_expression path ;;
              Ok (path, expression)
          end)
  end.

End FindSolution.

End Solver.

Import Solver.

(* ================================================================= *)
(** ** Vocabulary of the statements                                   *)
(* ================================================================= *)

(** The exact integer meaning of a tree: what [value] is specified to
    return.  On an exact division [Z.div] is the integer quotient. *)
Fixpoint exact_value (e : Expression) : Z :=
  match e with
  | Literal v => v
  | Binary op1 op2 o =>
      match o with
      | Plus => exact_value op1 + exact_value op2
      | Minus => exact_value op1 - exact_value op2
      | Times => exact_value op1 * exact_value op2
      | Slash => exact_value op1 / exact_value op2
      end
  end.

(** No division node anywhere in the tree. *)
Fixpoint no_division (e : Expression) : bool :=
  match e with
  | Literal _ => true
  | Binary op1 op2 o =>
      negb (operator_eqb o Slash) && no_division op1 && no_division op2
  end.

(** Every literal of the tree is non-negative. *)
Fixpoint literals_nonneg (e : Expression) : bool :=
  match e with
  | Literal v => 0 <=? v
  | Binary op1 op2 _ => literals_nonneg op1 && literals_nonneg op2
  end.

Definition move_op (m : Move) : operator := snd (fst m).

Definition has_op (o : operator) (m : Move) : bool := operator_eqb (move_op m) o.

(** [d] divides [n] evenly: the guard of the two division moves. *)
Definition divides_evenly (n d : Z) : bool := negb (d =? 0) && (n mod d =? 0).

(** Equality of two moves, as Python compares the triples. *)
Definition move_eqb (m m' : Move) : bool :=
  let '(a, o, b) := m in
  let '(a', o', b') := m' in
  (a =? a') && operator_eqb o o' && (b =? b').

(** How many entries of the move list [ms] are the move [m]. *)
Definition occurrences (m : Move) (ms : list Move) : nat :=
  List.length (filter (move_eqb m) ms).

Definition all_chars (P : ascii -> bool) (s : string) : bool :=
  forallb P (list_ascii_of_string s).

Definition is_digit (c : ascii) : bool := char_in c numbers.

(** A run of digits followed by a run of separators, for each integer
    of an input but the last. *)
Fixpoint join_fields (fields : list (string * string)) : string :=
  match fields with
  | [] => ""
  | (d, w) :: rest => (d ++ w ++ join_fields rest)%string
  end.

Definition field_ok (f : string * string) : bool :=
  all_chars is_digit (fst f) && negb (String.eqb (fst f) "")
  && all_chars is_space (snd f) && negb (String.eqb (snd f) "").

(** What [do_search] can return: failure without a path, success with the
    path of a node that satisfies the goal test, or an exception that one
    of the caller's functions raised. *)
Definition engine_outcome {D M K : Type} (caps : Capabilities D M K)
  (srch : AStarSearch D M) (r : PyResult (bool * option (list M))) : Prop :=
  r = Ok (false, None)
  \/ (exists n, Search.is_goal srch n = true /\ r = Ok (true, Some (get_path n)))
  \/ (exists e, r = Raise e /\
        ((exists n, Search.heuristic srch n = Raise e)
         \/ (exists n m, Search.apply_move caps n m = Raise e))).

(** The next character, if any, does not continue a number. *)
Definition no_digit_ahead (s : string) : Prop :=
  match s with
  | EmptyString => True
  | String c _ => char_in c numbers = false
  end.

(** The parenthesization test of [rep], for a child with operator [o]. *)
Definition wrapped (parent_op : option operator) (sd : option side)
  (o : operator) : bool :=
  match parent_op with
  | Some p => precedence p >? precedence o
  | None => false
  end
  || (negb (associative_opt parent_op) && side_is_r sd).

(** The token sequence that [rep] spells. *)
Fixpoint rep_tokens (e : Expression) (parent_op : option operator)
  (sd : option side) : list token :=
  match e with
  | Literal v => [Tok_number v]
  | Binary op1 op2 o =>
      let body := rep_tokens op1 (Some o) (Some SideL)
                  ++ [Tok_op o] ++ rep_tokens op2 (Some o) (Some SideR) in
      if wrapped parent_op sd o
      then [Tok_open_paren] ++ body ++ [Tok_close_paren]
      else body
  end.

(** The exact integer operation an operator stands for. *)
Definition apply_op (o : operator) (a b : Z) : Z :=
  match o with
  | Plus => a + b
  | Minus => a - b
  | Times => a * b
  | Slash => a / b
  end.

(** What the output queue evaluates to, read as postfix: a stack of
    integers (top first), or [None] when an operator lacks an operand. *)
Definition vstack : Type := option (list Z).

Definition vpush (n : Z) (v : vstack) : vstack := option_map (cons n) v.

Definition vapply (o : operator) (v : vstack) : vstack :=
  match v with
  | Some (b :: a :: vs) => Some (apply_op o a b :: vs)
  | _ => None
  end.

Definition vitem (v : vstack) (it : queue_item) : vstack :=
  match it with
  | Q_int n => vpush n v
  | Q_op o => vapply o v
  end.

Definition sem (output_queue : list queue_item) : vstack :=
  fold_left vitem output_queue (Some []).

(** Popping to the output every operator of precedence at least [j] that
    sits on top of the stack. *)
Fixpoint reduce_from (j : Z) (v : vstack) (st : list stack_entry)
  : vstack * list stack_entry :=
  match st with
  | S_op p :: rest =>
      if j <=? precedence p then reduce_from j (vapply p v) rest else (v, st)
  | _ => (v, st)
  end.

(** [shunt_token] on the value of the queue. *)
Definition vstep (s : vstack * list stack_entry) (t : token)
  : PyResult (vstack * list stack_entry) :=
  let '(v, st) := s in
  match t with
  | Tok_number n => Ok (vpush n v, st)
  | Tok_op o =>
      let '(v', st') := reduce_from (precedence o) v st in
      Ok (v', S_op o :: st')
  | Tok_open_paren => Ok (v, S_open :: st)
  | Tok_close_paren =>
      match reduce_from 0 v st with
      | (v', S_open :: st') => Ok (v', st')
      | _ => Raise (ExpressionParseError "Mismatched parentheses")
      end
  end.

(** Precedences grow strictly toward the top of the stack, down to the
    nearest open parenthesis. *)
Fixpoint stack_sorted (st : list stack_entry) : Prop :=
  match st with
  | S_op p :: rest =>
      match rest with
      | S_op q :: _ => precedence q < precedence p
      | _ => True
      end /\ stack_sorted rest
  | _ => True
  end.

Definition top_below (j : Z) (st : list stack_entry) : Prop :=
  match st with
  | S_op q :: _ => precedence q < j
  | _ => True
  end.

Definition top_prec (e : Expression) : Z :=
  match e with
  | Literal _ => 4
  | Binary _ _ o => precedence o
  end.

(** The operator on top of the stack lets an expression of top
    precedence [k] follow it without parentheses. *)
Definition admits (k : Z) (st : list stack_entry) : Prop :=
  match st with
  | S_op p :: _ =>
      precedence p < k \/ (precedence p = k /\ associative p = true)
  | _ => True
  end.

Definition ctx_wrapped (parent_op : option operator) (sd : option side)
  (e : Expression) : bool :=
  match e with
  | Literal _ => false
  | Binary _ _ o => wrapped parent_op sd o
  end.

Definition no_slash_item (it : queue_item) : bool :=
  match it with Q_op Slash => false | _ => true end.

Definition no_slash_entry (s : stack_entry) : bool :=
  match s with S_op Slash => false | _ => true end.

Definition no_slash_token (t : token) : bool :=
  match t with Tok_op Slash => false | _ => true end.

(** A bound on the number of nodes of the expansion tree below a state of
    [m] numbers: at most five moves for each of at most [m * m] pairs. *)
Fixpoint search_weight (m : nat) : nat :=
  match m with
  | O => 1
  | S m' => 1 + 5 * m * m * search_weight m'
  end.

Definition node_weight (n : CNode) : nat := search_weight (List.length (data n)).

Definition frontier_weight (fr : list (Z * CNode)) : nat :=
  list_sum (map (fun en => node_weight (snd en)) fr).

(** What the search on the adapter ends with: failure without a path,
    success with a path, or the exception of the float division of a
    division move. *)
Definition search_outcome (r : PyResult (bool * option (list Move))) : Prop :=
  r = Ok (false, None)
  \/ (exists path, r = Ok (true, Some path))
  \/ (exists n1 n2 e,
        n2 <> 0 /\ n1 mod n2 = 0 /\
        get_result n1 n2 Slash = Raise e /\ r = Raise e).

(** A node that the engine can build from [root]: the root itself, or the
    child that [expand] makes of such a node for one of its moves. *)
Inductive reachable {D M K : Type} (caps : Capabilities D M K)
  (root : SearchNode D M) : SearchNode D M -> Prop :=
| reach_root : reachable caps root root
| reach_step (p : SearchNode D M) (m : M) (d : D) :
    reachable caps root p ->
    In m (Search.possible_moves caps p) ->
    Search.apply_move caps p m = Ok d ->
    reachable caps root (Node d (Some (p, m))).

(** Applying a sequence of moves to a list of numbers, as [apply_move]
    does from state to state. *)
Definition replay_numbers (numbers : list Z) (path : list Move)
  : PyResult (list Z) :=
  foldM (fun l move => apply_move (Node l None) move) path numbers.

(** The literals of a tree, left to right. *)
Fixpoint literals (e : Expression) : list Z :=
  match e with
  | Literal v => [v]
  | Binary op1 op2 _ => literals op1 ++ literals op2
  end.

(** A sequence of moves in which every move is one that [possible_moves]
    generates for the state it is applied to, with the state it leads to. *)
Inductive legal_run : list Z -> list Move -> list Z -> Prop :=
| run_nil (l : list Z) : legal_run l [] l
| run_cons (l l1 l' : list Z) (m : Move) (path : list Move) :
    In m (possible_moves (Node l None)) ->
    apply_move (Node l None) m = Ok l1 ->
    legal_run l1 path l' ->
    legal_run l (m :: path) l'.

(** Some number of the state lies within the tolerance of the target. *)
Definition within_tolerance (cilj tolerance : Z) (l : list Z) : Prop :=
  exists x, In x l /\ Z.abs (x - cilj) <= tolerance.

(** The expressions of the replay evaluate to the numbers of the state. *)
Definition values_are (expressions : list Expression) (l : list Z) : Prop :=
  Forall2 (fun e v => value e = Ok v) expressions l.

(** A key whose state was taken from the frontier, failed the goal test
    and was expanded into children whose keys are all in [F]. *)
Definition expanded_in (cilj tolerance : Z) (F : list (list Z)) (k : list Z)
  : Prop :=
  exists (n : CNode) (children : list CNode),
    _id n = k
    /\ is_goal cilj tolerance n = false
    /\ expand capabilities n = Ok children
    /\ forall c, In c children -> In (_id c) F.

(** Every key of the visited dictionary is in the frontier set. *)
Definition visited_in_fset (st : @loop_state Data Move (list Z)) : Prop :=
  forall k, dict_get capabilities k (visited st) <> None -> In k (fset st).

(** Every key of the frontier set is waiting in the frontier or was
    expanded. *)
Definition fset_accounted (cilj tolerance : Z)
  (st : @loop_state Data Move (list Z)) : Prop :=
  forall k, In k (fset st) ->
    (exists en, In en (frontier st) /\ _id (snd en) = k)
    \/ expanded_in cilj tolerance (fset st) k.

(** The characters the tokenizer accepts. *)
Definition known_char (c : ascii) : bool :=
  char_in c numbers || is_space c || char_in c "()+-*/".

(** Nesting depth of the parentheses after a run of tokens that starts at
    depth [depth]; [None] when a closing parenthesis has no partner. *)
Fixpoint paren_depth (tokens : list token) (depth : nat) : option nat :=
  match tokens with
  | [] => Some depth
  | Tok_open_paren :: rest => paren_depth rest (S depth)
  | Tok_close_paren :: rest =>
      match depth with
      | O => None
      | S d => paren_depth rest d
      end
  | _ :: rest => paren_depth rest depth
  end.

(** Number of open parentheses waiting on the operator stack. *)
Fixpoint open_count (st : list stack_entry) : nat :=
  match st with
  | [] => O
  | S_open :: rest => S (open_count rest)
  | S_op _ :: rest => open_count rest
  end.

(** Every division node of the tree divides evenly: both operands
    evaluate, the divisor is not zero and the remainder is zero. *)
Fixpoint division_exact (e : Expression) : Prop :=
  match e with
  | Literal _ => True
  | Binary op1 op2 o =>
      division_exact op1 /\ division_exact op2
      /\ (o = Slash ->
          exists v1 v2,
            value op1 = Ok v1 /\ value op2 = Ok v2
            /\ v2 <> 0 /\ v1 mod v2 = 0)
  end.

(* ================================================================= *)
(** ** Expression model: construction, value, rendering               *)
(* ================================================================= *)

(** Facts on [string] that the library leaves out. *)
Lemma string_length_append (s t : string) :
  String.length (s ++ t) = (String.length s + String.length t)%nat.
Proof. induction s as [|c s IH]; simpl; [reflexivity | now rewrite IH]. Qed.

Lemma string_append_assoc (s t u : string) :
  ((s ++ t) ++ u = s ++ (t ++ u))%string.
Proof. induction s as [|c s IH]; simpl; [reflexivity | now rewrite IH]. Qed.

Lemma string_append_nil_r (s : string) : (s ++ "" = s)%string.
Proof. induction s as [|c s IH]; simpl; [reflexivity | now rewrite IH]. Qed.

Lemma value_no_division (e : Expression) :
  no_division e = true -> value e = Ok (exact_value e).
Proof.
  induction e as [v | l IHl r IHr o]; simpl; intros H; [reflexivity|].
  apply andb_prop in H as [H Hr]. apply andb_prop in H as [Ho Hl].
  rewrite (IHl Hl), (IHr Hr). simpl.
  destruct o; simpl in *; try reflexivity; discriminate.
Qed.

(** The construction-time check of a division node, on children whose
    values are known. *)
Lemma compose_division (l r : Expression) (vl vr : Z) :
  value l = Ok vl -> value r = Ok vr -> vr <> 0 ->
  compose l r Slash =
    if vl mod vr =? 0 then Ok (Binary l r Slash)
    else Raise (InvalidExpressionException
                  "Division is only allowed if the quotient is an integer.").
Proof.
  intros Hl Hr Hnz. unfold compose, py_mod. rewrite Hl, Hr. simpl.
  apply Z.eqb_neq in Hnz. rewrite Hnz. simpl.
  destruct (vl mod vr =? 0); reflexivity.
Qed.

(** [+], [-] and [*] nodes are built without a check and evaluate exactly. *)
Lemma compose_value_exact (l r : Expression) (vl vr : Z) (o : operator) :
  o <> Slash -> value l = Ok vl -> value r = Ok vr ->
  compose l r o = Ok (Binary l r o) /\
  value (Binary l r o) =
    Ok (match o with
        | Plus => vl + vr | Minus => vl - vr | Times => vl * vr
        | Slash => vl / vr
        end).
Proof.
  intros Ho Hl Hr. simpl. rewrite Hl, Hr. simpl.
  destruct o; try (split; reflexivity). contradiction.
Qed.

(** C1 (code evaluated at the failing input).  The claim asks, for [b <> 0]
    and [a % b == 0], that the division node of [literal(a)] and
    [literal(b)] has the exact quotient [a / b] as its value, whatever the
    magnitude.  At [a = 2^53 + 1], [b = 1] the node is constructed, and
    [value] (as well as [get_result]) returns [2^53]: [int(v1 / v2)] goes
    through a binary64 float. *)
Theorem C1_division_value_rounds_through_float :
  let a := 2 ^ 53 + 1 in
  let b := 1 in
  b <> 0 /\ a mod b = 0 /\
  compose (literal a) (literal b) Slash = Ok (Binary (Literal a) (Literal b) Slash) /\
  value (Binary (Literal a) (Literal b) Slash) = Ok (2 ^ 53) /\
  get_result a b Slash = Ok (2 ^ 53) /\
  a / b = 2 ^ 53 + 1 /\
  2 ^ 53 <> a / b.
Proof. vm_compute. repeat split; congruence. Qed.

(** C4 (code evaluated at the failing input).  The claim asks that a
    division node that was constructed never raises when evaluated.  With
    [l = literal(2^1024)] and [r = literal(1)] the divisibility check passes
    and the node is built; reading its [value] raises [OverflowError], from
    the float division of [int(v1 / v2)]. *)
Theorem C4_constructed_division_raises_on_value :
  let l := literal (2 ^ 1024) in
  let r := literal 1 in
  value r = Ok 1 /\
  value l = Ok (2 ^ 1024) /\
  (2 ^ 1024) mod 1 = 0 /\
  compose l r Slash = Ok (Binary l r Slash) /\
  value (Binary l r Slash) = Raise OverflowError.
Proof. vm_compute. repeat split; reflexivity. Qed.

Lemma parens_neq (s : string) : parens s <> s.
Proof.
  intros H. apply (f_equal String.length) in H.
  unfold parens in H. simpl in H.
  rewrite string_length_append in H. simpl in H. lia.
Qed.

(** C3.  A compound child is rendered inside parentheses exactly when its
    operator has strictly lower precedence than the parent's ([+ -] at
    level 2, [* /] at level 3) or it is the right operand of a [-] or [/]
    parent; a node is rendered as its two children around its operator; and
    the four renderings the specification lists come out as listed. *)
Theorem C3_render_parenthesizes_child :
  (forall (op1 op2 : Expression) (o p : operator) (sd : side),
      let child := Binary op1 op2 o in
      let lower_precedence := precedence o <? precedence p in
      let right_of_sub_or_div :=
        match sd, p with
        | SideR, Minus | SideR, Slash => true
        | _, _ => false
        end in
      rep child (Some p) (Some sd) =
        if lower_precedence || right_of_sub_or_div
        then parens (render child) else render child)
  /\ (forall s : string, parens s <> s)
  /\ (forall (l r : Expression) (p : operator),
        render (Binary l r p) =
          (rep l (Some p) (Some SideL) ++ " " ++ symbol p ++ " "
             ++ rep r (Some p) (Some SideR))%string)
  /\ (precedence Plus = 2 /\ precedence Minus = 2 /\
      precedence Times = 3 /\ precedence Slash = 3)
  /\ (e1 <- compose (literal 3) (literal 2) Times ;;
      e <- compose e1 (literal 2) Plus ;; Ok (render e))
       = Ok "3 * 2 + 2"%string
  /\ (e2 <- compose (literal 2) (literal 2) Plus ;;
      e <- compose (literal 3) e2 Times ;; Ok (render e))
       = Ok "3 * (2 + 2)"%string
  /\ (e2 <- compose (literal 2) (literal 2) Plus ;;
      e <- compose (literal 4) e2 Minus ;; Ok (render e))
       = Ok "4 - (2 + 2)"%string
  /\ (e1 <- compose (literal 4) (literal 2) Minus ;;
      e <- compose e1 (literal 2) Plus ;; Ok (render e))
       = Ok "4 - 2 + 2"%string.
Proof.
  split; [| split; [exact parens_neq | split; [| split; [| repeat split]]]].
  - intros op1 op2 o p sd child lower right.
    subst child lower right. unfold render.
    destruct o, p, sd; reflexivity.
  - intros l r p. unfold render. destruct p; reflexivity.
  - repeat split; reflexivity.
Qed.

(* ================================================================= *)
(** ** Countdown adapter: move generation                             *)
(* ================================================================= *)

Lemma map_nth_shift {A B : Type} (g : A -> B) (x : A) (l : list A) (d : A) (a n : nat) :
  map (fun j => g (nth j (x :: l) d)) (seq (S a) n)
  = map (fun j => g (nth j l d)) (seq a n).
Proof.
  rewrite <- seq_shift, map_map. reflexivity.
Qed.

Lemma map_nth_seq_all {A B : Type} (g : A -> B) (l : list A) (d : A) :
  map (fun j => g (nth j l d)) (seq 0 (List.length l)) = map g l.
Proof.
  induction l as [|x l IH]; [reflexivity|].
  cbn [List.length seq map]. f_equal.
  rewrite map_nth_shift. exact IH.
Qed.

(** [combinations(l, 2)] lists, for every pair of positions [i < j], the
    elements at [i] and at [j]. *)
Lemma combinations2_positions {A : Type} (d : A) (l : list A) :
  combinations2 l =
    flat_map (fun i => map (fun j => (nth i l d, nth j l d))
                           (seq (S i) (List.length l - S i)))
             (seq 0 (List.length l)).
Proof.
  induction l as [|x l IH]; [reflexivity|].
  cbn [combinations2 List.length seq flat_map].
  rewrite Nat.sub_succ, Nat.sub_0_r.
  f_equal.
  - rewrite (map_nth_shift (fun y => (x, y)) x l d 0).
    symmetry. apply (map_nth_seq_all (fun y => (x, y))).
  - rewrite IH. rewrite <- seq_shift.
    rewrite !flat_map_concat_map, map_map. f_equal.
    apply map_ext. intros i.
    change (nth (S i) (x :: l) d) with (nth i l d).
    rewrite Nat.sub_succ. symmetry.
    apply (map_nth_shift (fun y => (nth i l d, y)) x l d (S i)).
Qed.

Lemma flat_map_nested {A B C : Type} (f : B -> list C) (g : A -> list B) (l : list A) :
  flat_map f (flat_map g l) = flat_map (fun a => flat_map f (g a)) l.
Proof.
  induction l as [|a l IH]; [reflexivity|].
  cbn [flat_map]. rewrite flat_map_app, IH. reflexivity.
Qed.

Lemma flat_map_of_map {A B C : Type} (f : B -> list C) (h : A -> B) (l : list A) :
  flat_map f (map h l) = flat_map (fun a => f (h a)) l.
Proof.
  induction l as [|a l IH]; [reflexivity|].
  cbn [flat_map map]. rewrite IH. reflexivity.
Qed.

Lemma divides_evenly_spec (n d : Z) :
  divides_evenly n d = true <-> d <> 0 /\ (d | n).
Proof.
  unfold divides_evenly. rewrite andb_true_iff, negb_true_iff, Z.eqb_neq, Z.eqb_eq.
  split; intros [Hd H]; split; trivial.
  - apply Z.mod_divide; assumption.
  - apply Z.mod_divide; assumption.
Qed.

(** C6 (as stated, refuted).  For the two equal numbers of [3; 3] the one
    legal division, 3 / 3, is yielded twice: the move list has a repeated
    entry. *)
Lemma C6_equal_operands_divide_twice :
  possible_moves (Node [3; 3] None)
  = [(3, Times, 3); (3, Plus, 3); (3, Slash, 3); (3, Slash, 3); (3, Minus, 3)]
  /\ occurrences (3, Slash, 3) (possible_moves (Node [3; 3] None)) = 2%nat
  /\ ~ NoDup (possible_moves (Node [3; 3] None)).
Proof.
  split; [reflexivity|]. split; [reflexivity|].
  change (possible_moves (Node [3; 3] None))
    with [(3, Times, 3); (3, Plus, 3); (3, Slash, 3); (3, Slash, 3);
          (3, Minus, 3)].
  intros H.
  inversion H as [|? ? _ H1]; subst.
  inversion H1 as [|? ? _ H2]; subst.
  inversion H2 as [|? ? Hn _]; subst.
  apply Hn. now left.
Qed.

(** C6 (amended).  [possible_moves] runs over the pairs of positions
    [i < j] of the current numbers and, for the pair [(n1, n2)] found
    there, yields: one multiplication and one addition, always; one
    subtraction, of the smaller from the larger, whose result is never
    negative; one division for each direction that divides evenly
    (non-zero divisor, remainder zero) and no other division; nothing
    else.  Every move of the pair is yielded exactly once, except that for
    two equal operands the division, when legal, is yielded twice. *)
Theorem C6_possible_moves_per_pair :
  forall node : CNode,
    let l := data node in
    possible_moves node =
      flat_map (fun i =>
                  flat_map (fun j => pair_moves (nth i l 0, nth j l 0))
                           (seq (S i) (List.length l - S i)))
               (seq 0 (List.length l))
    /\ forall n1 n2 : Z,
        let ms := pair_moves (n1, n2) in
        filter (has_op Times) ms = [(n1, Times, n2)]
        /\ filter (has_op Plus) ms = [(n1, Plus, n2)]
        /\ filter (has_op Minus) ms = [(Z.max n1 n2, Minus, Z.min n1 n2)]
        /\ get_result (Z.max n1 n2) (Z.min n1 n2) Minus
             = Ok (Z.max n1 n2 - Z.min n1 n2)
        /\ 0 <= Z.max n1 n2 - Z.min n1 n2
        /\ filter (has_op Slash) ms =
             (if divides_evenly n1 n2 then [(n1, Slash, n2)] else [])
             ++ (if divides_evenly n2 n1 then [(n2, Slash, n1)] else [])
        /\ (forall a b : Z,
              In (a, Slash, b) ms <->
              ((a = n1 /\ b = n2) \/ (a = n2 /\ b = n1)) /\ b <> 0 /\ (b | a))
        /\ List.length ms =
             (3 + (if divides_evenly n1 n2 then 1 else 0)
                + (if divides_evenly n2 n1 then 1 else 0))%nat
        /\ (forall m : Move,
              In m ms ->
              occurrences m ms
              = if (n1 =? n2) && has_op Slash m then 2%nat else 1%nat).
Proof.
  intros node l. split.
  - unfold possible_moves. fold l.
    rewrite (combinations2_positions 0 l).
    rewrite flat_map_nested. apply flat_map_ext. intros i.
    apply flat_map_of_map.
  - intros n1 n2 ms. subst ms. unfold pair_moves.
    fold (divides_evenly n1 n2). fold (divides_evenly n2 n1).
    assert (Hsub : (if n1 >=? n2 then [(n1, Minus, n2)] else [(n2, Minus, n1)])
                   = [(Z.max n1 n2, Minus, Z.min n1 n2)]).
    { destruct (Z.geb_spec n1 n2) as [H|H].
      - rewrite Z.max_l, Z.min_r by lia. reflexivity.
      - rewrite Z.max_r, Z.min_l by lia. reflexivity. }
    rewrite Hsub.
    repeat split.
    + destruct (divides_evenly n1 n2), (divides_evenly n2 n1); reflexivity.
    + destruct (divides_evenly n1 n2), (divides_evenly n2 n1); reflexivity.
    + destruct (divides_evenly n1 n2), (divides_evenly n2 n1); reflexivity.
    + lia.
    + destruct (divides_evenly n1 n2), (divides_evenly n2 n1); reflexivity.
    + destruct (divides_evenly n1 n2) eqn:E1, (divides_evenly n2 n1) eqn:E2;
        simpl in H;
        repeat (destruct H as [H|H]; try discriminate H);
        try contradiction;
        injection H as <- <-; tauto.
    + destruct (divides_evenly n1 n2) eqn:E1, (divides_evenly n2 n1) eqn:E2;
        simpl in H;
        repeat (destruct H as [H|H]; try discriminate H);
        try contradiction;
        injection H as <- <-;
        first [apply divides_evenly_spec in E1; tauto
              |apply divides_evenly_spec in E2; tauto].
    + destruct (divides_evenly n1 n2) eqn:E1, (divides_evenly n2 n1) eqn:E2;
        simpl in H;
        repeat (destruct H as [H|H]; try discriminate H);
        try contradiction;
        injection H as <- <-;
        first [apply divides_evenly_spec in E1; tauto
              |apply divides_evenly_spec in E2; tauto].
    + intros [[[-> ->]|[-> ->]] [Hb Hd]].
      * assert (E : divides_evenly n1 n2 = true)
          by (apply divides_evenly_spec; tauto).
        rewrite E. simpl. tauto.
      * assert (E : divides_evenly n2 n1 = true)
          by (apply divides_evenly_spec; tauto).
        rewrite E. destruct (divides_evenly n1 n2); simpl; tauto.
    + destruct (divides_evenly n1 n2), (divides_evenly n2 n1); reflexivity.
    + match goal with |- forall m : Move, In m ?ms -> _ => intros m H end.
      unfold occurrences, has_op, move_op.
      assert (Hx : forall x y : Z, x <> y -> (x =? y) = false)
        by (intros x y Hxy; now apply Z.eqb_neq).
      destruct (Z.eqb_spec n1 n2) as [->|Hne].
      * rewrite Z.max_id, Z.min_id in H |- *.
        destruct (divides_evenly n2 n2); cbn [List.app In] in H;
          repeat (destruct H as [<-|H]); try contradiction;
          unfold move_eqb; cbn [List.app List.filter operator_eqb fst snd];
          repeat (rewrite ?Z.eqb_refl, ?andb_false_r;
                  cbn [andb List.filter List.length]);
          reflexivity.
      * destruct (divides_evenly n1 n2), (divides_evenly n2 n1);
          cbn [List.app In] in H;
          repeat (destruct H as [<-|H]); try contradiction;
          unfold move_eqb; cbn [List.app List.filter operator_eqb fst snd];
          repeat (rewrite ?Z.eqb_refl, ?andb_false_r,
                    ?(Hx n1 n2 Hne), ?(Hx n2 n1 (not_eq_sym Hne));
                  cbn [andb List.filter List.length]);
          reflexivity.
Qed.

Lemma C6_possible_moves_per_pair_witness :
  possible_moves (Node [6; 3] None)
  = [(6, Times, 3); (6, Plus, 3); (6, Slash, 3); (6, Minus, 3)]
  /\ occurrences (6, Slash, 3) (pair_moves (6, 3)) = 1%nat
  /\ occurrences (4, Slash, 4) (pair_moves (4, 4)) = 2%nat.
Proof.
  split; [reflexivity|]. split.
  - apply (proj2 (C6_possible_moves_per_pair (Node [6; 3] None)) 6 3).
    vm_compute. tauto.
  - apply (proj2 (C6_possible_moves_per_pair (Node [4; 4] None)) 4 4).
    vm_compute. tauto.
Defined.

(* ================================================================= *)
(** ** The search engine                                              *)
(* ================================================================= *)

Lemma mapM_raise_inv {A B : Type} (f : A -> PyResult B) (l : list A) (e : exn) :
  mapM f l = Raise e -> exists x, In x l /\ f x = Raise e.
Proof.
  induction l as [|x l IH]; simpl; [discriminate|].
  destruct (f x) as [y|e'] eqn:Hx; simpl.
  - destruct (mapM f l) as [ys|e'']; simpl; [discriminate|].
    intros [= ->]. destruct (IH eq_refl) as (x' & Hin & Hx'). eauto.
  - intros [= ->]. eauto.
Qed.

Lemma foldM_raise_inv {A S : Type} (f : S -> A -> PyResult S) (l : list A)
  (s : S) (e : exn) :
  foldM f l s = Raise e -> exists s' x, In x l /\ f s' x = Raise e.
Proof.
  revert s. induction l as [|x l IH]; simpl; intros s; [discriminate|].
  destruct (f s x) as [s1|e'] eqn:Hx; simpl.
  - intros H. destruct (IH _ H) as (s' & x' & Hin & Hx'). eauto.
  - intros [= ->]. eauto.
Qed.

Section EngineFacts.

Context {D M K : Type} (caps : Capabilities D M K) (srch : AStarSearch D M).

Lemma sortkey_ok (n : SearchNode D M) (h : Z) :
  Search.heuristic srch n = Ok h ->
  sortkey caps srch n = Ok (get_path_length caps n + h).
Proof. unfold sortkey. intros ->. reflexivity. Qed.

Lemma sortkey_raise (n : SearchNode D M) (e : exn) :
  sortkey caps srch n = Raise e -> Search.heuristic srch n = Raise e.
Proof.
  unfold sortkey. destruct (Search.heuristic srch n); simpl; congruence.
Qed.

Lemma visit_child_raise (st : loop_state) (new : SearchNode D M) (e : exn) :
  visit_child caps srch st new = Raise e -> Search.heuristic srch new = Raise e.
Proof.
  unfold visit_child.
  destruct (match dict_get caps (id caps new) (visited st) with
            | Some old => _ | None => false end); [discriminate|].
  destruct (set_mem caps (id caps new) (fset st)); [discriminate|].
  destruct (no_max_depth srch).
  - destruct (sortkey caps srch new) eqn:Hk; simpl; [discriminate|].
    intros [= ->]. now apply sortkey_raise.
  - destruct (get_path_depth new <? max_depth_value srch).
    + destruct (sortkey caps srch new) eqn:Hk; simpl; [discriminate|].
      intros [= ->]. now apply sortkey_raise.
    + simpl. discriminate.
Qed.

Lemma expand_raise (n : SearchNode D M) (e : exn) :
  expand caps n = Raise e -> exists m, Search.apply_move caps n m = Raise e.
Proof.
  unfold expand. intros H. apply mapM_raise_inv in H as (m & _ & H).
  exists m. destruct (Search.apply_move caps n m); simpl in H; congruence.
Qed.

Lemma search_loop_outcome (fuel : nat) :
  forall (st : loop_state) r,
    search_loop caps srch fuel st = Some r -> engine_outcome caps srch r.
Proof.
  induction fuel as [|fuel IH]; intros st r; simpl;
    destruct (heappop caps (frontier st)) as [[[key current] fr']|].
  - destruct (Search.is_goal srch current) eqn:Hg; [|discriminate].
    intros [= <-]. right; left. eauto.
  - intros [= <-]. now left.
  - destruct (Search.is_goal srch current) eqn:Hg.
    { intros [= <-]. right; left. eauto. }
    destruct (expand caps current) as [children|e] eqn:He; simpl.
    + destruct (foldM _ children _) as [st'|e] eqn:Hf.
      * apply IH.
      * intros [= <-]. right; right. exists e. split; [reflexivity|].
        apply foldM_raise_inv in Hf as (s' & x & _ & Hx).
        left. exists x. eapply visit_child_raise; eauto.
    + intros [= <-]. right; right. exists e. split; [reflexivity|].
      right. apply expand_raise in He as [m Hm]. eauto.
  - intros [= <-]. now left.
Qed.

End EngineFacts.

(** C8.  When the frontier is empty the loop returns [(False, None)]; and
    whatever [do_search] returns is that failure pair, a success with the
    path of a goal node, or an exception raised by the caller's heuristic
    or move application: the engine has no exception of its own for
    "no path". *)
Theorem C8_no_path_is_returned_not_raised :
  forall (D M K : Type) (caps : Capabilities D M K) (srch : AStarSearch D M),
    (forall (fuel : nat) (st : loop_state),
        frontier st = [] ->
        search_loop caps srch fuel st = Some (Ok (false, None)))
    /\ (forall (fuel : nat) r,
          do_search caps srch fuel = Some r -> engine_outcome caps srch r).
Proof.
  intros D M K caps srch. split.
  - intros fuel st H. destruct fuel; simpl; rewrite H; reflexivity.
  - intros fuel r. unfold do_search.
    destruct (sortkey caps srch (start srch)) as [key|e] eqn:Hk.
    + apply search_loop_outcome.
    + intros [= <-]. right; right. exists e. split; [reflexivity|].
      left. exists (start srch). eapply sortkey_raise; eauto.
Qed.

Lemma C8_no_path_is_returned_not_raised_witness :
  do_search capabilities (search [1; 1] 500 0) 10 = Some (Ok (false, None))
  /\ engine_outcome capabilities (search [1; 1] 500 0) (Ok (false, None))
  /\ search_loop capabilities (search [1; 1] 500 0) 0
       {| frontier := []; fset := [[1; 1]]; visited := [] |}
     = Some (Ok (false, None)).
Proof.
  split; [vm_compute; reflexivity|]. split.
  - apply (proj2 (C8_no_path_is_returned_not_raised _ _ _
                    capabilities (search [1; 1] 500 0)) 10%nat).
    vm_compute. reflexivity.
  - apply (proj1 (C8_no_path_is_returned_not_raised _ _ _
                    capabilities (search [1; 1] 500 0))).
    reflexivity.
Defined.

(** C5 (as stated, refuted).  The first child the loop builds from the
    root [1; 2; 3] has depth 1, and it is visited in the state the loop has
    after popping the root.  Under the bound [max_depth = 1] this child
    does not exceed the bound, yet it is not inserted: the frontier and the
    frontier set stay as they were; and it is recorded in [visited] under
    its identity key, although it was kept out of the frontier.  Under the
    bound [max_depth = 0] the same child exceeds the bound, yet it is
    inserted with priority [path length + heuristic]. *)
Lemma C5_child_at_the_bound_is_recorded_not_inserted :
  let root : CNode := Node [1; 2; 3] None in
  let srch := fun d : Z =>
                {| start := root;
                   Search.is_goal := is_goal 10 0;
                   Search.heuristic := heuristic 10;
                   max_depth := Some d |} in
  let st := {| frontier := []; fset := [[1; 2; 3]]; visited := [] |} in
  let new : CNode := Node [3; 2] (Some (root, (1, Times, 2))) in
  (exists rest, expand capabilities root = Ok (new :: rest))
  /\ heappop capabilities [(7, root)] = Some ((7, root), frontier st)
  /\ get_path_depth new = 1
  /\ dict_get capabilities (_id new) (visited st) = None
  /\ set_mem capabilities (_id new) (fset st) = false
  /\ (exists st',
        visit_child capabilities (srch 1) st new = Ok st'
        /\ frontier st' = frontier st
        /\ fset st' = fset st
        /\ dict_get capabilities (_id new) (visited st') = Some new)
  /\ (exists st',
        visit_child capabilities (srch 0) st new = Ok st'
        /\ frontier st' = [(1 + 7, new)]
        /\ set_mem capabilities (_id new) (fset st') = true
        /\ dict_get capabilities (_id new) (visited st') = Some new)
  /\ do_search capabilities (srch 1) 1 = Some (Ok (false, None)).
Proof.
  cbv zeta.
  split; [eexists; vm_compute; reflexivity|].
  repeat (split; [reflexivity|]).
  split; [|split; [|vm_compute; reflexivity]];
    eexists; (split; [vm_compute; reflexivity|]); repeat split.
Qed.

(** C5 (amended).  For a child that passed the best-known and in-frontier
    checks: when a non-zero [max_depth] is configured and the child's depth
    is not below it, the frontier and the frontier set are left as they
    were, and the child is recorded in [visited] under its identity key;
    when no bound is configured (or it is zero), or the depth is below the
    bound, the child is pushed with priority [path length + heuristic],
    its key joins the frontier set, and it is recorded in [visited]. *)
Theorem C5_depth_bound_skips_frontier_only :
  forall (D M K : Type) (caps : Capabilities D M K) (srch : AStarSearch D M)
         (st : loop_state) (new : SearchNode D M),
    let k := id caps new in
    match dict_get caps k (visited st) with
    | Some old => get_path_length caps new >=? get_path_length caps old
    | None => false
    end = false ->
    set_mem caps k (fset st) = false ->
    (forall d : Z,
        max_depth srch = Some d -> d <> 0 -> d <= get_path_depth new ->
        visit_child caps srch st new =
          Ok {| frontier := frontier st; fset := fset st;
                visited := dict_set caps k new (visited st) |})
    /\ (forall h : Z,
          (max_depth srch = None \/ max_depth srch = Some 0
           \/ exists d, max_depth srch = Some d /\ get_path_depth new < d) ->
          Search.heuristic srch new = Ok h ->
          visit_child caps srch st new =
            Ok {| frontier :=
                    heappush (frontier st) (get_path_length caps new + h, new);
                  fset := set_add caps k (fset st);
                  visited := dict_set caps k new (visited st) |})
    /\ (key_eqb caps k k = true ->
        dict_get caps k (dict_set caps k new (visited st)) = Some new).
Proof.
  intros D M K caps srch st new k Hbest Hfset. repeat split.
  - intros d Hd Hnz Hle. unfold visit_child. fold k.
    rewrite Hbest, Hfset.
    unfold no_max_depth, max_depth_value. rewrite Hd.
    apply Z.eqb_neq in Hnz. rewrite Hnz.
    assert (Hlt : (get_path_depth new <? d) = false) by (apply Z.ltb_ge; lia).
    rewrite Hlt. reflexivity.
  - intros h Hcase Hh. unfold visit_child. fold k.
    rewrite Hbest, Hfset, (sortkey_ok caps srch new h Hh).
    unfold no_max_depth, max_depth_value.
    destruct Hcase as [-> | [-> | (d & -> & Hlt)]]; try reflexivity.
    apply Z.ltb_lt in Hlt. rewrite Hlt.
    destruct (d =? 0); reflexivity.
  - intros Hrefl. clear Hbest. induction (visited st) as [|[k' v'] rest IH]; simpl.
    + now rewrite Hrefl.
    + destruct (key_eqb caps k k') eqn:E; simpl; rewrite E; [reflexivity|exact IH].
Qed.

Lemma C5_depth_bound_skips_frontier_only_witness :
  let srch := {| start := Node [1; 2; 3] None;
                 Search.is_goal := is_goal 10 0;
                 Search.heuristic := heuristic 10;
                 max_depth := Some 2 |} in
  let st := {| frontier := []; fset := [[1; 2; 3]]; visited := [] |} in
  let deep : CNode :=
    Node [6] (Some (Node [3; 3] (Some (Node [1; 2; 3] None, (1, Plus, 2))),
                    (3, Plus, 3))) in
  let shallow : CNode := Node [3; 3] (Some (Node [1; 2; 3] None, (1, Plus, 2))) in
  visit_child capabilities srch st deep =
    Ok {| frontier := []; fset := [[1; 2; 3]]; visited := [([6], deep)] |}
  /\ visit_child capabilities srch st shallow =
       Ok {| frontier := [(8, shallow)]; fset := [[3; 3]; [1; 2; 3]];
             visited := [([3; 3], shallow)] |}
  /\ dict_get capabilities [6] (dict_set capabilities [6] deep []) = Some deep.
Proof.
  intros srch st deep shallow.
  split; [|split].
  - apply (proj1 (C5_depth_bound_skips_frontier_only _ _ _ capabilities srch st
                    deep eq_refl eq_refl) 2); [reflexivity | lia | vm_compute; congruence].
  - apply (proj1 (proj2 (C5_depth_bound_skips_frontier_only _ _ _ capabilities
                           srch st shallow eq_refl eq_refl)) 7).
    + right; right. exists 2. split; [reflexivity | vm_compute; reflexivity].
    + reflexivity.
  - apply (proj2 (proj2 (C5_depth_bound_skips_frontier_only _ _ _ capabilities
                           srch st deep eq_refl eq_refl))).
    reflexivity.
Defined.

(* ================================================================= *)
(** ** Countdown adapter: failure of the search                       *)
(* ================================================================= *)

(** C9.  When the engine returns the failure flag, [find_solution] raises
    [CountDownNumbersException("No path found.")]; and [find_solution]
    returns a value only when the engine reported success. *)
Theorem C9_find_solution_raises_on_failure :
  forall (brojevi : list Z) (cilj tolerance : Z) (fuel : nat)
         (path : option (list Move)),
    do_search capabilities (search brojevi cilj tolerance) fuel
      = Some (Ok (false, path)) ->
    find_solution brojevi cilj tolerance fuel
      = Some (Raise (CountDownNumbersException "No path found."))
    /\ forall res,
        find_solution brojevi cilj tolerance fuel <> Some (Ok res).
Proof.
  intros brojevi cilj tolerance fuel path H.
  unfold find_solution. rewrite H. simpl. split; [reflexivity | discriminate].
Qed.

Lemma C9_find_solution_raises_on_failure_witness :
  do_search capabilities (search [1; 1] 500 0) 10 = Some (Ok (false, None))
  /\ find_solution [1; 1] 500 0 10
     = Some (Raise (CountDownNumbersException "No path found.")).
Proof.
  split; [vm_compute; reflexivity|].
  apply (C9_find_solution_raises_on_failure [1; 1] 500 0 10%nat None).
  vm_compute. reflexivity.
Defined.

(** A value returned by [find_solution] comes from a successful search. *)
Lemma find_solution_ok_inv (brojevi : list Z) (cilj tolerance : Z) (fuel : nat) res :
  find_solution brojevi cilj tolerance fuel = Some (Ok res) ->
  exists path,
    do_search capabilities (search brojevi cilj tolerance) fuel
      = Some (Ok (true, path)).
Proof.
  unfold find_solution.
  destruct (do_search _ _ fuel) as [[[[|] path]|e]|]; simpl; try discriminate.
  eauto.
Qed.

(* ================================================================= *)
(** ** The tokenizer                                                  *)
(* ================================================================= *)

Lemma is_space_not_digit (c : ascii) : is_space c = true -> char_in c numbers = false.
Proof.
  unfold is_space. rewrite !orb_true_iff, !Ascii.eqb_eq.
  intros [[-> | ->] | ->]; reflexivity.
Qed.

(** Reading a run of digits extends the number being read. *)
Lemma tokenize_loop_digits (d rest : string) (tokens : list token)
  (on_number : bool) (number : string) :
  all_chars is_digit d = true ->
  tokenize_loop (d ++ rest) tokens on_number number =
    tokenize_loop rest tokens
      (if String.eqb d "" then on_number else true) (number ++ d).
Proof.
  revert on_number number.
  induction d as [|c d IH]; intros on_number number Hd.
  - simpl. now rewrite string_append_nil_r.
  - unfold all_chars in Hd. simpl in Hd. apply andb_prop in Hd as [Hc Hd].
    unfold is_digit in Hc.
    cbn [append tokenize_loop]. rewrite Hc.
    rewrite (IH true (number ++ String c "")%string Hd).
    rewrite string_append_assoc. simpl.
    now destruct (String.eqb d "").
Qed.

(** A pending number is flushed by whatever does not continue it. *)
Lemma tokenize_loop_flush (rest : string) (tokens : list token) (number : string) :
  no_digit_ahead rest ->
  tokenize_loop rest tokens true number =
    tokenize_loop rest (tokens ++ [Tok_number (int_of_digits number)]) false "".
Proof.
  destruct rest as [|c rest]; simpl; [reflexivity|].
  intros ->. reflexivity.
Qed.

(** Separators between tokens are skipped. *)
Lemma tokenize_loop_spaces (w rest : string) (tokens : list token) :
  all_chars is_space w = true ->
  tokenize_loop (w ++ rest) tokens false "" = tokenize_loop rest tokens false "".
Proof.
  induction w as [|c w IH]; intros Hw; [reflexivity|].
  unfold all_chars in Hw. simpl in Hw. apply andb_prop in Hw as [Hc Hw].
  cbn [append tokenize_loop].
  rewrite (is_space_not_digit c Hc), Hc. exact (IH Hw).
Qed.

Lemma spaces_no_digit_ahead (w rest : string) :
  all_chars is_space w = true -> w <> ""%string -> no_digit_ahead (w ++ rest).
Proof.
  destruct w as [|c w]; [congruence|].
  unfold all_chars. simpl. intros H _. apply andb_prop in H as [Hc _].
  now apply is_space_not_digit.
Qed.

(** One integer followed by its separators. *)
Lemma tokenize_loop_field (d w rest : string) (tokens : list token) :
  all_chars is_digit d = true -> d <> ""%string ->
  all_chars is_space w = true -> no_digit_ahead (w ++ rest) ->
  tokenize_loop (d ++ w ++ rest) tokens false "" =
    tokenize_loop rest (tokens ++ [Tok_number (int_of_digits d)]) false "".
Proof.
  intros Hd Hne Hw Hahead.
  rewrite tokenize_loop_digits by assumption.
  apply String.eqb_neq in Hne. rewrite Hne. simpl.
  rewrite tokenize_loop_flush by assumption.
  now apply tokenize_loop_spaces.
Qed.

Lemma field_ok_inv (f : string * string) :
  field_ok f = true ->
  all_chars is_digit (fst f) = true /\ fst f <> ""%string /\
  all_chars is_space (snd f) = true /\ snd f <> ""%string.
Proof.
  unfold field_ok. rewrite !andb_true_iff, !negb_true_iff, !String.eqb_neq. tauto.
Qed.

Lemma tokenize_loop_fields (fields : list (string * string)) (rest : string)
  (tokens : list token) :
  forallb field_ok fields = true ->
  tokenize_loop (join_fields fields ++ rest) tokens false "" =
    tokenize_loop rest
      (tokens ++ map (fun f => Tok_number (int_of_digits (fst f))) fields)
      false "".
Proof.
  revert tokens. induction fields as [|[d w] fields IH]; intros tokens H.
  - simpl. now rewrite app_nil_r.
  - simpl in H. apply andb_prop in H as [Hf H].
    apply field_ok_inv in Hf as (Hd & Hne & Hw & Hwne). simpl in *.
    rewrite !string_append_assoc.
    rewrite tokenize_loop_field; try assumption.
    + rewrite IH by assumption. now rewrite <- app_assoc.
    + now apply spaces_no_digit_ahead.
Qed.

(** Shunting a run of number tokens only fills the output queue. *)
Lemma shunt_numbers (ns : list Z) (output_queue : list queue_item)
  (operator_stack : list stack_entry) :
  foldM shunt_token (map Tok_number ns) (output_queue, operator_stack)
  = Ok (output_queue ++ map Q_int ns, operator_stack).
Proof.
  revert output_queue. induction ns as [|n ns IH]; intros q; simpl.
  - now rewrite app_nil_r.
  - rewrite IH, <- app_assoc. reflexivity.
Qed.

Lemma build_numbers (ns : list Z) (stack : list Expression) :
  foldM build_item (map Q_int ns) stack
  = Ok (List.rev (map literal ns) ++ stack).
Proof.
  revert stack. induction ns as [|n ns IH]; intros stack; simpl; [reflexivity|].
  rewrite IH, <- app_assoc. reflexivity.
Qed.

(** C10 (as stated, refuted).  A carriage return is whitespace, but not
    one of the three characters the tokenizer skips: two integers
    separated by it (or by a form feed, a vertical tab, or the two
    characters of a Windows line end) make [parse] raise
    [ExpressionParseError]. *)
Lemma C10_carriage_return_is_not_a_separator :
  parse (String "1" (String "013" (String "2" EmptyString)))
  = Raise (ExpressionParseError
             ("Unknown symbol: " ++ String "013" EmptyString))
  /\ parse (String "1" (String "012" (String "2" EmptyString)))
     = Raise (ExpressionParseError
                ("Unknown symbol: " ++ String "012" EmptyString))
  /\ parse (String "1" (String "011" (String "2" EmptyString)))
     = Raise (ExpressionParseError
                ("Unknown symbol: " ++ String "011" EmptyString))
  /\ parse (String "1" (String "013" (String "010" (String "2" EmptyString))))
     = Raise (ExpressionParseError
                ("Unknown symbol: " ++ String "013" EmptyString)).
Proof. repeat split. Qed.

(** C10 (amended).  An input made of two or more runs of decimal digits,
    separated (and possibly surrounded) by the separators the tokenizer
    skips -- space, newline, tab -- and of nothing else, is parsed without
    error into the literal of the last integer; the integers before it are
    dropped. *)
Theorem C10_parse_keeps_last_of_bare_integers :
  forall (lead : string) (fields : list (string * string))
         (last_digits trail : string),
    all_chars is_space lead = true ->
    forallb field_ok fields = true ->
    fields <> [] ->
    all_chars is_digit last_digits = true ->
    last_digits <> ""%string ->
    all_chars is_space trail = true ->
    parse (lead ++ join_fields fields ++ last_digits ++ trail)
    = Ok (literal (int_of_digits last_digits)).
Proof.
  intros lead fields last_digits trail Hlead Hfields Hne Hd Hdne Htrail.
  assert (Htok :
    tokenize (lead ++ join_fields fields ++ last_digits ++ trail)
    = Ok (map Tok_number
            (map (fun f => int_of_digits (fst f)) fields
             ++ [int_of_digits last_digits]))).
  { unfold tokenize.
    rewrite tokenize_loop_spaces by assumption.
    rewrite tokenize_loop_fields by assumption.
    rewrite <- (string_append_nil_r trail) at 1.
    rewrite tokenize_loop_field; try assumption.
    - simpl. rewrite map_app, map_map. reflexivity.
    - rewrite string_append_nil_r. destruct trail as [|c t]; simpl; [exact I|].
      unfold all_chars in Htrail. simpl in Htrail.
      apply andb_prop in Htrail as [Hc _]. now apply is_space_not_digit. }
  unfold parse. rewrite Htok. simpl.
  rewrite shunt_numbers. simpl.
  rewrite build_numbers.
  rewrite map_app, rev_app_distr. reflexivity.
Qed.

Lemma C10_parse_keeps_last_of_bare_integers_witness :
  parse "1 2" = Ok (literal 2).
Proof.
  apply (C10_parse_keeps_last_of_bare_integers "" [("1", " ")] "2" "")%string;
    solve [reflexivity | discriminate].
Defined.

(* ================================================================= *)
(** ** Decimal rendering of non-negative integers                     *)
(* ================================================================= *)

Lemma string_of_uint_digits (d : uint) :
  all_chars is_digit (NilEmpty.string_of_uint d) = true.
Proof.
  induction d; simpl; trivial.
Qed.

Lemma int_of_digits_acc_pos (d : uint) (acc : positive) :
  int_of_digits_acc (NilEmpty.string_of_uint d) (Zpos acc)
  = Zpos (Pos.of_uint_acc d acc).
Proof.
  revert acc.
  induction d; intros acc;
    cbn [NilEmpty.string_of_uint int_of_digits_acc Pos.of_uint_acc]; trivial;
    rewrite <- IHd; f_equal;
    match goal with
    | |- context [digit_value ?c] =>
        let v := eval vm_compute in (digit_value c) in
        change (digit_value c) with v
    end;
    lia.
Qed.

Lemma int_of_digits_acc_zero (d : uint) :
  int_of_digits_acc (NilEmpty.string_of_uint d) 0 = Z.of_N (Pos.of_uint d).
Proof.
  induction d;
    cbn [NilEmpty.string_of_uint int_of_digits_acc Pos.of_uint]; trivial;
    match goal with
    | |- context [digit_value ?c] =>
        let v := eval vm_compute in (digit_value c) in
        change (digit_value c) with v
    end;
    cbn [Z.mul Z.add]; try apply int_of_digits_acc_pos; exact IHd.
Qed.

(** [str(n)] of a non-negative [n] is a non-empty run of digits that
    [int] reads back as [n]. *)
Lemma str_of_int_nonneg (n : Z) :
  0 <= n ->
  all_chars is_digit (str_of_int n) = true
  /\ str_of_int n <> ""%string
  /\ int_of_digits (str_of_int n) = n.
Proof.
  intros Hn. destruct n as [|p|p]; [repeat split; discriminate | | lia].
  unfold str_of_int, Z.to_int, NilZero.string_of_int, NilZero.string_of_uint.
  pose proof (Unsigned.to_uint_nonnil p) as Hnil.
  pose proof (Unsigned.of_to p) as Hof.
  destruct (Pos.to_uint p) as [|d|d|d|d|d|d|d|d|d|d] eqn:E;
    try contradiction;
    (split; [apply (string_of_uint_digits (_ d)) |
             split; [discriminate |
                     unfold int_of_digits;
                     rewrite (int_of_digits_acc_zero (_ d)), Hof; reflexivity]]).
Qed.

(* ================================================================= *)
(** ** Tokens of a rendering                                          *)
(* ================================================================= *)

Lemma rep_wrapped (op1 op2 : Expression) (o : operator)
  (parent_op : option operator) (sd : option side) :
  rep (Binary op1 op2 o) parent_op sd =
    if wrapped parent_op sd o
    then parens (render (Binary op1 op2 o))
    else render (Binary op1 op2 o).
Proof.
  unfold wrapped, render. cbn [rep].
  destruct parent_op as [p|]; cbn [associative_opt side_is_r negb andb orb].
  - destruct (precedence p >? precedence o); [reflexivity|].
    cbn [orb]. destruct (negb (associative p) && side_is_r sd); reflexivity.
  - destruct sd as [[|]|]; reflexivity.
Qed.

Lemma rep_tokens_wrapped (op1 op2 : Expression) (o : operator)
  (parent_op : option operator) (sd : option side) :
  rep_tokens (Binary op1 op2 o) parent_op sd =
    if wrapped parent_op sd o
    then [Tok_open_paren] ++ rep_tokens (Binary op1 op2 o) None None
                          ++ [Tok_close_paren]
    else rep_tokens (Binary op1 op2 o) None None.
Proof. reflexivity. Qed.

Lemma render_binary (op1 op2 : Expression) (o : operator) :
  render (Binary op1 op2 o) =
    (rep op1 (Some o) (Some SideL) ++ " " ++ symbol o ++ " "
       ++ rep op2 (Some o) (Some SideR))%string.
Proof. reflexivity. Qed.

Lemma rep_tokens_binary (op1 op2 : Expression) (o : operator) :
  rep_tokens (Binary op1 op2 o) None None =
    rep_tokens op1 (Some o) (Some SideL)
    ++ [Tok_op o] ++ rep_tokens op2 (Some o) (Some SideR).
Proof. reflexivity. Qed.

Lemma tokenize_loop_symbol (o : operator) (rest : string) (tokens : list token) :
  tokenize_loop (symbol o ++ rest) tokens false ""
  = tokenize_loop rest (tokens ++ [Tok_op o]) false "".
Proof. destruct o; reflexivity. Qed.

Lemma tokenize_loop_space (rest : string) (tokens : list token) :
  tokenize_loop (" " ++ rest) tokens false ""
  = tokenize_loop rest tokens false "".
Proof. reflexivity. Qed.

Lemma tokenize_loop_open (rest : string) (tokens : list token) :
  tokenize_loop ("(" ++ rest) tokens false ""
  = tokenize_loop rest (tokens ++ [Tok_open_paren]) false "".
Proof. reflexivity. Qed.

Lemma tokenize_loop_close (rest : string) (tokens : list token) :
  tokenize_loop (")" ++ rest) tokens false ""
  = tokenize_loop rest (tokens ++ [Tok_close_paren]) false "".
Proof. reflexivity. Qed.

(** Tokenizing a rendering gives back its tokens, whatever follows it, as
    long as no digit follows it directly. *)
Lemma tokenize_loop_rep (e : Expression) :
  literals_nonneg e = true ->
  forall (parent_op : option operator) (sd : option side) (rest : string)
         (tokens : list token),
    no_digit_ahead rest ->
    tokenize_loop (rep e parent_op sd ++ rest) tokens false ""
    = tokenize_loop rest (tokens ++ rep_tokens e parent_op sd) false "".
Proof.
  induction e as [v | l IHl r IHr o]; intros Hnn parent_op sd rest tokens Hrest.
  - simpl in Hnn. apply Z.leb_le in Hnn.
    destruct (str_of_int_nonneg v Hnn) as (Hd & Hne & Hint).
    cbn [rep rep_tokens].
    rewrite <- Hint at 2.
    apply (tokenize_loop_field (str_of_int v) "" rest tokens); trivial.
  - simpl in Hnn. apply andb_prop in Hnn as [Hl Hr].
    assert (Hbody : forall rest tokens, no_digit_ahead rest ->
              tokenize_loop (render (Binary l r o) ++ rest) tokens false ""
              = tokenize_loop rest
                  (tokens ++ rep_tokens (Binary l r o) None None) false "").
    { intros rest' tokens' Hrest'.
      rewrite render_binary, rep_tokens_binary.
      rewrite !string_append_assoc.
      rewrite (IHl Hl) by reflexivity.
      rewrite tokenize_loop_space, tokenize_loop_symbol, tokenize_loop_space.
      rewrite (IHr Hr) by assumption.
      rewrite <- !app_assoc. reflexivity. }
    rewrite rep_wrapped, rep_tokens_wrapped.
    destruct (wrapped parent_op sd o).
    + unfold parens. rewrite !string_append_assoc.
      rewrite tokenize_loop_open.
      rewrite Hbody by reflexivity.
      rewrite tokenize_loop_close.
      rewrite <- !app_assoc. reflexivity.
    + apply Hbody, Hrest.
Qed.

Lemma tokenize_render (e : Expression) :
  literals_nonneg e = true ->
  tokenize (render e) = Ok (rep_tokens e None None).
Proof.
  intros H. unfold tokenize, render.
  rewrite <- (string_append_nil_r (rep e None None)).
  rewrite (tokenize_loop_rep e H None None "" []); [reflexivity | exact I].
Qed.

(* ================================================================= *)
(** ** The shunting-yard pass, on values                              *)
(* ================================================================= *)

Lemma sem_app (q1 q2 : list queue_item) :
  sem (q1 ++ q2) = fold_left vitem q2 (sem q1).
Proof. unfold sem. apply fold_left_app. Qed.

Lemma fold_vitem_none (q : list queue_item) : fold_left vitem q None = None.
Proof. induction q as [|[n|o] q IH]; simpl; trivial. Qed.

Lemma precedence_pos (o : operator) : 0 <= precedence o.
Proof. destruct o; simpl; lia. Qed.

(** The three stack loops of the parser, on the value of the queue. *)
Lemma pop_higher_sim (val : operator) (q : list queue_item) (st : list stack_entry) :
  reduce_from (precedence val) (sem q) st
  = (sem (fst (pop_higher val q st)), snd (pop_higher val q st)).
Proof.
  revert q. induction st as [|[|p] st IH]; intros q; simpl; trivial.
  destruct (precedence val <=? precedence p); simpl; trivial.
  rewrite <- IH, sem_app. reflexivity.
Qed.

Lemma pop_to_open_sim (q : list queue_item) (st : list stack_entry) :
  match pop_to_open q st with
  | Some (q', st') => reduce_from 0 (sem q) st = (sem q', S_open :: st')
  | None => snd (reduce_from 0 (sem q) st) = []
  end.
Proof.
  revert q. induction st as [|[|p] st IH]; intros q; simpl; trivial.
  pose proof (precedence_pos p) as Hp. apply Z.leb_le in Hp. rewrite Hp.
  specialize (IH (q ++ [Q_op p])). rewrite sem_app in IH. exact IH.
Qed.

Lemma drain_sim (q : list queue_item) (st : list stack_entry) :
  match drain q st with
  | Ok q' => reduce_from 0 (sem q) st = (sem q', [])
  | Raise _ => snd (reduce_from 0 (sem q) st) <> []
  end.
Proof.
  revert q. induction st as [|[|p] st IH]; intros q; simpl; trivial.
  - discriminate.
  - pose proof (precedence_pos p) as Hp. apply Z.leb_le in Hp. rewrite Hp.
    specialize (IH (q ++ [Q_op p])). rewrite sem_app in IH. exact IH.
Qed.

Lemma shunt_token_sim (q : list queue_item) (st : list stack_entry) (t : token)
  (v' : vstack) (st' : list stack_entry) :
  vstep (sem q, st) t = Ok (v', st') ->
  exists q', shunt_token (q, st) t = Ok (q', st') /\ sem q' = v'.
Proof.
  destruct t as [n | | | o]; simpl.
  - intros [= <- <-]. eexists. split; [reflexivity|]. now rewrite sem_app.
  - intros [= <- <-]. eauto.
  - pose proof (pop_to_open_sim q st) as H.
    destruct (pop_to_open q st) as [[q1 st1]|].
    + rewrite H. intros [= <- <-]. eauto.
    + destruct (reduce_from 0 (sem q) st) as [v1 [|[|p] st1]];
        simpl in H; try discriminate H; intros Hx; discriminate Hx.
  - rewrite pop_higher_sim.
    destruct (pop_higher o q st) as [q1 st1]. simpl.
    intros [= <- <-]. eauto.
Qed.

Lemma shunt_tokens_sim (tokens : list token) :
  forall (q : list queue_item) (st : list stack_entry) (v' : vstack)
         (st' : list stack_entry),
    foldM vstep tokens (sem q, st) = Ok (v', st') ->
    exists q', foldM shunt_token tokens (q, st) = Ok (q', st') /\ sem q' = v'.
Proof.
  induction tokens as [|t tokens IH]; intros q st v' st'; cbn [foldM].
  - intros [= <- <-]. eauto.
  - destruct (vstep (sem q, st) t) as [[v1 st1]|e] eqn:E; cbn [bind];
      [|discriminate].
    destruct (shunt_token_sim q st t v1 st1 E) as (q1 & -> & <-). cbn [bind].
    apply IH.
Qed.

Lemma foldM_app {A S : Type} (f : S -> A -> PyResult S) (l1 l2 : list A) (s : S) :
  foldM f (l1 ++ l2) s = (s1 <- foldM f l1 s ;; foldM f l2 s1).
Proof.
  revert s. induction l1 as [|x l1 IH]; intros s; simpl; [reflexivity|].
  destruct (f s x); simpl; [apply IH | reflexivity].
Qed.

Lemma reduce_from_stack (j : Z) (st : list stack_entry) :
  forall v : vstack,
    stack_sorted st ->
    stack_sorted (snd (reduce_from j v st)) /\ top_below j (snd (reduce_from j v st)).
Proof.
  induction st as [|[|p] st IH]; intros v Hs; simpl; auto.
  destruct (Z.leb_spec j (precedence p)) as [H|H].
  - apply IH. simpl in Hs. tauto.
  - simpl. split; [exact Hs | exact H].
Qed.

Lemma reduce_from_stop (j : Z) (v : vstack) (st : list stack_entry) :
  top_below j st -> reduce_from j v st = (v, st).
Proof.
  destruct st as [|[|p] st]; simpl; trivial.
  intros H. apply Z.leb_gt in H. now rewrite H.
Qed.

Lemma reduce_from_twice (j k : Z) (st : list stack_entry) :
  j <= k ->
  forall v : vstack,
    reduce_from j (fst (reduce_from k v st)) (snd (reduce_from k v st))
    = reduce_from j v st.
Proof.
  intros Hjk. induction st as [|[|p] st IH]; intros v; simpl; trivial.
  destruct (Z.leb_spec k (precedence p)) as [H|H].
  - assert (Hj : (j <=? precedence p) = true) by (apply Z.leb_le; lia).
    rewrite Hj. apply IH.
  - reflexivity.
Qed.

Lemma sorted_tail_below (p : operator) (st : list stack_entry) :
  stack_sorted (S_op p :: st) -> top_below (precedence p) st.
Proof. destruct st as [|[|q] st]; simpl; tauto. Qed.

Lemma admits_mono (k k' : Z) (st : list stack_entry) :
  k <= k' -> admits k st -> admits k' st.
Proof.
  destruct st as [|[|p] st]; simpl; trivial.
  intros Hk [H | [H Ha]]; [left; lia|].
  destruct (Z.eq_dec k k'); [right; split; [lia | exact Ha] | left; lia].
Qed.

Lemma vapply_vpush2 (o : operator) (a b : Z) (v : vstack) :
  vapply o (vpush b (vpush a v)) = vpush (apply_op o a b) v.
Proof. destruct v; reflexivity. Qed.

(** Reading [a o b] after a compatible stack gives what reading its value
    would give: the one operator that the first operand may pop is an
    associative operator of the same precedence. *)
Lemma reduce_combine (o : operator) (a b : Z) (v : vstack) (st : list stack_entry) :
  o <> Slash ->
  stack_sorted st ->
  admits (precedence o) st ->
  reduce_from (precedence o) (vpush (apply_op o a b) v) st
  = (vapply o (vpush b (fst (reduce_from (precedence o) (vpush a v) st))),
     snd (reduce_from (precedence o) (vpush a v) st)).
Proof.
  intros Ho Hs Ha.
  destruct st as [|[|p] st]; cbn [reduce_from fst snd];
    try (now rewrite vapply_vpush2).
  cbn [admits] in Ha. destruct Ha as [Hlt | [Heq Hassoc]].
  - apply Z.leb_gt in Hlt. rewrite Hlt. cbn [fst snd]. now rewrite vapply_vpush2.
  - assert (Hle : (precedence o <=? precedence p) = true) by (apply Z.leb_le; lia).
    rewrite Hle.
    pose proof (sorted_tail_below p st Hs) as Hb. rewrite Heq in Hb.
    rewrite !(reduce_from_stop _ _ st Hb). cbn [fst snd]. f_equal.
    destruct v as [[|c vs]|]; try reflexivity.
    cbn [vpush option_map vapply]. do 2 f_equal.
    destruct o, p; simpl in *; try discriminate; try congruence; ring.
Qed.

Lemma exact_value_binary (l r : Expression) (o : operator) :
  exact_value (Binary l r o) = apply_op o (exact_value l) (exact_value r).
Proof. destruct o; reflexivity. Qed.

Lemma precedence_range (o : operator) : 2 <= precedence o <= 3.
Proof. destruct o; simpl; lia. Qed.

Lemma left_child_unwrapped (o : operator) (l : Expression) :
  ctx_wrapped (Some o) (Some SideL) l = false -> precedence o <= top_prec l.
Proof.
  destruct l as [n | a b o']; simpl.
  - intros _. pose proof (precedence_range o). lia.
  - unfold wrapped. simpl. rewrite andb_false_r, orb_false_r.
    intros H.
    destruct (Z.gtb_spec (precedence o) (precedence o')); [discriminate | lia].
Qed.

Lemma right_child_unwrapped (o : operator) (r : Expression) :
  ctx_wrapped (Some o) (Some SideR) r = false ->
  precedence o <= top_prec r /\
  (precedence o < top_prec r \/ associative o = true).
Proof.
  destruct r as [n | a b o']; simpl.
  - intros _. pose proof (precedence_range o). lia.
  - unfold wrapped. simpl. rewrite andb_true_r.
    intros H. apply orb_false_elim in H as [H1 H2].
    apply negb_false_iff in H2.
    destruct (Z.gtb_spec (precedence o) (precedence o')); [discriminate|].
    split; [lia | now right].
Qed.

(** The pass over the tokens of a division-free rendering, followed by any
    reduction that the context can ask for, is the pass over its value. *)
Lemma vstep_rep_tokens (e : Expression) :
  no_division e = true ->
  forall (parent_op : option operator) (sd : option side) (v : vstack)
         (st : list stack_entry),
    stack_sorted st ->
    ctx_wrapped parent_op sd e = true \/ admits (top_prec e) st ->
    exists v1 st1,
      foldM vstep (rep_tokens e parent_op sd) (v, st) = Ok (v1, st1)
      /\ forall j : Z,
          ctx_wrapped parent_op sd e = true \/ j <= top_prec e ->
          reduce_from j v1 st1 = reduce_from j (vpush (exact_value e) v) st.
Proof.
  induction e as [n | l IHl r IHr o]; intros Hnd parent_op sd v st Hs Hctx.
  - exists (vpush n v), st. split; reflexivity.
  - cbn [no_division] in Hnd.
    apply andb_prop in Hnd as [Hnd Hr]. apply andb_prop in Hnd as [Ho Hl].
    assert (Hos : o <> Slash) by (intros ->; discriminate Ho).
    set (k := precedence o).
    assert (Hbody : forall v st,
      stack_sorted st -> admits k st ->
      exists v1 st1,
        foldM vstep (rep_tokens (Binary l r o) None None) (v, st) = Ok (v1, st1)
        /\ forall j, j <= k ->
             reduce_from j v1 st1
             = reduce_from j (vpush (exact_value (Binary l r o)) v) st).
    { clear v st Hs Hctx. intros v st Hs Ha.
      rewrite rep_tokens_binary, foldM_app.
      (* left operand *)
      destruct (IHl Hl (Some o) (Some SideL) v st Hs) as (v1 & st1 & E1 & H1).
      { destruct (ctx_wrapped (Some o) (Some SideL) l) eqn:W; [now left|].
        right. apply (admits_mono k); [now apply left_child_unwrapped | exact Ha]. }
      rewrite E1. cbn [bind]. rewrite foldM_app. cbn [bind foldM vstep].
      assert (H1k : reduce_from k v1 st1
                    = reduce_from k (vpush (exact_value l) v) st).
      { apply H1. destruct (ctx_wrapped (Some o) (Some SideL) l) eqn:W;
          [now left | right; now apply left_child_unwrapped]. }
      fold k. rewrite H1k.
      destruct (reduce_from k (vpush (exact_value l) v) st) as [v2 st2] eqn:E2.
      cbn [bind].
      pose proof (reduce_from_stack k st (vpush (exact_value l) v) Hs) as [Hs2 Hb2].
      rewrite E2 in Hs2, Hb2. cbn [snd] in Hs2, Hb2.
      (* right operand *)
      assert (Hs3 : stack_sorted (S_op o :: st2)).
      { cbn [stack_sorted]. split; [|exact Hs2].
        destruct st2 as [|[|q] st2]; trivial. }
      destruct (IHr Hr (Some o) (Some SideR) v2 (S_op o :: st2) Hs3)
        as (v3 & st3 & E3 & H3).
      { destruct (ctx_wrapped (Some o) (Some SideR) r) eqn:W; [now left|].
        right. apply right_child_unwrapped in W as [W1 W2]. cbn [admits].
        fold k in W1, W2. destruct W2 as [W2|W2]; [now left|].
        destruct (Z.eq_dec k (top_prec r)); [right; now split | left; lia]. }
      rewrite E3. exists v3, st3. split; [reflexivity|].
      intros j Hj.
      rewrite H3.
      2:{ destruct (ctx_wrapped (Some o) (Some SideR) r) eqn:W; [now left|].
          right. apply right_child_unwrapped in W as [W1 _]. fold k in W1. lia. }
      cbn [reduce_from]. fold k.
      assert (Hjk : (j <=? k) = true) by (apply Z.leb_le; exact Hj).
      rewrite Hjk.
      rewrite <- (reduce_from_twice j k st Hj
                    (vpush (exact_value (Binary l r o)) v)).
      rewrite exact_value_binary.
      pose proof (reduce_combine o (exact_value l) (exact_value r) v st
                    Hos Hs Ha) as Hc.
      fold k in Hc. rewrite Hc, E2. reflexivity. }
    rewrite rep_tokens_wrapped. cbn [ctx_wrapped top_prec] in *. fold k in Hctx |- *.
    destruct (wrapped parent_op sd o) eqn:W.
    + destruct (Hbody v (S_open :: st) I I) as (v1 & st1 & E1 & H1).
      exists (vpush (exact_value (Binary l r o)) v), st.
      split; [|reflexivity].
      rewrite foldM_app. cbn [foldM vstep bind].
      rewrite foldM_app, E1. cbn [foldM vstep bind].
      rewrite (H1 0) by (pose proof (precedence_range o); unfold k; lia).
      reflexivity.
    + destruct Hctx as [Hctx|Hctx]; [discriminate|].
      destruct (Hbody v st Hs Hctx) as (v1 & st1 & E1 & H1).
      exists v1, st1. split; [exact E1|].
      intros j [Hj|Hj]; [discriminate | now apply H1].
Qed.

(** No division operator enters the queue when none is in the input. *)
Lemma pop_higher_no_slash (val : operator) (st : list stack_entry) :
  forall q : list queue_item,
    forallb no_slash_item q = true -> forallb no_slash_entry st = true ->
    forallb no_slash_item (fst (pop_higher val q st)) = true
    /\ forallb no_slash_entry (snd (pop_higher val q st)) = true.
Proof.
  induction st as [|[|p] st IH]; intros q Hq Hst; simpl; auto.
  simpl in Hst. apply andb_prop in Hst as [Hp Hst].
  destruct (precedence val <=? precedence p); simpl.
  - apply IH; [|exact Hst].
    rewrite forallb_app, Hq. simpl. now rewrite Hp.
  - rewrite Hp, Hst. auto.
Qed.

Lemma pop_to_open_no_slash (st : list stack_entry) :
  forall (q q' : list queue_item) (st' : list stack_entry),
    forallb no_slash_item q = true -> forallb no_slash_entry st = true ->
    pop_to_open q st = Some (q', st') ->
    forallb no_slash_item q' = true /\ forallb no_slash_entry st' = true.
Proof.
  induction st as [|[|p] st IH]; intros q q' st' Hq Hst; simpl.
  - discriminate.
  - intros [= <- <-]. auto.
  - simpl in Hst. apply andb_prop in Hst as [Hp Hst].
    apply IH; [|exact Hst]. rewrite forallb_app, Hq. simpl. now rewrite Hp.
Qed.

Lemma drain_no_slash (st : list stack_entry) :
  forall q q' : list queue_item,
    forallb no_slash_item q = true -> forallb no_slash_entry st = true ->
    drain q st = Ok q' -> forallb no_slash_item q' = true.
Proof.
  induction st as [|[|p] st IH]; intros q q' Hq Hst; simpl.
  - now intros [= <-].
  - discriminate.
  - simpl in Hst. apply andb_prop in Hst as [Hp Hst].
    apply IH; [|exact Hst]. rewrite forallb_app, Hq. simpl. now rewrite Hp.
Qed.

Lemma shunt_tokens_no_slash (tokens : list token) :
  forall (q q' : list queue_item) (st st' : list stack_entry),
    forallb no_slash_token tokens = true ->
    forallb no_slash_item q = true -> forallb no_slash_entry st = true ->
    foldM shunt_token tokens (q, st) = Ok (q', st') ->
    forallb no_slash_item q' = true /\ forallb no_slash_entry st' = true.
Proof.
  induction tokens as [|t tokens IH]; intros q q' st st' Ht Hq Hst; cbn [foldM].
  - intros [= <- <-]. auto.
  - simpl in Ht. apply andb_prop in Ht as [Ht Hts].
    destruct (shunt_token (q, st) t) as [[q1 st1]|e] eqn:E; cbn [bind];
      [|discriminate].
    assert (forallb no_slash_item q1 = true /\ forallb no_slash_entry st1 = true)
      as [Hq1 Hst1].
    { destruct t as [n | | | o]; simpl in E.
      - injection E as <- <-. rewrite forallb_app, Hq. auto.
      - injection E as <- <-. simpl. auto.
      - destruct (pop_to_open q st) as [[q2 st2]|] eqn:E2; [|discriminate].
        injection E as <- <-. eapply pop_to_open_no_slash; eauto.
      - pose proof (pop_higher_no_slash o st q Hq Hst) as [H1 H2].
        destruct (pop_higher o q st) as [q2 st2]. injection E as <- <-.
        simpl in *. split; [exact H1|].
        destruct o; simpl in *; try discriminate; exact H2. }
    now apply IH.
Qed.

Lemma rep_tokens_no_slash (e : Expression) :
  no_division e = true ->
  forall (parent_op : option operator) (sd : option side),
    forallb no_slash_token (rep_tokens e parent_op sd) = true.
Proof.
  induction e as [n | l IHl r IHr o]; intros Hnd parent_op sd; [reflexivity|].
  cbn [no_division] in Hnd.
  apply andb_prop in Hnd as [Hnd Hr]. apply andb_prop in Hnd as [Ho Hl].
  assert (Hbody : forallb no_slash_token
                    (rep_tokens (Binary l r o) None None) = true).
  { rewrite rep_tokens_binary, !forallb_app, (IHl Hl), (IHr Hr).
    destruct o; try reflexivity; discriminate. }
  rewrite rep_tokens_wrapped. destruct (wrapped parent_op sd o); [|exact Hbody].
  rewrite !forallb_app, Hbody. reflexivity.
Qed.

(** Folding a division-free queue into trees succeeds whenever its
    postfix evaluation does, and the trees have the evaluated values. *)
Lemma build_sem (q : list queue_item) :
  forall (stack : list Expression) (vs : list Z),
    forallb no_slash_item q = true ->
    forallb no_division stack = true ->
    fold_left vitem q (Some (map exact_value stack)) = Some vs ->
    exists stack',
      foldM build_item q stack = Ok stack'
      /\ forallb no_division stack' = true
      /\ map exact_value stack' = vs.
Proof.
  induction q as [|[n|o] q IH]; intros stack vs Hq Hst; cbn [fold_left foldM].
  - intros [= <-]. eauto.
  - simpl in Hq. intros H. cbn [build_item bind].
    apply (IH (literal n :: stack) vs Hq); [simpl; exact Hst | exact H].
  - simpl in Hq. apply andb_prop in Hq as [Ho Hq].
    destruct stack as [|b [|a stack]];
      cbn [vitem vapply map]; try (rewrite fold_vitem_none; discriminate).
    intros H.
    assert (Hc : compose a b o = Ok (Binary a b o))
      by (destruct o; try reflexivity; discriminate).
    cbn [build_item pop bind]. rewrite Hc. cbn [bind].
    simpl in Hst. apply andb_prop in Hst as [Hb Hst].
    apply andb_prop in Hst as [Ha Hst].
    apply (IH (Binary a b o :: stack) vs Hq).
    + cbn [forallb no_division]. rewrite Ha, Hb, Hst.
      destruct o; try reflexivity; discriminate.
    + cbn [map]. rewrite exact_value_binary. exact H.
Qed.

(** C2 (as stated, refuted).  [literal(-5)] is a valid tree without a
    division node; it renders as ["-5"], which the tokenizer reads as the
    operator [-] followed by [5], and [parse] stops on [IndexError]. *)
Lemma C2_negative_literal_does_not_reparse :
  no_division (literal (-5)) = true
  /\ render (literal (-5)) = "-5"%string
  /\ parse (render (literal (-5))) = Raise IndexError.
Proof. repeat split. Qed.

(** C2 (amended).  For every expression tree that contains no division node
    and whose literals are all non-negative, [parse(render(expr))] succeeds
    and the value of the resulting expression is the value of [expr]. *)
Theorem C2_parse_render_preserves_value :
  forall e : Expression,
    no_division e = true ->
    literals_nonneg e = true ->
    exists e',
      parse (render e) = Ok e'
      /\ value e' = value e
      /\ value e = Ok (exact_value e).
Proof.
  intros e Hnd Hnn.
  destruct (vstep_rep_tokens e Hnd None None (Some []) [] I)
    as (v1 & st1 & Erun & Hred).
  { right. exact I. }
  destruct (shunt_tokens_sim _ [] [] v1 st1 Erun) as (q1 & Eshunt & Hsem).
  assert (Hfinal : reduce_from 0 (sem q1) st1 = (Some [exact_value e], [])).
  { rewrite Hsem, Hred; [reflexivity|].
    right. destruct e as [n | l r o]; simpl; [lia|].
    pose proof (precedence_range o). lia. }
  destruct (shunt_tokens_no_slash _ [] q1 [] st1
              (rep_tokens_no_slash e Hnd None None) eq_refl eq_refl Eshunt)
    as [Hq1 Hst1].
  pose proof (drain_sim q1 st1) as Hdrain.
  destruct (drain q1 st1) as [q2|err] eqn:Edrain.
  2:{ rewrite Hfinal in Hdrain. simpl in Hdrain. congruence. }
  rewrite Hfinal in Hdrain. injection Hdrain as Hq2.
  pose proof (drain_no_slash st1 q1 q2 Hq1 Hst1 Edrain) as Hns.
  destruct (build_sem q2 [] [exact_value e] Hns eq_refl (eq_sym Hq2))
    as (stack & Ebuild & Hstack & Hvals).
  destruct stack as [|e' [|x stack]]; try discriminate Hvals.
  injection Hvals as Hval.
  simpl in Hstack. rewrite andb_true_r in Hstack.
  exists e'.
  rewrite (value_no_division e Hnd), (value_no_division e' Hstack), Hval.
  repeat split.
  unfold parse. rewrite (tokenize_render e Hnn). cbn [bind].
  rewrite Eshunt. cbn [bind]. rewrite Edrain. cbn [bind].
  rewrite Ebuild. reflexivity.
Qed.

Lemma C2_parse_render_preserves_value_witness :
  let e := Binary (Literal 1)
             (Binary (Literal 2)
                (Binary (Literal 3) (Binary (Literal 4) (Literal 5) Plus) Times)
                Minus)
             Plus in
  render e = "1 + 2 - (3 * (4 + 5))"%string
  /\ exists e', parse (render e) = Ok e' /\ value e' = Ok (-24).
Proof.
  intros e. split; [reflexivity|].
  destruct (C2_parse_render_preserves_value e eq_refl eq_refl)
    as (e' & Hp & Hv & _).
  exists e'. split; [exact Hp | exact Hv].
Defined.

(* ================================================================= *)
(** ** Termination of the search on the Countdown adapter             *)
(* ================================================================= *)

Section EngineFuel.

Context {D M K : Type} (caps : Capabilities D M K) (srch : AStarSearch D M).

(** More fuel does not change a result. *)
Lemma search_loop_fuel_mono (fuel : nat) :
  forall (st : loop_state) r,
    search_loop caps srch fuel st = Some r ->
    search_loop caps srch (S fuel) st = Some r.
Proof.
  induction fuel as [|fuel IH]; intros st r.
  - simpl. destruct (heappop caps (frontier st)) as [[[key cur] fr']|]; trivial.
    destruct (Search.is_goal srch cur); [trivial | discriminate].
  - intros H. cbn [search_loop] in H |- *.
    destruct (heappop caps (frontier st)) as [[[key cur] fr']|]; trivial.
    destruct (Search.is_goal srch cur); trivial.
    destruct (children <- expand caps cur ;; _) as [st'|e]; trivial.
    apply IH in H. exact H.
Qed.

Lemma search_loop_fuel_le (fuel fuel' : nat) (st : loop_state) r :
  (fuel <= fuel')%nat ->
  search_loop caps srch fuel st = Some r ->
  search_loop caps srch fuel' st = Some r.
Proof.
  induction 1 as [|fuel' _ IH]; trivial.
  intros H. apply search_loop_fuel_mono, IH, H.
Qed.

Lemma heappop_none (fr : list (Z * SearchNode D M)) :
  heappop caps fr = None -> fr = [].
Proof.
  destruct fr as [|x fr]; simpl; trivial.
  destruct (heappop caps fr) as [[y rest]|]; [|discriminate].
  destruct (entry_ltb caps y x); discriminate.
Qed.

(** [heappop] takes one entry out and leaves the others. *)
Lemma heappop_split (fr : list (Z * SearchNode D M)) :
  forall x rest,
    heappop caps fr = Some (x, rest) ->
    exists l1 l2, fr = l1 ++ x :: l2 /\ rest = l1 ++ l2.
Proof.
  induction fr as [|a fr IH]; intros x rest; simpl; [discriminate|].
  destruct (heappop caps fr) as [[y rest']|] eqn:E.
  - destruct (entry_ltb caps y a).
    + intros [= <- <-]. destruct (IH y rest' eq_refl) as (l1 & l2 & -> & ->).
      exists (a :: l1), l2. split; reflexivity.
    + intros [= <- <-]. exists [], fr. split; reflexivity.
  - intros [= <- <-]. apply heappop_none in E. subst fr.
    exists [], []. split; reflexivity.
Qed.

End EngineFuel.

(** [l.remove(x)] succeeds on a list that holds [x] and leaves the rest. *)
Lemma list_remove_in (x : Z) (l : list Z) :
  In x l -> exists l1, list_remove x l = Ok l1 /\ Permutation l (x :: l1).
Proof.
  induction l as [|y l IH]; simpl; [contradiction|].
  intros H. destruct (Z.eqb_spec y x) as [->|Hne].
  - exists l. split; [reflexivity | apply Permutation_refl].
  - destruct H as [H|H]; [contradiction|].
    destruct (IH H) as (l1 & -> & Hp). exists (y :: l1). split; [reflexivity|].
    rewrite Hp. apply perm_swap.
Qed.

Lemma list_remove_two (a b : Z) (l rest : list Z) :
  Permutation l (a :: b :: rest) ->
  exists l2,
    (l1 <- list_remove a l ;; list_remove b l1) = Ok l2
    /\ List.length l = S (S (List.length l2)).
Proof.
  intros Hp.
  assert (Ha : In a l)
    by (apply (Permutation_in _ (Permutation_sym Hp)); now left).
  destruct (list_remove_in a l Ha) as (l1 & E1 & Hp1).
  assert (Hp1' : Permutation l1 (b :: rest)).
  { apply (Permutation_cons_inv (a := a)).
    rewrite <- Hp1. exact Hp. }
  assert (Hb : In b l1)
    by (apply (Permutation_in _ (Permutation_sym Hp1')); now left).
  destruct (list_remove_in b l1 Hb) as (l2 & E2 & Hp2).
  exists l2. rewrite E1. cbn [bind]. split; [exact E2|].
  rewrite (Permutation_length Hp1). cbn [List.length].
  rewrite (Permutation_length Hp2). reflexivity.
Qed.

(** The two elements of a pair of [combinations(l, 2)] sit at two
    different positions of [l]. *)
Lemma combinations2_perm (x y : Z) (l : list Z) :
  In (x, y) (combinations2 l) -> exists rest, Permutation l (x :: y :: rest).
Proof.
  induction l as [|a l IH]; simpl; [contradiction|].
  intros H. apply in_app_or in H as [H|H].
  - apply in_map_iff in H as (y' & [= <- <-] & Hin).
    apply in_split in Hin as (l1 & l2 & ->).
    exists (l1 ++ l2). apply perm_skip. symmetry. apply Permutation_middle.
  - destruct (IH H) as (rest & Hp). exists (a :: rest).
    rewrite Hp. rewrite perm_swap. apply perm_skip. apply perm_swap.
Qed.

Lemma combinations2_length {A : Type} (l : list A) :
  (List.length (combinations2 l) <= List.length l * List.length l)%nat.
Proof.
  induction l as [|a l IH]; simpl; [lia|].
  rewrite length_app, length_map. nia.
Qed.

Lemma pair_moves_length (p : Z * Z) : (List.length (pair_moves p) <= 5)%nat.
Proof.
  destruct p as [n1 n2]. unfold pair_moves.
  destruct (negb (n2 =? 0) && (n1 mod n2 =? 0)),
           (negb (n1 =? 0) && (n2 mod n1 =? 0)), (n1 >=? n2); simpl; lia.
Qed.

Lemma flat_map_length_le {A B : Type} (f : A -> list B) (c : nat) (l : list A) :
  (forall a, List.length (f a) <= c)%nat ->
  (List.length (flat_map f l) <= c * List.length l)%nat.
Proof.
  intros H. induction l as [|a l IH]; simpl; [lia|].
  rewrite length_app. specialize (H a). nia.
Qed.

Lemma possible_moves_length (n : CNode) :
  (List.length (possible_moves n)
   <= 5 * List.length (data n) * List.length (data n))%nat.
Proof.
  unfold possible_moves.
  pose proof (flat_map_length_le pair_moves 5 (combinations2 (data n))
                pair_moves_length).
  pose proof (combinations2_length (data n)). nia.
Qed.

(** A generated move names two numbers of the state, at different
    positions; a division move has a non-zero divisor and no remainder. *)
Lemma possible_moves_shape (n : CNode) (a b : Z) (op : operator) :
  In (a, op, b) (possible_moves n) ->
  (exists rest, Permutation (data n) (a :: b :: rest))
  /\ (op = Slash -> b <> 0 /\ a mod b = 0).
Proof.
  unfold possible_moves. intros H.
  apply in_flat_map in H as ([n1 n2] & Hpair & Hin).
  apply combinations2_perm in Hpair as (rest & Hp).
  assert (Hswap : Permutation (data n) (n2 :: n1 :: rest))
    by (rewrite Hp; apply perm_swap).
  unfold pair_moves in Hin.
  destruct (negb (n2 =? 0) && (n1 mod n2 =? 0)) eqn:E1;
    destruct (negb (n1 =? 0) && (n2 mod n1 =? 0)) eqn:E2;
    destruct (n1 >=? n2);
    simpl in Hin;
    repeat (destruct Hin as [Hin|Hin]; [injection Hin as <- <- <- | ]);
    try contradiction;
    (split; [eauto | intros Hop; try discriminate Hop]).
  all: first
    [ apply andb_prop in E1 as [Hz Hm];
      apply negb_true_iff, Z.eqb_neq in Hz; apply Z.eqb_eq in Hm; now split
    | apply andb_prop in E2 as [Hz Hm];
      apply negb_true_iff, Z.eqb_neq in Hz; apply Z.eqb_eq in Hm; now split ].
Qed.

(** Applying a generated move removes two numbers and appends one, unless
    the float division of a division move raises. *)
Lemma apply_move_generated (n : CNode) (a b : Z) (op : operator) :
  In (a, op, b) (possible_moves n) ->
  exists l2,
    List.length (data n) = S (S (List.length l2))
    /\ apply_move n (a, op, b)
       = (result <- get_result a b op ;; Ok (l2 ++ [result]))
    /\ (forall e, get_result a b op = Raise e ->
          op = Slash /\ b <> 0 /\ a mod b = 0).
Proof.
  intros H. apply possible_moves_shape in H as [(rest & Hp) Hdiv].
  destruct (list_remove_two a b (data n) rest Hp) as (l2 & E & Hlen).
  exists l2. split; [exact Hlen|]. split.
  - unfold apply_move.
    destruct (list_remove a (data n)) as [l1|e1]; cbn [bind] in E |- *;
      [|discriminate].
    rewrite E. reflexivity.
  - intros e He. destruct op; try discriminate He. split; [reflexivity|].
    now apply Hdiv.
Qed.

Lemma apply_move_shrinks (n : CNode) (move : Move) (d' : Data) :
  In move (possible_moves n) ->
  apply_move n move = Ok d' ->
  d' <> [] /\ S (List.length d') = List.length (data n).
Proof.
  destruct move as [[a op] b]. intros Hin H.
  destruct (apply_move_generated n a b op Hin) as (l2 & Hlen & E & _).
  rewrite E in H. destruct (get_result a b op) as [res|e]; [|discriminate].
  injection H as <-. split.
  - destruct l2; discriminate.
  - rewrite length_app, Hlen. simpl. lia.
Qed.

Lemma apply_move_raises (n : CNode) (move : Move) (e : exn) :
  In move (possible_moves n) ->
  apply_move n move = Raise e ->
  exists n1 n2,
    n2 <> 0 /\ n1 mod n2 = 0 /\ get_result n1 n2 Slash = Raise e.
Proof.
  destruct move as [[a op] b]. intros Hin H.
  destruct (apply_move_generated n a b op Hin) as (l2 & _ & E & Hr).
  rewrite E in H. destruct (get_result a b op) as [res|e'] eqn:G; [discriminate|].
  injection H as ->. destruct (Hr e eq_refl) as (-> & Hb & Hm).
  exists a, b. auto.
Qed.

Lemma mapM_ok_forall {A B : Type} (f : A -> PyResult B) (P : B -> Prop)
  (l : list A) (ys : list B) :
  (forall x y, In x l -> f x = Ok y -> P y) ->
  mapM f l = Ok ys ->
  Forall P ys /\ List.length ys = List.length l.
Proof.
  revert ys. induction l as [|x l IH]; intros ys HP; simpl.
  - intros [= <-]. split; [constructor | reflexivity].
  - destruct (f x) as [y|e] eqn:Ex; [|discriminate]. cbn [bind].
    destruct (mapM f l) as [ys'|e]; [|discriminate]. cbn [bind].
    intros [= <-].
    destruct (IH ys' (fun x' y' H' => HP x' y' (or_intror H')) eq_refl)
      as [HF Hlen].
    split; [constructor; [eapply HP; [now left | exact Ex] | exact HF]
           | simpl; now rewrite Hlen].
Qed.

(** The children of a state: each has one number fewer and at least one. *)
Lemma expand_children (n : CNode) (children : list CNode) :
  expand capabilities n = Ok children ->
  Forall (fun c => data c <> [] /\
                   S (List.length (data c)) = List.length (data n)) children
  /\ (List.length children
      <= 5 * List.length (data n) * List.length (data n))%nat.
Proof.
  unfold expand. intros H.
  apply (mapM_ok_forall _ (fun c => data c <> [] /\
                             S (List.length (data c)) = List.length (data n)))
    in H as [HF Hlen].
  - split; [exact HF|].
    eapply Nat.le_trans; [apply Nat.eq_le_incl, Hlen | apply possible_moves_length].
  - intros move c Hin Hc. cbn in Hc.
    destruct (apply_move n move) as [d|e] eqn:E; [|discriminate].
    injection Hc as <-. cbn [data].
    exact (apply_move_shrinks n move d Hin E).
Qed.

Lemma expand_raises (n : CNode) (e : exn) :
  expand capabilities n = Raise e ->
  exists n1 n2,
    n2 <> 0 /\ n1 mod n2 = 0 /\ get_result n1 n2 Slash = Raise e.
Proof.
  unfold expand. intros H. apply mapM_raise_inv in H as (move & Hin & H).
  cbn in H. destruct (apply_move n move) as [d|e'] eqn:E; [discriminate|].
  injection H as ->. exact (apply_move_raises n move e Hin E).
Qed.

Lemma heuristic_nonempty (cilj : Z) (n : CNode) :
  data n <> [] -> exists h, heuristic cilj n = Ok h.
Proof.
  unfold heuristic. destruct (data n) as [|x l]; [congruence|].
  intros _. simpl. eauto.
Qed.

Lemma search_weight_pos (m : nat) : (1 <= search_weight m)%nat.
Proof. destruct m; simpl; lia. Qed.

Lemma frontier_weight_app (a b : list (Z * CNode)) :
  frontier_weight (a ++ b) = (frontier_weight a + frontier_weight b)%nat.
Proof. unfold frontier_weight. now rewrite map_app, list_sum_app. Qed.

Lemma frontier_weight_cons (en : Z * CNode) (fr : list (Z * CNode)) :
  frontier_weight (en :: fr) = (node_weight (snd en) + frontier_weight fr)%nat.
Proof. reflexivity. Qed.

Lemma list_sum_cons (x : nat) (l : list nat) :
  list_sum (x :: l) = (x + list_sum l)%nat.
Proof. reflexivity. Qed.

Section AdapterSearch.

Variables (brojevi : list Z) (cilj tolerance : Z).

Let srch := search brojevi cilj tolerance.

(** Looking at one child adds it to the frontier or leaves the frontier
    as it is; with a non-empty state nothing raises. *)
Lemma visit_child_adapter (st : @loop_state Data Move (list Z)) (c : CNode) :
  data c <> [] ->
  exists st',
    visit_child capabilities srch st c = Ok st'
    /\ (frontier st' = frontier st
        \/ exists key, frontier st' = frontier st ++ [(key, c)]).
Proof.
  intros Hc. destruct (heuristic_nonempty cilj c Hc) as [h Hh].
  unfold visit_child.
  destruct (match dict_get capabilities _ (visited st) with
            | Some old => _ | None => false end); [eauto|].
  destruct (set_mem capabilities _ (fset st)); [eauto|].
  change (no_max_depth srch) with true. cbv iota.
  unfold sortkey. change (Search.heuristic srch c) with (heuristic cilj c).
  rewrite Hh. cbn [bind]. eexists. split; [reflexivity|].
  right. cbn [frontier]. unfold heappush. eauto.
Qed.

Lemma visit_children_adapter (children : list CNode) :
  forall st : @loop_state Data Move (list Z),
    Forall (fun c => data c <> []) children ->
    Forall (fun en => data (snd en) <> []) (frontier st) ->
    exists st',
      foldM (visit_child capabilities srch) children st = Ok st'
      /\ Forall (fun en => data (snd en) <> []) (frontier st')
      /\ (frontier_weight (frontier st')
          <= frontier_weight (frontier st)
             + list_sum (map node_weight children))%nat.
Proof.
  induction children as [|c children IH]; intros st Hcs Hfr; cbn [foldM].
  - exists st. split; [reflexivity|]. split; [exact Hfr|].
    cbn [map list_sum]. apply Nat.le_add_r.
  - inversion Hcs as [|? ? Hc Hcs']; subst.
    destruct (visit_child_adapter st c Hc) as (st1 & E1 & Hfr1).
    rewrite E1. cbn [bind].
    assert (Hinv1 : Forall (fun en => data (snd en) <> []) (frontier st1)).
    { destruct Hfr1 as [H1 | [key H1]]; rewrite H1; [exact Hfr|].
      apply Forall_app. split; [exact Hfr | now constructor]. }
    assert (Hw1 : (frontier_weight (frontier st1)
                   <= frontier_weight (frontier st) + node_weight c)%nat).
    { destruct Hfr1 as [H1 | [key H1]]; rewrite H1.
      - apply Nat.le_add_r.
      - rewrite frontier_weight_app. apply Nat.add_le_mono_l.
        rewrite frontier_weight_cons. cbn [snd].
        rewrite Nat.add_comm. apply Nat.le_refl. }
    destruct (IH st1 Hcs' Hinv1) as (st' & E & Hinv & Hw).
    exists st'. split; [exact E|]. split; [exact Hinv|].
    cbn [map]. rewrite list_sum_cons.
    eapply Nat.le_trans; [exact Hw|].
    rewrite Nat.add_assoc. apply Nat.add_le_mono_r. exact Hw1.
Qed.

Lemma children_weight (m : nat) (children : list CNode) :
  Forall (fun c => S (List.length (data c)) = m) children ->
  (List.length children <= 5 * m * m)%nat ->
  (list_sum (map node_weight children) + 1 <= search_weight m)%nat.
Proof.
  intros HF Hlen.
  destruct m as [|m'].
  - destruct children; [simpl; lia | simpl in Hlen; lia].
  - assert (Hsum : (list_sum (map node_weight children)
                    = List.length children * search_weight m')%nat).
    { clear Hlen. induction HF as [|c cs Hc _ IH]; [reflexivity|].
      cbn [map List.length]. rewrite list_sum_cons, IH.
      assert (Hnw : node_weight c = search_weight m')
        by (unfold node_weight; f_equal; injection Hc as Hc; exact Hc).
      rewrite Hnw. simpl. lia. }
    rewrite Hsum. cbn [search_weight].
    pose proof (search_weight_pos m'). nia.
Qed.

(** The loop ends once the fuel covers the weight of the frontier. *)
Lemma search_loop_terminates (fuel : nat) :
  forall st : @loop_state Data Move (list Z),
    Forall (fun en => data (snd en) <> []) (frontier st) ->
    (frontier_weight (frontier st) <= fuel)%nat ->
    exists r,
      search_loop capabilities srch fuel st = Some r /\ search_outcome r.
Proof.
  induction fuel as [|fuel IH]; intros st Hinv Hw.
  - destruct (frontier st) as [|[key n] fr] eqn:Efr.
    + exists (Ok (false, None)). simpl. rewrite Efr. split; [reflexivity | now left].
    + unfold frontier_weight in Hw. simpl in Hw.
      pose proof (search_weight_pos (List.length (data n))).
      unfold node_weight in Hw. lia.
  - cbn [search_loop].
    destruct (heappop capabilities (frontier st)) as [[[key cur] fr']|] eqn:Epop.
    2:{ exists (Ok (false, None)). split; [reflexivity | now left]. }
    destruct (Search.is_goal srch cur).
    { eexists. split; [reflexivity|]. right; left. eauto. }
    destruct (heappop_split capabilities _ _ _ Epop) as (l1 & l2 & Efr & ->).
    rewrite Efr in Hinv, Hw.
    apply Forall_app in Hinv as [Hinv1 Hinv2].
    inversion Hinv2 as [|? ? Hcur Hinv2']; subst.
    rewrite frontier_weight_app, frontier_weight_cons in Hw. cbn [snd] in Hw.
    destruct (expand capabilities cur) as [children|e] eqn:Eexp.
    2:{ cbn [bind]. exists (Raise e). split; [reflexivity|].
        right; right. destruct (expand_raises cur e Eexp) as (n1 & n2 & H).
        exists n1, n2, e. tauto. }
    cbn [bind].
    destruct (expand_children cur children Eexp) as [HF Hlen].
    destruct (visit_children_adapter children
                {| frontier := l1 ++ l2; fset := fset st; visited := visited st |})
      as (st' & E & Hinv' & Hw').
    + eapply Forall_impl; [|exact HF]. cbn. tauto.
    + cbn [frontier]. apply Forall_app. now split.
    + rewrite E. apply IH; [exact Hinv'|].
      cbn [frontier] in Hw'. rewrite frontier_weight_app in Hw'.
      pose proof (children_weight (List.length (data cur)) children) as Hcw.
      unfold node_weight in Hw at 1.
      assert (list_sum (map node_weight children) + 1
              <= search_weight (List.length (data cur)))%nat.
      { apply Hcw; [|exact Hlen]. eapply Forall_impl; [|exact HF]. cbn. tauto. }
      lia.
Qed.

End AdapterSearch.

(** C7 (as stated, refuted).  On the empty list of numbers [do_search]
    returns neither success nor failure: the heuristic of the start node
    takes [min] of an empty list and raises [ValueError]. *)
Lemma C7_empty_list_raises :
  do_search capabilities (search [] 5 0) 100 = Some (Raise ValueError).
Proof. reflexivity. Qed.

(** The third outcome of [search_outcome] occurs: a division move whose
    quotient does not fit a float stops the search. *)
Lemma do_search_division_overflow :
  do_search capabilities (search [2 ^ 1024; 1] 5 0) 100
  = Some (Raise OverflowError).
Proof. vm_compute. reflexivity. Qed.

(** C7 (amended).  For every non-empty list of numbers, every target and
    every tolerance, [do_search] on the adapter terminates: with enough
    fuel it has one result, which is failure, success, or the exception of
    the float division of a division move.  Every generated move, once
    applied, leaves one number fewer. *)
Theorem C7_search_terminates :
  forall (brojevi : list Z) (cilj tolerance : Z),
    brojevi <> [] ->
    (exists r,
        search_outcome r
        /\ forall fuel : nat,
            (search_weight (List.length brojevi) <= fuel)%nat ->
            do_search capabilities (search brojevi cilj tolerance) fuel = Some r)
    /\ (forall (node : CNode) (move : Move) (d' : Data),
          In move (possible_moves node) ->
          apply_move node move = Ok d' ->
          S (List.length d') = List.length (data node)).
Proof.
  intros brojevi cilj tolerance Hne. split.
  - destruct (heuristic_nonempty cilj (start_node brojevi) Hne) as [h Hh].
    unfold do_search, sortkey.
    change (Search.heuristic (search brojevi cilj tolerance)
              (start (search brojevi cilj tolerance)))
      with (heuristic cilj (start_node brojevi)).
    rewrite Hh. cbn [bind].
    set (st0 := {| frontier := _; fset := _; visited := _ |}).
    destruct (search_loop_terminates brojevi cilj tolerance
                (search_weight (List.length brojevi)) st0) as (r & Hr & Ho).
    + subst st0. cbn [frontier]. constructor; [exact Hne | constructor].
    + subst st0. cbn [frontier]. rewrite frontier_weight_cons.
      unfold frontier_weight. cbn [map snd]. unfold node_weight. cbn.
      rewrite Nat.add_0_r. apply Nat.le_refl.
    + exists r. split; [exact Ho|].
      intros fuel Hfuel. eapply search_loop_fuel_le; [exact Hfuel | exact Hr].
  - intros node move d' Hin H. now apply (apply_move_shrinks node move d' Hin H).
Qed.

Lemma C7_search_terminates_witness :
  [1; 1] <> []
  /\ exists r,
       search_outcome r
       /\ do_search capabilities (search [1; 1] 500 0) 121 = Some r.
Proof.
  assert (Hne : [1; 1] <> []) by discriminate.
  split; [exact Hne|].
  destruct (C7_search_terminates [1; 1] 500 0 Hne) as [(r & Ho & Hf) _].
  exists r. split; [exact Ho|].
  apply Hf. vm_compute. apply le_n.
Defined.

(* ================================================================= *)
(** ** Identity keys                                                  *)
(* ================================================================= *)

Lemma insert_sorted_perm (x : Z) (l : list Z) :
  Permutation (insert_sorted x l) (x :: l).
Proof.
  induction l as [|y l IH]; simpl; [reflexivity|].
  destruct (x <=? y); [reflexivity|].
  rewrite IH. apply perm_swap.
Qed.

Lemma sorted_perm (l : list Z) : Permutation (sorted l) l.
Proof.
  induction l as [|x l IH]; simpl; [reflexivity|].
  rewrite insert_sorted_perm. now apply perm_skip.
Qed.

Lemma insert_sorted_comm (x y : Z) (l : list Z) :
  insert_sorted x (insert_sorted y l) = insert_sorted y (insert_sorted x l).
Proof.
  induction l as [|h t IH]; simpl;
    repeat (match goal with
            | |- context [?a <=? ?b] => destruct (Z.leb_spec a b)
            end; simpl);
    try lia; trivial;
    try (assert (x = y) by lia; subst; reflexivity).
  now rewrite IH.
Qed.

Lemma sorted_of_perm (l l' : list Z) : Permutation l l' -> sorted l = sorted l'.
Proof.
  induction 1 as [| x l l' _ IH | x y l | l l' l'' _ IH1 _ IH2]; simpl.
  - reflexivity.
  - now rewrite IH.
  - apply insert_sorted_comm.
  - now rewrite IH1.
Qed.

Lemma insert_sorted_Sorted (x : Z) (l : list Z) :
  Sorted Z.le l -> Sorted Z.le (insert_sorted x l).
Proof.
  induction l as [|y l IH]; intros Hs; simpl.
  - repeat constructor.
  - destruct (Z.leb_spec x y).
    + constructor; [exact Hs | now constructor].
    + inversion Hs as [|? ? Hs' Hhd]; subst.
      constructor; [now apply IH|].
      destruct l as [|z l]; simpl.
      * constructor. lia.
      * destruct (Z.leb_spec x z); constructor; try lia.
        inversion Hhd; subst. assumption.
Qed.

Lemma sorted_Sorted (l : list Z) : Sorted Z.le (sorted l).
Proof.
  induction l as [|x l IH]; simpl; [constructor|].
  now apply insert_sorted_Sorted.
Qed.

Lemma tuple_eqb_eq (a b : list Z) : tuple_eqb a b = true <-> a = b.
Proof.
  revert b. induction a as [|x a IH]; intros [|y b]; simpl;
    try (split; [discriminate | discriminate]); [tauto|].
  rewrite andb_true_iff, Z.eqb_eq, IH. split.
  - intros [-> ->]. reflexivity.
  - intros [= -> ->]. auto.
Qed.

(** X1.  The identity key of a state is its numbers in ascending order,
    and two states have equal keys (and are equal as search nodes) exactly
    when they hold the same numbers up to order. *)
Theorem X1_identity_key_is_the_multiset :
  forall n n' : CNode,
    Sorted Z.le (_id n)
    /\ Permutation (_id n) (data n)
    /\ (Permutation (data n) (data n') <-> _id n = _id n')
    /\ (node_eqb capabilities n n' = true <-> Permutation (data n) (data n')).
Proof.
  intros n n'. unfold _id.
  assert (Hiff : Permutation (data n) (data n') <-> sorted (data n) = sorted (data n')).
  { split; [apply sorted_of_perm|].
    intros H. rewrite <- (sorted_perm (data n)), H. apply sorted_perm. }
  repeat split.
  - apply sorted_Sorted.
  - apply sorted_perm.
  - apply Hiff.
  - apply Hiff.
  - intros H. apply Hiff. now apply tuple_eqb_eq.
  - intros H. apply tuple_eqb_eq. now apply Hiff.
Qed.

(* ================================================================= *)
(** ** Search nodes and the result of a search                        *)
(* ================================================================= *)

Section NodeFacts.

Context {D M K : Type} (caps : Capabilities D M K).

Lemma mapM_ok_inv {A B : Type} (f : A -> PyResult B) (l : list A) (ys : list B) :
  mapM f l = Ok ys -> Forall2 (fun x y => f x = Ok y) l ys.
Proof.
  revert ys. induction l as [|x l IH]; intros ys; simpl.
  - intros [= <-]. constructor.
  - destruct (f x) as [y|e] eqn:Ex; [|discriminate]. cbn [bind].
    destruct (mapM f l) as [ys'|e]; [|discriminate]. cbn [bind].
    intros [= <-]. constructor; [exact Ex | now apply IH].
Qed.

(** Induction along the parent links. *)
Lemma node_parent_ind (P : SearchNode D M -> Prop) :
  (forall d, P (Node d None)) ->
  (forall d p m, P p -> P (Node d (Some (p, m)))) ->
  forall n, P n.
Proof.
  intros H0 H1. fix IH 1.
  intros [d [[p m]|]]; [apply H1, IH | apply H0].
Qed.

Lemma path_depth_length (n : SearchNode D M) :
  get_path_depth n = Z.of_nat (List.length (get_path n)).
Proof.
  unfold get_path. rewrite length_rev.
  induction n as [d | d p m IH] using node_parent_ind;
    cbn [get_path_depth moves_rev List.length]; [reflexivity|].
  rewrite IH. lia.
Qed.

Lemma path_length_default (n : SearchNode D M) :
  (forall d, path_cost caps d = None) ->
  get_path_length caps n = get_path_depth n.
Proof.
  intros Hc. induction n as [d | d p m IH] using node_parent_ind;
    cbn [get_path_length get_path_depth]; [reflexivity|].
  rewrite Hc, IH. reflexivity.
Qed.

(** What [expand] returns: one child per move, in the order of the moves,
    each holding the state [apply_move] computed, its parent and its move. *)
Lemma expand_ok_inv (n : SearchNode D M) (children : list (SearchNode D M)) :
  expand caps n = Ok children ->
  Forall2 (fun m c => exists d, Search.apply_move caps n m = Ok d
                                /\ c = Node d (Some (n, m)))
          (Search.possible_moves caps n) children.
Proof.
  unfold expand. intros H. apply mapM_ok_inv in H.
  eapply Forall2_impl; [|exact H].
  intros m c Hc. cbn in Hc.
  destruct (Search.apply_move caps n m) as [d|e]; [|discriminate].
  injection Hc as <-. eauto.
Qed.

Lemma expand_child_reachable (root n : SearchNode D M)
  (children : list (SearchNode D M)) :
  reachable caps root n ->
  expand caps n = Ok children ->
  Forall (reachable caps root) children.
Proof.
  intros Hn H. apply expand_ok_inv in H.
  assert (G : forall ms cs,
             incl ms (Search.possible_moves caps n) ->
             Forall2 (fun m c => exists d, Search.apply_move caps n m = Ok d
                                           /\ c = Node d (Some (n, m))) ms cs ->
             Forall (reachable caps root) cs).
  { intros ms cs Hin F.
    induction F as [|m c ms cs (d & Hd & ->) _ IH]; constructor.
    - apply (reach_step caps root n m d Hn); [apply Hin; now left | exact Hd].
    - apply IH. intros m' Hm'. apply Hin. now right. }
  exact (G _ _ (incl_refl _) H).
Qed.

End NodeFacts.

(** X2.  [expand] returns one child per possible move, in order; each child
    holds the state [apply_move] computed for its move, points to the
    expanded node as parent, and its path is the parent's path followed by
    that move, one edge deeper. *)
Theorem X2_expand_children_extend_the_path :
  forall (D M K : Type) (caps : Capabilities D M K) (n : SearchNode D M)
         (children : list (SearchNode D M)),
    expand caps n = Ok children ->
    List.length children = List.length (Search.possible_moves caps n)
    /\ map move_to_reach children = map Some (Search.possible_moves caps n)
    /\ forall c, In c children ->
         exists m d,
           In m (Search.possible_moves caps n)
           /\ Search.apply_move caps n m = Ok d
           /\ data c = d
           /\ parent c = Some n
           /\ move_to_reach c = Some m
           /\ get_path c = get_path n ++ [m]
           /\ get_path_depth c = 1 + get_path_depth n
           /\ List.length (get_path c) = S (List.length (get_path n)).
Proof.
  intros D M K caps n children H. apply expand_ok_inv in H.
  split; [symmetry; eapply Forall2_length; exact H|]. split.
  - induction H as [|m c ms cs (d & _ & ->) _ IH]; [reflexivity|].
    cbn [map]. now rewrite IH.
  - intros c Hc.
    assert (G : exists m, In m (Search.possible_moves caps n) /\
                          exists d, Search.apply_move caps n m = Ok d
                                    /\ c = Node d (Some (n, m))).
    { clear -H Hc. induction H as [|m c' ms cs Hm _ IH]; [contradiction|].
      destruct Hc as [<-|Hc].
      - exists m. split; [now left | exact Hm].
      - destruct (IH Hc) as (m' & Hin & Hm'). exists m'. split; [now right | exact Hm']. }
    destruct G as (m & Hin & d & Hd & ->).
    exists m, d. repeat split; trivial.
    unfold get_path. cbn [moves_rev]. cbn [List.rev]. rewrite length_app.
    simpl. lia.
Qed.

Lemma X2_expand_children_extend_the_path_witness :
  let n : CNode := Node [1; 2] None in
  exists children,
    expand capabilities n = Ok children
    /\ List.length children = 4%nat
    /\ map move_to_reach children
       = [Some (1, Times, 2); Some (1, Plus, 2); Some (2, Slash, 1);
          Some (2, Minus, 1)].
Proof.
  intros n.
  assert (E : expand capabilities n
              = Ok [Node [2] (Some (n, (1, Times, 2)));
                    Node [3] (Some (n, (1, Plus, 2)));
                    Node [2] (Some (n, (2, Slash, 1)));
                    Node [1] (Some (n, (2, Minus, 1)))])
    by (vm_compute; reflexivity).
  eexists. split; [exact E|].
  destruct (X2_expand_children_extend_the_path _ _ _ capabilities n _ E)
    as (Hlen & Hmoves & _).
  split; [exact Hlen | exact Hmoves].
Defined.

Section SearchResult.

Context {D M K : Type} (caps : Capabilities D M K) (srch : AStarSearch D M).

Lemma visit_child_frontier (st st' : loop_state) (new : SearchNode D M) :
  visit_child caps srch st new = Ok st' ->
  forall en, In en (frontier st') -> In en (frontier st) \/ snd en = new.
Proof.
  unfold visit_child.
  destruct (match dict_get caps (id caps new) (visited st) with
            | Some old => _ | None => false end);
    [intros [= <-]; auto|].
  destruct (set_mem caps (id caps new) (fset st)); [intros [= <-]; auto|].
  destruct (no_max_depth srch).
  - destruct (sortkey caps srch new) as [key|e]; cbn [bind]; [|discriminate].
    intros [= <-] en Hin. cbn [frontier] in Hin. unfold heappush in Hin.
    apply in_app_or in Hin as [Hin|[<-|[]]]; auto.
  - destruct (get_path_depth new <? max_depth_value srch).
    + destruct (sortkey caps srch new) as [key|e]; cbn [bind]; [|discriminate].
      intros [= <-] en Hin. cbn [frontier] in Hin. unfold heappush in Hin.
      apply in_app_or in Hin as [Hin|[<-|[]]]; auto.
    + cbn [bind]. intros [= <-] en Hin. auto.
Qed.

Lemma visit_children_frontier (children : list (SearchNode D M)) :
  forall st st' : loop_state,
    foldM (visit_child caps srch) children st = Ok st' ->
    forall en, In en (frontier st') ->
               In en (frontier st) \/ In (snd en) children.
Proof.
  induction children as [|c cs IH]; intros st st'; cbn [foldM].
  - intros [= <-]. auto.
  - destruct (visit_child caps srch st c) as [st1|e] eqn:E1; cbn [bind];
      [|discriminate].
    intros H en Hin.
    destruct (IH st1 st' H en Hin) as [Hin1|Hin1]; [|right; now right].
    destruct (visit_child_frontier st st1 c E1 en Hin1) as [?|<-];
      [now left | right; now left].
Qed.

(** A successful loop ends on a node of the frontier's descent. *)
Lemma search_loop_success (fuel : nat) :
  forall (st : loop_state) (path : option (list M)),
    Forall (fun en => reachable caps (start srch) (snd en)) (frontier st) ->
    search_loop caps srch fuel st = Some (Ok (true, path)) ->
    exists n,
      reachable caps (start srch) n
      /\ Search.is_goal srch n = true
      /\ path = Some (get_path n).
Proof.
  assert (Hpop : forall (st : @loop_state D M K) key cur fr',
             Forall (fun en => reachable caps (start srch) (snd en)) (frontier st) ->
             heappop caps (frontier st) = Some ((key, cur), fr') ->
             reachable caps (start srch) cur
             /\ Forall (fun en => reachable caps (start srch) (snd en)) fr').
  { intros st key cur fr' Hinv Hp.
    destruct (heappop_split caps _ _ _ Hp) as (l1 & l2 & E & ->).
    rewrite E in Hinv. apply Forall_app in Hinv as [H1 H2].
    inversion H2; subst. split; [assumption | apply Forall_app; now split]. }
  induction fuel as [|fuel IH]; intros st path Hinv; cbn [search_loop];
    destruct (heappop caps (frontier st)) as [[[key cur] fr']|] eqn:Hp;
    try discriminate;
    destruct (Hpop st key cur fr' Hinv Hp) as [Hcur Hfr'];
    destruct (Search.is_goal srch cur) eqn:Hg;
    try (intros [= <-]; now exists cur); try discriminate.
  destruct (expand caps cur) as [children|e] eqn:He; cbn [bind];
    [|discriminate].
  destruct (foldM (visit_child caps srch) children _) as [st'|e] eqn:Hf;
    [|discriminate].
  apply IH.
  pose proof (expand_child_reachable caps _ _ _ Hcur He) as Hch.
  apply Forall_forall. intros en Hin.
  destruct (visit_children_frontier children _ st' Hf en Hin) as [H|H].
  - cbn [frontier] in H. rewrite Forall_forall in Hfr'. now apply Hfr'.
  - rewrite Forall_forall in Hch. now apply Hch.
Qed.

End SearchResult.

Lemma do_search_success {D M K : Type} (caps : Capabilities D M K)
  (srch : AStarSearch D M) (fuel : nat) (path : option (list M)) :
  do_search caps srch fuel = Some (Ok (true, path)) ->
  exists n,
    reachable caps (start srch) n
    /\ Search.is_goal srch n = true
    /\ path = Some (get_path n).
Proof.
  unfold do_search.
  destruct (sortkey caps srch (start srch)) as [key|e]; [|discriminate].
  apply search_loop_success. cbn [frontier].
  constructor; [apply reach_root | constructor].
Qed.

Lemma do_search_root_goal {D M K : Type} (caps : Capabilities D M K)
  (srch : AStarSearch D M) (fuel : nat) (h : Z) :
  Search.heuristic srch (start srch) = Ok h ->
  Search.is_goal srch (start srch) = true ->
  get_path (start srch) = [] ->
  do_search caps srch fuel = Some (Ok (true, Some [])).
Proof.
  intros Hh Hg Hp. unfold do_search, sortkey. rewrite Hh. cbn [bind].
  destruct fuel; cbn [search_loop frontier heappop]; rewrite Hg, Hp; reflexivity.
Qed.

(** X3.  A search that reports success returns the path of a node that
    satisfies the goal test and that was built from the start node by
    applying generated moves; when the start node itself satisfies the goal
    test the search succeeds at once with the empty path. *)
Theorem X3_search_success_is_a_reachable_goal :
  forall (D M K : Type) (caps : Capabilities D M K) (srch : AStarSearch D M)
         (fuel : nat),
    (forall path : option (list M),
        do_search caps srch fuel = Some (Ok (true, path)) ->
        exists n,
          reachable caps (start srch) n
          /\ Search.is_goal srch n = true
          /\ path = Some (get_path n))
    /\ (forall h : Z,
          Search.heuristic srch (start srch) = Ok h ->
          Search.is_goal srch (start srch) = true ->
          get_path (start srch) = [] ->
          do_search caps srch fuel = Some (Ok (true, Some []))).
Proof.
  intros D M K caps srch fuel. split.
  - intros path. apply do_search_success.
  - intros h. apply do_search_root_goal.
Qed.

Lemma X3_search_success_is_a_reachable_goal_witness :
  do_search capabilities (search [3; 4; 5] 35 0) 100
    = Some (Ok (true, Some [(3, Plus, 4); (5, Times, 7)]))
  /\ (exists n : CNode,
        reachable capabilities (start_node [3; 4; 5]) n
        /\ is_goal 35 0 n = true
        /\ Some [(3, Plus, 4); (5, Times, 7)] = Some (get_path n))
  /\ do_search capabilities (search [50] 50 0) 0 = Some (Ok (true, Some [])).
Proof.
  assert (E : do_search capabilities (search [3; 4; 5] 35 0) 100
              = Some (Ok (true, Some [(3, Plus, 4); (5, Times, 7)])))
    by (vm_compute; reflexivity).
  split; [exact E|]. split.
  - exact (proj1 (X3_search_success_is_a_reachable_goal _ _ _ capabilities
                    (search [3; 4; 5] 35 0) 100%nat) _ E).
  - apply (proj2 (X3_search_success_is_a_reachable_goal _ _ _ capabilities
                    (search [50] 50 0) 0%nat) 0); reflexivity.
Defined.

(* ================================================================= *)
(** ** The Countdown adapter: what a solution is                      *)
(* ================================================================= *)

Lemma legal_run_app (l l1 l2 : list Z) (p1 p2 : list Move) :
  legal_run l p1 l1 -> legal_run l1 p2 l2 -> legal_run l (p1 ++ p2) l2.
Proof.
  induction 1 as [|l la lb m path Hin Ha _ IH]; intros H2; simpl; [exact H2|].
  eapply run_cons; eauto.
Qed.

Lemma legal_run_replay (l l' : list Z) (path : list Move) :
  legal_run l path l' -> replay_numbers l path = Ok l'.
Proof.
  unfold replay_numbers.
  induction 1 as [|l la lb m path Hin Ha _ IH]; cbn [foldM]; [reflexivity|].
  unfold Data in *. rewrite Ha. exact IH.
Qed.

Lemma legal_run_length (l l' : list Z) (path : list Move) :
  legal_run l path l' ->
  l' <> [] /\ (List.length l' + List.length path = List.length l)%nat
  \/ (path = [] /\ l' = l).
Proof.
  induction 1 as [|l la lb m path Hin Ha _ IH]; [right; auto|].
  left. destruct (apply_move_shrinks (Node l None) m la Hin Ha) as [Hne Hlen].
  cbn [data] in Hlen. cbn [List.length].
  destruct IH as [[Hne' IH] | [-> ->]]; split; trivial; simpl; lia.
Qed.

Lemma reachable_legal_run (l0 : list Z) (n : CNode) :
  reachable capabilities (Node l0 None) n ->
  legal_run l0 (get_path n) (data n).
Proof.
  induction 1 as [|p m d _ IH Hin Ha].
  - apply run_nil.
  - unfold get_path. cbn [moves_rev List.rev data].
    apply (legal_run_app _ _ _ _ _ IH).
    destruct p as [dp rp]. cbn [data].
    eapply run_cons; [exact Hin | exact Ha | apply run_nil].
Qed.

Lemma is_goal_within (cilj tolerance : Z) (n : CNode) :
  is_goal cilj tolerance n = true <-> within_tolerance cilj tolerance (data n).
Proof.
  unfold is_goal, within_tolerance. rewrite existsb_exists.
  split; intros (x & Hin & H); exists x; split; trivial;
    [now apply Z.leb_le | now apply Z.leb_le].
Qed.

(** X4.  When the search on the adapter succeeds, the returned path is a
    sequence of generated moves that can be applied one after the other to
    the initial numbers, and the numbers it ends with hold one that lies
    within the tolerance of the target. *)
Theorem X4_found_path_reaches_the_target :
  forall (brojevi : list Z) (cilj tolerance : Z) (fuel : nat)
         (path : option (list Move)),
    do_search capabilities (search brojevi cilj tolerance) fuel
      = Some (Ok (true, path)) ->
    exists (moves : list Move) (final : list Z),
      path = Some moves
      /\ legal_run brojevi moves final
      /\ replay_numbers brojevi moves = Ok final
      /\ within_tolerance cilj tolerance final.
Proof.
  intros brojevi cilj tolerance fuel path H.
  destruct (do_search_success capabilities (search brojevi cilj tolerance)
              fuel path H) as (n & Hreach & Hgoal & ->).
  pose proof (reachable_legal_run brojevi n Hreach) as Hrun.
  exists (get_path n), (data n). split; [reflexivity|]. split; [exact Hrun|].
  split; [now apply legal_run_replay | now apply is_goal_within].
Qed.

Lemma X4_found_path_reaches_the_target_witness :
  exists (moves : list Move) (final : list Z),
    Some [(3, Plus, 4); (5, Times, 7)] = Some moves
    /\ legal_run [3; 4; 5] moves final
    /\ replay_numbers [3; 4; 5] moves = Ok final
    /\ within_tolerance 35 0 final.
Proof.
  apply (X4_found_path_reaches_the_target [3; 4; 5] 35 0 100%nat).
  vm_compute. reflexivity.
Defined.

Lemma extract_expression_sim (expressions : list Expression) (l l1 : list Z)
  (a : Z) :
  values_are expressions l ->
  list_remove a l = Ok l1 ->
  exists e1 rest,
    extract_expression expressions a = Ok (e1, rest)
    /\ value e1 = Ok a
    /\ values_are rest l1
    /\ Permutation expressions (e1 :: rest).
Proof.
  intros F. revert l1. induction F as [|e v es vs Hv F' IH]; intros l1; simpl.
  - discriminate.
  - rewrite Hv. cbn [bind]. destruct (Z.eqb_spec v a) as [->|Hne].
    + intros [= <-]. exists e, es. repeat split; trivial.
    + destruct (list_remove a vs) as [vs'|err] eqn:E; cbn [bind]; [|discriminate].
      intros [= <-]. destruct (IH vs' eq_refl) as (e1 & rest & -> & H1 & H2 & H3).
      cbn [bind]. exists e1, (e :: rest). repeat split; trivial.
      * constructor; assumption.
      * rewrite H3. apply perm_swap.
Qed.

Lemma value_binary_get_result (e1 e2 : Expression) (a b : Z) (op : operator) :
  value e1 = Ok a -> value e2 = Ok b ->
  value (Binary e1 e2 op) = get_result a b op.
Proof. intros H1 H2. cbn [value]. rewrite H1, H2. destruct op; reflexivity. Qed.

Lemma compose_generated (e1 e2 : Expression) (a b : Z) (op : operator) :
  value e1 = Ok a -> value e2 = Ok b ->
  (op = Slash -> b <> 0 /\ a mod b = 0) ->
  compose e1 e2 op = Ok (Binary e1 e2 op).
Proof.
  intros H1 H2 Hdiv. destruct op; try reflexivity.
  destruct (Hdiv eq_refl) as [Hb Hm].
  unfold compose, py_mod. rewrite H1, H2. cbn [bind].
  apply Z.eqb_neq in Hb. rewrite Hb. cbn [bind]. rewrite Hm. reflexivity.
Qed.

(** One move of the replay does to the expressions what [apply_move] does
    to the numbers. *)
Lemma replay_move_sim (expressions : list Expression) (l l' : list Z)
  (m : Move) :
  values_are expressions l ->
  In m (possible_moves (Node l None)) ->
  apply_move (Node l None) m = Ok l' ->
  exists expressions',
    replay_move expressions m = Ok expressions'
    /\ values_are expressions' l'
    /\ Permutation (flat_map literals expressions')
                   (flat_map literals expressions).
Proof.
  destruct m as [[a op] b]. intros F Hin Ha.
  destruct (possible_moves_shape (Node l None) a b op Hin) as [_ Hdiv].
  unfold apply_move in Ha. cbn [data] in Ha.
  destruct (list_remove a l) as [l1|err] eqn:E1; cbn [bind] in Ha; [|discriminate].
  destruct (list_remove b l1) as [l2|err] eqn:E2; cbn [bind] in Ha; [|discriminate].
  destruct (get_result a b op) as [r|err] eqn:Er; cbn [bind] in Ha; [|discriminate].
  injection Ha as <-.
  destruct (extract_expression_sim _ _ _ _ F E1) as (e1 & es1 & X1 & V1 & F1 & P1).
  destruct (extract_expression_sim _ _ _ _ F1 E2) as (e2 & es2 & X2 & V2 & F2 & P2).
  exists (es2 ++ [Binary e1 e2 op]).
  unfold replay_move. rewrite X1. cbn [bind]. rewrite X2. cbn [bind].
  rewrite (compose_generated e1 e2 a b op V1 V2 Hdiv). cbn [bind].
  split; [reflexivity|]. split.
  - apply Forall2_app; [exact F2|]. constructor; [|constructor].
    rewrite (value_binary_get_result e1 e2 a b op V1 V2). exact Er.
  - rewrite flat_map_app. cbn [flat_map literals]. rewrite app_nil_r.
    rewrite (Permutation_flat_map literals P1). cbn [flat_map].
    rewrite (Permutation_flat_map literals P2). cbn [flat_map].
    rewrite Permutation_app_comm, <- app_assoc. reflexivity.
Qed.

Lemma replay_moves_sim (path : list Move) :
  forall (expressions : list Expression) (l l' : list Z),
    values_are expressions l ->
    legal_run l path l' ->
    exists expressions',
      foldM replay_move path expressions = Ok expressions'
      /\ values_are expressions' l'
      /\ Permutation (flat_map literals expressions')
                     (flat_map literals expressions).
Proof.
  induction path as [|m path IH]; intros expressions l l' F Hrun;
    inversion Hrun as [|? l1 ? ? ? Hin Ha Hrest]; subst; cbn [foldM].
  - exists expressions. repeat split; trivial.
  - destruct (replay_move_sim expressions l l1 m F Hin Ha) as (es1 & -> & F1 & P1).
    cbn [bind]. destruct (IH es1 l1 l' F1 Hrest) as (es' & -> & F' & P').
    exists es'. repeat split; trivial. now rewrite P'.
Qed.

Lemma select_closest (rest : list (Z * Z * Expression)) :
  forall t : Z * Z * Expression,
    let r := fold_left (fun best x => if closer x best then x else best) rest t in
    In r (t :: rest)
    /\ forall y, In y (t :: rest) -> fst (fst r) <= fst (fst y).
Proof.
  induction rest as [|x rest IH]; intros t; cbn [fold_left].
  - split; [now left|]. intros y [<-|[]]. lia.
  - specialize (IH (if closer x t then x else t)).
    cbv zeta in IH. destruct IH as [Hin Hmin].
    split.
    + destruct Hin as [<-|Hin]; [|right; now right].
      destruct (closer x t); [right; now left | now left].
    + intros y Hy.
      assert (Hsel : fst (fst (if closer x t then x else t)) <= fst (fst t)
                     /\ fst (fst (if closer x t then x else t)) <= fst (fst x)).
      { destruct x as [[d1 v1] e1], t as [[d2 v2] e2]. unfold closer. cbn [fst].
        destruct (Z.eqb_spec d1 d2); [destruct (v1 <? v2); cbn [fst]; lia|].
        destruct (Z.ltb_spec d1 d2); cbn [fst]; lia. }
      pose proof (Hmin _ (or_introl eq_refl)) as H0.
      destruct Hy as [<-|[<-|Hy]]; [lia | lia |].
      apply Hmin. now right.
Qed.

(** The expression [closest] picks is as near to the target as any. *)
Lemma closest_spec (cilj : Z) (expressions : list Expression) (l : list Z) :
  values_are expressions l ->
  l <> [] ->
  exists e v,
    closest cilj expressions = Ok (Z.abs (v - cilj), e)
    /\ In e expressions
    /\ value e = Ok v
    /\ forall x, In x l -> Z.abs (v - cilj) <= Z.abs (x - cilj).
Proof.
  intros F Hne.
  set (tuple := fun (e : Expression) (v : Z) => (Z.abs (v - cilj), v, e)).
  assert (Hm : exists tuples,
             mapM (fun e => v <- value e ;; Ok (Z.abs (v - cilj), v, e)) expressions
             = Ok tuples
             /\ Forall2 (fun e t => exists v, value e = Ok v /\ t = tuple e v)
                        expressions tuples
             /\ Forall2 (fun t x => fst (fst t) = Z.abs (x - cilj)) tuples l).
  { clear Hne. induction F as [|e v es vs Hv _ (ts & E & G1 & G2)]; cbn [mapM].
    - exists []. repeat split; constructor.
    - rewrite Hv. cbn [bind]. rewrite E. cbn [bind].
      exists (tuple e v :: ts). repeat split; constructor; eauto. }
  destruct Hm as (tuples & E & G1 & G2).
  unfold closest. rewrite E. cbn [bind].
  destruct tuples as [|t rest].
  { inversion G2; subst. congruence. }
  pose proof (select_closest rest t) as Hsel. cbv zeta in Hsel.
  destruct (fold_left _ rest t) as [[d v] e] eqn:Ef.
  destruct Hsel as [Hin Hmin]. cbn [fst] in Hmin.
  assert (He : In e expressions /\ value e = Ok v /\ d = Z.abs (v - cilj)).
  { clear -G1 Hin. induction G1 as [|e' t' es ts (v' & Hv' & ->) _ IH].
    - contradiction.
    - destruct Hin as [Heq|Hin].
      + unfold tuple in Heq. injection Heq as <- <- <-. split; [now left | auto].
      + destruct (IH Hin) as (H1 & H2 & H3). split; [now right | auto]. }
  destruct He as (He1 & He2 & ->).
  exists e, v. repeat split; trivial.
  intros x Hx.
  assert (Ht : exists y, In y (t :: rest) /\ fst (fst y) = Z.abs (x - cilj)).
  { clear -G2 Hx. induction G2 as [|t' x' ts xs Ht _ IH]; [contradiction|].
    destruct Hx as [<-|Hx]; [exists t'; split; [now left | exact Ht]|].
    destruct (IH Hx) as (y & Hy & Hy'). exists y. split; [now right | exact Hy']. }
  destruct Ht as (y & Hy & <-). now apply Hmin.
Qed.

Lemma legal_run_nil (l l' : list Z) : legal_run l [] l' -> l' = l.
Proof. intros H. inversion H. reflexivity. Qed.

Lemma values_are_literals (l : list Z) : values_are (map literal l) l.
Proof. induction l; constructor; auto. Qed.

Lemma flat_map_literals_of_literals (l : list Z) :
  flat_map literals (map literal l) = l.
Proof. induction l as [|x l IH]; simpl; [reflexivity | now rewrite IH]. Qed.

Lemma literals_of_member (e : Expression) (expressions : list Expression) :
  In e expressions ->
  exists unused,
    Permutation (flat_map literals expressions) (literals e ++ unused).
Proof.
  intros H. apply in_split in H as (a & b & ->).
  exists (flat_map literals a ++ flat_map literals b).
  rewrite flat_map_app. cbn [flat_map].
  rewrite app_assoc, (Permutation_app_comm (flat_map literals a)), <- app_assoc.
  reflexivity.
Qed.

(** X5.  Whatever [find_solution] returns is a solution: the moves can be
    applied in order to the given numbers, each being a move generated for
    the state it meets; the expression evaluates without error to a value
    within the tolerance of the target, as near to it as any number of the
    final state; and the expression uses each of the given numbers at most
    once. *)
Theorem X5_solution_is_within_tolerance :
  forall (brojevi : list Z) (cilj tolerance : Z) (fuel : nat)
         (path : list Move) (e : Expression),
    find_solution brojevi cilj tolerance fuel = Some (Ok (path, e)) ->
    exists (v : Z) (final unused : list Z),
      value e = Ok v
      /\ Z.abs (v - cilj) <= tolerance
      /\ legal_run brojevi path final
      /\ (forall x, In x final -> Z.abs (v - cilj) <= Z.abs (x - cilj))
      /\ Permutation brojevi (literals e ++ unused).
Proof.
  intros brojevi cilj tolerance fuel path e. unfold find_solution.
  destruct (do_search capabilities (search brojevi cilj tolerance) fuel)
    as [[[[|] p]|err]|] eqn:Hs; cbn [negb]; try discriminate.
  destruct (do_search_success capabilities _ fuel p Hs)
    as (n & Hreach & Hgoal & ->).
  pose proof (reachable_legal_run brojevi n Hreach) as Hrun.
  apply is_goal_within in Hgoal. destruct Hgoal as (x0 & Hx0 & Htol).
  assert (Hfinal : data n <> []) by (intros E; rewrite E in Hx0; contradiction).
  destruct (get_path n) as [|m ms] eqn:Hpath.
  - pose proof (legal_run_nil _ _ Hrun) as El.
    destruct (closest_spec cilj (map literal brojevi) brojevi
                (values_are_literals brojevi)) as (e' & v & Ec & Hin & Hv & Hmin).
    { congruence. }
    rewrite Ec. cbn [bind]. intros [= <- <-].
    destruct (literals_of_member e' _ Hin) as (unused & Hp).
    rewrite flat_map_literals_of_literals in Hp.
    exists v, brojevi, unused. repeat split; trivial.
    + rewrite El in Hx0. specialize (Hmin x0 Hx0). lia.
    + apply run_nil.
  - destruct (replay_moves_sim (m :: ms) (map literal brojevi) brojevi
                (data n) (values_are_literals brojevi) Hrun)
      as (es & Ef & Fv & Hp).
    destruct (closest_spec cilj es (data n) Fv Hfinal)
      as (e' & v & Ec & Hin & Hv & Hmin).
    unfold moves_to_expression. rewrite Ef. cbn [bind]. rewrite Ec. cbn [bind].
    intros [= <- <-].
    destruct (literals_of_member e' _ Hin) as (unused & Hp').
    rewrite Hp, flat_map_literals_of_literals in Hp'.
    exists v, (data n), unused. repeat split; trivial.
    specialize (Hmin x0 Hx0). lia.
Qed.

Lemma X5_solution_is_within_tolerance_witness :
  find_solution [3; 4; 5] 35 0 100
    = Some (Ok ([(3, Plus, 4); (5, Times, 7)],
                Binary (Literal 5) (Binary (Literal 3) (Literal 4) Plus) Times))
  /\ exists (v : Z) (final unused : list Z),
       value (Binary (Literal 5) (Binary (Literal 3) (Literal 4) Plus) Times)
         = Ok v
       /\ Z.abs (v - 35) <= 0
       /\ legal_run [3; 4; 5] [(3, Plus, 4); (5, Times, 7)] final
       /\ (forall x, In x final -> Z.abs (v - 35) <= Z.abs (x - 35))
       /\ Permutation [3; 4; 5]
            (literals (Binary (Literal 5)
                         (Binary (Literal 3) (Literal 4) Plus) Times)
             ++ unused).
Proof.
  assert (E : find_solution [3; 4; 5] 35 0 100
              = Some (Ok ([(3, Plus, 4); (5, Times, 7)],
                          Binary (Literal 5)
                            (Binary (Literal 3) (Literal 4) Plus) Times)))
    by (vm_compute; reflexivity).
  split; [exact E|].
  exact (X5_solution_is_within_tolerance [3; 4; 5] 35 0 100%nat _ _ E).
Defined.

(* ================================================================= *)
(** ** The Countdown adapter: what a failure means                    *)
(* ================================================================= *)

Lemma set_mem_in (k : list Z) (fs : list (list Z)) :
  set_mem capabilities k fs = true <-> In k fs.
Proof.
  unfold set_mem. rewrite existsb_exists. cbn [key_eqb capabilities]. split.
  - intros (x & Hin & H). apply tuple_eqb_eq in H. now subst.
  - intros H. exists k. split; [exact H | now apply tuple_eqb_eq].
Qed.

Lemma set_add_in (k x : list Z) (fs : list (list Z)) :
  In x (set_add capabilities k fs) <-> x = k \/ In x fs.
Proof.
  unfold set_add. destruct (set_mem capabilities k fs) eqn:E.
  - apply set_mem_in in E. split; [auto | intros [->|H]; auto].
  - simpl. split; intros [H|H]; auto.
Qed.

Lemma dict_set_get (k k' : list Z) (v : CNode) (d : list (list Z * CNode)) :
  dict_get capabilities k (dict_set capabilities k' v d) <> None ->
  k = k' \/ dict_get capabilities k d <> None.
Proof.
  induction d as [|[k0 v0] d IH]; cbn [dict_set dict_get key_eqb capabilities].
  - destruct (tuple_eqb k k') eqn:E; intros H.
    + left. now apply tuple_eqb_eq.
    + congruence.
  - destruct (tuple_eqb k' k0) eqn:E0; cbn [dict_get key_eqb capabilities].
    + destruct (tuple_eqb k k0); intros H; [right; discriminate | auto].
    + destruct (tuple_eqb k k0); intros H; [right; discriminate | auto].
Qed.

Section Failure.

Variables (brojevi : list Z) (cilj tolerance : Z).

Let srch := search brojevi cilj tolerance.

Lemma expanded_in_mono (F F' : list (list Z)) (k : list Z) :
  incl F F' -> expanded_in cilj tolerance F k -> expanded_in cilj tolerance F' k.
Proof.
  intros Hi (n & cs & H1 & H2 & H3 & H4).
  exists n, cs. repeat split; trivial. intros c Hc. apply Hi, H4, Hc.
Qed.

(** What looking at one child does to the three collections. *)
Lemma visit_child_closure (st st' : @loop_state Data Move (list Z)) (c : CNode) :
  visited_in_fset st ->
  visit_child capabilities srch st c = Ok st' ->
  incl (fset st) (fset st')
  /\ In (_id c) (fset st')
  /\ incl (frontier st) (frontier st')
  /\ visited_in_fset st'
  /\ (forall k, In k (fset st') ->
        In k (fset st) \/ exists en, In en (frontier st') /\ _id (snd en) = k).
Proof.
  intros HB. unfold visit_child. cbn [id capabilities].
  destruct (dict_get capabilities (_id c) (visited st)) as [old|] eqn:Ed.
  - assert (Hin : In (_id c) (fset st)) by (apply HB; congruence).
    destruct (get_path_length capabilities c >=? get_path_length capabilities old).
    + intros [= <-]. repeat split; auto using incl_refl.
    + apply set_mem_in in Hin. rewrite Hin.
      intros [= <-]. apply set_mem_in in Hin. repeat split; auto using incl_refl.
  - destruct (set_mem capabilities (_id c) (fset st)) eqn:Em.
    + intros [= <-]. apply set_mem_in in Em. repeat split; auto using incl_refl.
    + change (no_max_depth srch) with true. cbv iota.
      destruct (sortkey capabilities srch c) as [key|e]; cbn [bind]; [|discriminate].
      intros [= <-]. cbn [fset frontier visited]. repeat split.
      * intros x Hx. apply set_add_in. now right.
      * apply set_add_in. now left.
      * intros x Hx. unfold heappush. apply in_or_app. now left.
      * intros k Hk. cbn [visited fset] in *. apply set_add_in.
        apply dict_set_get in Hk as [->|Hk]; [now left | right; now apply HB].
      * intros k Hk. apply set_add_in in Hk as [->|Hk]; [right | now left].
        exists (key, c). split; [|reflexivity].
        unfold heappush. apply in_or_app. right. now left.
Qed.

Lemma visit_children_closure (children : list CNode) :
  forall st st' : @loop_state Data Move (list Z),
    visited_in_fset st ->
    foldM (visit_child capabilities srch) children st = Ok st' ->
    incl (fset st) (fset st')
    /\ (forall c, In c children -> In (_id c) (fset st'))
    /\ incl (frontier st) (frontier st')
    /\ visited_in_fset st'
    /\ (forall k, In k (fset st') ->
          In k (fset st) \/ exists en, In en (frontier st') /\ _id (snd en) = k).
Proof.
  induction children as [|c cs IH]; intros st st' HB; cbn [foldM].
  - intros [= <-]. repeat split; auto using incl_refl; try (intros c []).
  - destruct (visit_child capabilities srch st c) as [st1|e] eqn:E1; cbn [bind];
      [|discriminate].
    intros H.
    destruct (visit_child_closure st st1 c HB E1) as (A1 & A2 & A3 & A4 & A5).
    destruct (IH st1 st' A4 H) as (B1 & B2 & B3 & B4 & B5).
    repeat split; trivial.
    + eapply incl_tran; eassumption.
    + intros c' [<-|Hc']; [apply B1, A2 | now apply B2].
    + eapply incl_tran; eassumption.
    + intros k Hk. destruct (B5 k Hk) as [Hk1|Hk1]; [|now right].
      destruct (A5 k Hk1) as [Hk0|(en & Hen & He)]; [now left|].
      right. exists en. split; [apply B3, Hen | exact He].
Qed.

(** A loop that ends in failure leaves a set of keys that holds the keys
    it started with and is closed under expansion. *)
Lemma search_loop_failure_closure (fuel : nat) :
  forall (st : @loop_state Data Move (list Z)) (p : option (list Move)),
    fset_accounted cilj tolerance st ->
    visited_in_fset st ->
    search_loop capabilities srch fuel st = Some (Ok (false, p)) ->
    exists F,
      incl (fset st) F /\ forall k, In k F -> expanded_in cilj tolerance F k.
Proof.
  induction fuel as [|fuel IH]; intros st p HA HB; cbn [search_loop];
    destruct (heappop capabilities (frontier st)) as [[[key cur] fr']|] eqn:Hp.
  - destruct (Search.is_goal srch cur); discriminate.
  - intros _. apply heappop_none in Hp. exists (fset st).
    split; [apply incl_refl|]. intros k Hk.
    destruct (HA k Hk) as [(en & Hen & _)|H]; [|exact H].
    rewrite Hp in Hen. contradiction.
  - destruct (Search.is_goal srch cur) eqn:Hg; [discriminate|].
    destruct (expand capabilities cur) as [children|e] eqn:He; cbn [bind];
      [|discriminate].
    destruct (foldM (visit_child capabilities srch) children _) as [st'|e] eqn:Hf;
      [|discriminate].
    intros H.
    destruct (heappop_split capabilities _ _ _ Hp) as (l1 & l2 & Efr & ->).
    set (st0 := {| frontier := l1 ++ l2; fset := fset st;
                   visited := visited st |}) in Hf.
    assert (HB0 : visited_in_fset st0) by exact HB.
    destruct (visit_children_closure children st0 st' HB0 Hf)
      as (C1 & C2 & C3 & C4 & C5).
    subst st0.
    cbn [fset frontier visited] in C1, C3, C5.
    destruct (IH st' p) as (F & HF1 & HF2); trivial.
    + intros k Hk. destruct (C5 k Hk) as [Hk0|Hk0]; [|now left].
      destruct (HA k Hk0) as [(en & Hen & Hid)|Hex].
      * rewrite Efr in Hen. apply in_app_or in Hen as [Hen|[<-|Hen]].
        -- left. exists en. split; [apply C3, in_or_app; now left | exact Hid].
        -- right. exists cur, children. repeat split; trivial.
        -- left. exists en. split; [apply C3, in_or_app; now right | exact Hid].
      * right. now apply (expanded_in_mono (fset st)).
    + exists F. split; [eapply incl_tran; eassumption | exact HF2].
  - intros _. apply heappop_none in Hp. exists (fset st).
    split; [apply incl_refl|]. intros k Hk.
    destruct (HA k Hk) as [(en & Hen & _)|H]; [|exact H].
    rewrite Hp in Hen. contradiction.
Qed.

End Failure.

Lemma list_remove_two_perm (a b : Z) (l rest : list Z) :
  Permutation l (a :: b :: rest) ->
  exists l2,
    (l1 <- list_remove a l ;; list_remove b l1) = Ok l2
    /\ Permutation l (a :: b :: l2).
Proof.
  intros Hp.
  assert (Ha : In a l)
    by (apply (Permutation_in _ (Permutation_sym Hp)); now left).
  destruct (list_remove_in a l Ha) as (l1 & E1 & Hp1).
  assert (Hp1' : Permutation l1 (b :: rest)).
  { apply (Permutation_cons_inv (a := a)). rewrite <- Hp1. exact Hp. }
  assert (Hb : In b l1)
    by (apply (Permutation_in _ (Permutation_sym Hp1')); now left).
  destruct (list_remove_in b l1 Hb) as (l2 & E2 & Hp2).
  exists l2. rewrite E1. cbn [bind]. split; [exact E2|].
  rewrite Hp1. now apply perm_skip.
Qed.

(** The state a generated move leads to: the two operands removed, the
    result appended. *)
Lemma apply_move_result (l l1 : list Z) (a b : Z) (op : operator) :
  In (a, op, b) (possible_moves (Node l None)) ->
  apply_move (Node l None) (a, op, b) = Ok l1 ->
  exists l2 r,
    get_result a b op = Ok r
    /\ l1 = l2 ++ [r]
    /\ Permutation l (a :: b :: l2).
Proof.
  intros Hin Ha.
  destruct (possible_moves_shape (Node l None) a b op Hin) as [(rest & Hp) _].
  cbn [data] in Hp.
  destruct (list_remove_two_perm a b l rest Hp) as (l2 & E & Hp2).
  unfold apply_move in Ha. cbn [data] in Ha.
  destruct (list_remove a l) as [la|e]; cbn [bind] in E, Ha; [|discriminate].
  rewrite E in Ha. cbn [bind] in Ha.
  destruct (get_result a b op) as [r|e]; cbn [bind] in Ha; [|discriminate].
  injection Ha as <-. exists l2, r. auto.
Qed.

Lemma combinations2_around {A : Type} (l1 l2 : list A) (x y : A) :
  (In y l2 -> In (x, y) (combinations2 (l1 ++ x :: l2)))
  /\ (In y l1 -> In (y, x) (combinations2 (l1 ++ x :: l2))).
Proof.
  induction l1 as [|a l1 [IH1 IH2]]; cbn [app combinations2].
  - split; [|contradiction]. intros H. apply in_or_app. left. now apply in_map.
  - split.
    + intros H. apply in_or_app. right. now apply IH1.
    + intros [->|H]; apply in_or_app.
      * left. apply in_map. apply in_or_app. right. now left.
      * right. now apply IH2.
Qed.

Lemma combinations2_of_perm (a b : Z) (l rest : list Z) :
  Permutation l (a :: b :: rest) ->
  In (a, b) (combinations2 l) \/ In (b, a) (combinations2 l).
Proof.
  intros Hp.
  assert (Ha : In a l)
    by (apply (Permutation_in _ (Permutation_sym Hp)); now left).
  apply in_split in Ha as (l1 & l2 & ->).
  assert (Hb : In b (l1 ++ l2)).
  { apply (Permutation_in (l := b :: rest)); [|now left].
    apply (Permutation_cons_inv (a := a)).
    rewrite <- Hp. symmetry. apply Permutation_middle. }
  destruct (combinations2_around l1 l2 a b) as [H1 H2].
  apply in_app_or in Hb as [Hb|Hb]; [right; now apply H2 | left; now apply H1].
Qed.

Lemma possible_moves_minus (n : CNode) (a b : Z) :
  In (a, Minus, b) (possible_moves n) -> b <= a.
Proof.
  unfold possible_moves. intros H.
  apply in_flat_map in H as ([n1 n2] & _ & Hin).
  unfold pair_moves in Hin.
  destruct (negb (n2 =? 0) && (n1 mod n2 =? 0));
    destruct (negb (n1 =? 0) && (n2 mod n1 =? 0));
    destruct (Z.geb_spec n1 n2);
    simpl in Hin;
    repeat (destruct Hin as [Hin|Hin]; [try discriminate Hin|]);
    try contradiction;
    injection Hin as <- <-; lia.
Qed.

Lemma pair_in_possible_moves (l : list Z) (p : Z * Z) (m : Move) :
  In p (combinations2 l) -> In m (pair_moves p) ->
  In m (possible_moves (Node l None)).
Proof.
  intros Hp Hm. unfold possible_moves. apply in_flat_map. exists p. auto.
Qed.

(** A move generated for a state has a counterpart, with the same result,
    for every reordering of that state. *)
Lemma move_transfer (l l' : list Z) (a b : Z) (op : operator) :
  Permutation l l' ->
  In (a, op, b) (possible_moves (Node l None)) ->
  exists a' b',
    In (a', op, b') (possible_moves (Node l' None))
    /\ get_result a' b' op = get_result a b op
    /\ ((a' = a /\ b' = b) \/ (a' = b /\ b' = a)).
Proof.
  intros Hperm Hin.
  destruct (possible_moves_shape (Node l None) a b op Hin) as [(rest & Hp) Hdiv].
  cbn [data] in Hp.
  assert (Hp' : Permutation l' (a :: b :: rest))
    by (rewrite <- Hperm; exact Hp).
  destruct op.
  - destruct (combinations2_of_perm a b l' rest Hp') as [Hc|Hc].
    + exists a, b. split; [|split; [reflexivity | now left]].
      apply (pair_in_possible_moves l' (a, b)); [exact Hc|].
      unfold pair_moves. right. now left.
    + exists b, a. split; [|split; [|now right]].
      * apply (pair_in_possible_moves l' (b, a)); [exact Hc|].
        unfold pair_moves. right. now left.
      * simpl. now rewrite Z.add_comm.
  - pose proof (possible_moves_minus (Node l None) a b Hin) as Hle.
    exists a, b. split; [|split; [reflexivity | now left]].
    destruct (combinations2_of_perm a b l' rest Hp') as [Hc|Hc].
    + apply (pair_in_possible_moves l' (a, b)); [exact Hc|].
      unfold pair_moves. apply in_or_app. right.
      apply in_or_app. right. apply in_or_app. right.
      destruct (Z.geb_spec a b); [now left | lia].
    + apply (pair_in_possible_moves l' (b, a)); [exact Hc|].
      unfold pair_moves. apply in_or_app. right.
      apply in_or_app. right. apply in_or_app. right.
      destruct (Z.geb_spec b a); [|now left].
      assert (a = b) by lia. subst. now left.
  - destruct (combinations2_of_perm a b l' rest Hp') as [Hc|Hc].
    + exists a, b. split; [|split; [reflexivity | now left]].
      apply (pair_in_possible_moves l' (a, b)); [exact Hc|].
      unfold pair_moves. now left.
    + exists b, a. split; [|split; [|now right]].
      * apply (pair_in_possible_moves l' (b, a)); [exact Hc|].
        unfold pair_moves. now left.
      * simpl. now rewrite Z.mul_comm.
  - destruct (Hdiv eq_refl) as [Hb Hm].
    exists a, b. split; [|split; [reflexivity | now left]].
    assert (E : (negb (b =? 0) && (a mod b =? 0)) = true).
    { apply andb_true_iff. split; [apply negb_true_iff; now apply Z.eqb_neq
                                  | now apply Z.eqb_eq]. }
    destruct (combinations2_of_perm a b l' rest Hp') as [Hc|Hc].
    + apply (pair_in_possible_moves l' (a, b)); [exact Hc|].
      unfold pair_moves. rewrite E. right. right. now left.
    + apply (pair_in_possible_moves l' (b, a)); [exact Hc|].
      unfold pair_moves. rewrite E.
      apply in_or_app. right. apply in_or_app. right.
      apply in_or_app. left. now left.
Qed.

Lemma Forall2_in_left {A B : Type} (R : A -> B -> Prop) (l : list A)
  (l' : list B) (x : A) :
  Forall2 R l l' -> In x l -> exists y, In y l' /\ R x y.
Proof.
  induction 1 as [|a b l l' Hab _ IH]; [contradiction|].
  intros [<-|Hin]; [exists b; split; [now left | exact Hab]|].
  destruct (IH Hin) as (y & Hy & Hr). exists y. split; [now right | exact Hr].
Qed.

Lemma sorted_eq_perm (l l' : list Z) : sorted l = sorted l' -> Permutation l l'.
Proof.
  intros H. rewrite <- (sorted_perm l), H. apply sorted_perm.
Qed.

(** A closed set of keys holds the key of every state that a generated
    move leads to from a state whose key it holds. *)
Lemma closure_step (cilj tolerance : Z) (F : list (list Z)) (l l1 : list Z)
  (m : Move) :
  (forall k, In k F -> expanded_in cilj tolerance F k) ->
  In (sorted l) F ->
  In m (possible_moves (Node l None)) ->
  apply_move (Node l None) m = Ok l1 ->
  In (sorted l1) F.
Proof.
  intros HF Hl Hin Ha. destruct m as [[a op] b].
  destruct (HF _ Hl) as (n & children & Hid & _ & Hexp & Hch).
  assert (Hperm : Permutation l (data n))
    by (apply sorted_eq_perm; symmetry; exact Hid).
  destruct (apply_move_result l l1 a b op Hin Ha) as (l2 & r & Hr & -> & Hp2).
  destruct (move_transfer l (data n) a b op Hperm Hin)
    as (a' & b' & Hin' & Hres & Hor).
  apply expand_ok_inv in Hexp.
  assert (Hin'' : In (a', op, b') (Search.possible_moves capabilities n))
    by (destruct n; exact Hin').
  destruct (Forall2_in_left _ _ _ _ Hexp Hin'') as (c & Hc & d & Hd & ->).
  specialize (Hch _ Hc). unfold _id in Hch. cbn [data] in Hch.
  assert (Hd' : apply_move (Node (data n) None) (a', op, b') = Ok d)
    by (destruct n; exact Hd).
  destruct (apply_move_result (data n) d a' b' op Hin' Hd')
    as (l2' & r' & Hr' & -> & Hp2').
  rewrite Hres, Hr in Hr'. injection Hr' as <-.
  assert (Hl2 : Permutation l2' l2).
  { apply (Permutation_cons_inv (a := b)), (Permutation_cons_inv (a := a)).
    rewrite <- Hp2, Hperm, Hp2'.
    destruct Hor as [[-> ->]|[-> ->]]; [reflexivity | apply perm_swap]. }
  rewrite <- (sorted_of_perm (l2' ++ [r]) (l2 ++ [r])); [exact Hch|].
  now apply Permutation_app_tail.
Qed.

Lemma do_search_failure_closed (brojevi : list Z) (cilj tolerance : Z)
  (fuel : nat) (p : option (list Move)) :
  do_search capabilities (search brojevi cilj tolerance) fuel
    = Some (Ok (false, p)) ->
  exists F : list (list Z),
    In (sorted brojevi) F
    /\ forall k, In k F -> expanded_in cilj tolerance F k.
Proof.
  intros H. unfold do_search in H.
  destruct (sortkey capabilities (search brojevi cilj tolerance)
              (start (search brojevi cilj tolerance))) as [key|e];
    [|discriminate].
  apply search_loop_failure_closure in H.
  - destruct H as (F & HF1 & HF2). cbn [fset] in HF1.
    exists F. split; [|exact HF2].
    apply HF1, set_add_in; now left.
  - intros k Hk. cbn [fset frontier] in *. apply set_add_in in Hk as [->|[]].
    left. exists (key, start (search brojevi cilj tolerance)).
    split; [now left | reflexivity].
  - intros k Hk. cbn [visited dict_get] in Hk. congruence.
Qed.

Lemma closed_contains_runs (cilj tolerance : Z) (F : list (list Z))
  (l : list Z) (path : list Move) (final : list Z) :
  (forall k, In k F -> expanded_in cilj tolerance F k) ->
  legal_run l path final ->
  In (sorted l) F -> In (sorted final) F.
Proof.
  intros HF Hrun.
  induction Hrun as [|l l1 l' m path Hin Ha _ IH]; intros Hstart;
    [exact Hstart|].
  apply IH. eapply closure_step; eauto.
Qed.

Lemma closed_has_no_goal (cilj tolerance : Z) (F : list (list Z))
  (final : list Z) :
  (forall k, In k F -> expanded_in cilj tolerance F k) ->
  In (sorted final) F ->
  ~ within_tolerance cilj tolerance final.
Proof.
  intros HF Hfinal (x & Hx & Htol).
  destruct (HF _ Hfinal) as (n & children & Hid & Hgoal & _).
  assert (Hg : is_goal cilj tolerance n = true).
  { apply is_goal_within. exists x. split; [|exact Htol].
    apply (Permutation_in (l := final)); [|exact Hx].
    apply sorted_eq_perm. symmetry. exact Hid. }
  congruence.
Qed.

(** X6.  When the search on the adapter reports failure, no sequence of
    generated moves, applied to the given numbers, leads to a state that
    holds a number within the tolerance of the target: the failure is
    exhaustive. *)
Theorem X6_failure_means_no_solution :
  forall (brojevi : list Z) (cilj tolerance : Z) (fuel : nat)
         (p : option (list Move)),
    do_search capabilities (search brojevi cilj tolerance) fuel
      = Some (Ok (false, p)) ->
    forall (path : list Move) (final : list Z),
      legal_run brojevi path final ->
      ~ within_tolerance cilj tolerance final.
Proof.
  intros brojevi cilj tolerance fuel p H path final Hrun.
  destruct (do_search_failure_closed _ _ _ _ _ H) as (F & Hstart & HF).
  apply (closed_has_no_goal cilj tolerance F final HF).
  exact (closed_contains_runs cilj tolerance F _ _ _ HF Hrun Hstart).
Qed.

Lemma X6_failure_means_no_solution_witness :
  do_search capabilities (search [1; 1] 500 0) 10 = Some (Ok (false, None))
  /\ legal_run [1; 1] [(1, Plus, 1)] [2]
  /\ ~ within_tolerance 500 0 [2].
Proof.
  assert (E : do_search capabilities (search [1; 1] 500 0) 10
              = Some (Ok (false, None))) by (vm_compute; reflexivity).
  assert (R : legal_run [1; 1] [(1, Plus, 1)] [2]).
  { eapply run_cons; [| |apply run_nil].
    - vm_compute. right. now left.
    - reflexivity. }
  split; [exact E|]. split; [exact R|].
  exact (X6_failure_means_no_solution [1; 1] 500 0 10%nat None E _ _ R).
Defined.

(* ================================================================= *)
(** ** The Countdown adapter: heuristic, fallback, sign of the numbers *)
(* ================================================================= *)

Lemma fold_min_spec (l : list Z) :
  forall x : Z,
    let m := fold_left Z.min l x in
    In m (x :: l) /\ forall y, In y (x :: l) -> m <= y.
Proof.
  induction l as [|a l IH]; intros x; cbn [fold_left].
  - split; [now left|]. intros y [<-|[]]. lia.
  - specialize (IH (Z.min x a)). cbv zeta in IH. destruct IH as [Hin Hmin].
    split.
    + destruct Hin as [Hin|Hin]; [|right; now right].
      rewrite <- Hin. destruct (Z.min_spec x a) as [[_ ->]|[_ ->]];
        [now left | right; now left].
    + intros y Hy. pose proof (Hmin _ (or_introl eq_refl)) as H0.
      destruct Hy as [<-|[<-|Hy]]; [lia | lia | apply Hmin; now right].
Qed.

(** X7.  The heuristic of a state is the least distance between one of its
    numbers and the target: it is never negative, it is attained by a
    number of the state, and it raises [ValueError] exactly on the empty
    state.  The goal test holds exactly when that distance is within the
    tolerance. *)
Theorem X7_heuristic_is_the_least_distance :
  forall (cilj tolerance : Z) (n : CNode),
    (heuristic cilj n = Raise ValueError <-> data n = [])
    /\ (forall h : Z,
          heuristic cilj n = Ok h ->
          0 <= h
          /\ (exists x, In x (data n) /\ h = Z.abs (x - cilj))
          /\ (forall y, In y (data n) -> h <= Z.abs (y - cilj))
          /\ (is_goal cilj tolerance n = true <-> h <= tolerance))
    /\ (data n <> [] -> exists h, heuristic cilj n = Ok h)
    /\ (is_goal cilj tolerance n = true -> data n <> []).
Proof.
  intros cilj tolerance n. unfold heuristic, py_min.
  destruct (data n) as [|x l] eqn:Ed; cbn [map].
  - repeat split; try discriminate; try congruence.
    intros H. apply is_goal_within in H. rewrite Ed in H.
    destruct H as (y & [] & _).
  - split; [split; discriminate|]. split; [|split; [eauto | discriminate]].
    intros h [= <-].
    destruct (fold_min_spec (map (fun n0 => Z.abs (n0 - cilj)) l)
                (Z.abs (x - cilj))) as [Hin Hmin].
    change (Z.abs (x - cilj) :: map (fun n0 => Z.abs (n0 - cilj)) l)
      with (map (fun n0 => Z.abs (n0 - cilj)) (x :: l)) in Hin, Hmin.
    apply in_map_iff in Hin as (x0 & Hx0 & Hin0).
    assert (Hall : forall y, In y (x :: l) ->
                     fold_left Z.min (map (fun n0 => Z.abs (n0 - cilj)) l)
                       (Z.abs (x - cilj)) <= Z.abs (y - cilj)).
    { intros y Hy. apply Hmin. apply in_map_iff. eauto. }
    repeat split.
    + rewrite <- Hx0. apply Z.abs_nonneg.
    + exists x0. split; [exact Hin0 | now symmetry].
    + exact Hall.
    + intros H. apply is_goal_within in H. rewrite Ed in H.
      destruct H as (y & Hy & Hty). specialize (Hall y Hy). lia.
    + intros H. apply is_goal_within. rewrite Ed.
      exists x0. split; [exact Hin0 | lia].
Qed.

Lemma X7_heuristic_is_the_least_distance_witness :
  heuristic 10 (Node [3; 12; 7] None) = Ok 2
  /\ 0 <= 2
  /\ (exists x, In x [3; 12; 7] /\ 2 = Z.abs (x - 10))
  /\ (forall y, In y [3; 12; 7] -> 2 <= Z.abs (y - 10))
  /\ (is_goal 10 1 (Node [3; 12; 7] None) = true <-> 2 <= 1).
Proof.
  split; [reflexivity|].
  exact (proj1 (proj2 (X7_heuristic_is_the_least_distance 10 1
                         (Node [3; 12; 7] None))) 2 eq_refl).
Defined.

(** X8.  When one of the given numbers is already within the tolerance of
    the target, [find_solution] returns the empty path and the literal of
    a given number that is as near to the target as any; so for a
    non-empty list there is a tolerance, the distance of any given number,
    at which [find_solution] succeeds, whatever the fuel. *)
Theorem X8_solution_already_among_the_numbers :
  forall (brojevi : list Z) (cilj tolerance : Z) (fuel : nat),
    within_tolerance cilj tolerance brojevi ->
    exists x,
      find_solution brojevi cilj tolerance fuel = Some (Ok ([], Literal x))
      /\ In x brojevi
      /\ Z.abs (x - cilj) <= tolerance
      /\ forall y, In y brojevi -> Z.abs (x - cilj) <= Z.abs (y - cilj).
Proof.
  intros brojevi cilj tolerance fuel Hw.
  assert (Hne : brojevi <> []).
  { destruct Hw as (x & Hx & _). intros E. rewrite E in Hx. contradiction. }
  destruct (heuristic_nonempty cilj (start_node brojevi) Hne) as [h Hh].
  assert (Hs : do_search capabilities (search brojevi cilj tolerance) fuel
               = Some (Ok (true, Some []))).
  { apply (do_search_root_goal capabilities (search brojevi cilj tolerance)
             fuel h); [exact Hh | | reflexivity].
    apply (proj2 (is_goal_within cilj tolerance (start_node brojevi))). exact Hw. }
  destruct (closest_spec cilj (map literal brojevi) brojevi
              (values_are_literals brojevi) Hne) as (e & v & Ec & Hin & Hv & Hmin).
  apply in_map_iff in Hin as (x & <- & Hx).
  injection Hv as <-.
  exists x. unfold find_solution. rewrite Hs. cbn [negb]. rewrite Ec. cbn [bind].
  repeat split; trivial.
  destruct Hw as (y & Hy & Hty). specialize (Hmin y Hy). lia.
Qed.

Lemma X8_solution_already_among_the_numbers_witness :
  exists x,
    find_solution [50; 7] 52 2 0 = Some (Ok ([], Literal x))
    /\ In x [50; 7]
    /\ Z.abs (x - 52) <= 2
    /\ forall y, In y [50; 7] -> Z.abs (x - 52) <= Z.abs (y - 52).
Proof.
  apply (X8_solution_already_among_the_numbers [50; 7] 52 2 0%nat).
  exists 50. split; [now left | vm_compute; discriminate].
Defined.

Lemma binary_round_aux_sign (sx : bool) (mx ex : Z) (lx : location)
  (s : bool) (m : positive) (e : Z) :
  binary_round_aux prec emax sx mx ex lx = S754_finite s m e -> s = sx.
Proof.
  unfold binary_round_aux.
  destruct (shr_fexp prec emax mx ex lx) as [mrs' e'].
  destruct (shr_fexp prec emax _ e' loc_Exact) as [mrs'' e''].
  destruct (shr_m mrs'') as [|p|p]; try discriminate.
  destruct (Z.leb e'' (Z.sub emax prec)); [|discriminate].
  now intros [= <- _ _].
Qed.

(** [int(a / b)] of a non-negative [a] and a positive [b] is not negative. *)
Lemma int_truediv_nonneg (a b r : Z) :
  0 <= a -> 0 < b -> int_truediv a b = Ok r -> 0 <= r.
Proof.
  intros Ha Hb. unfold int_truediv, truediv.
  destruct (Z.eqb_spec b 0) as [->|_]; [lia|].
  destruct b as [|pb|pb]; try lia.
  destruct a as [|pa|pa]; try lia; cbn [float_of_int SFdiv xorb].
  - cbn [bind int_of_float]. intros [= <-]. lia.
  - destruct (SFdiv_core_binary prec emax (Z.pos pa) 0 (Z.pos pb) 0)
      as [[mz ez] lz].
    destruct (binary_round_aux prec emax false mz ez lz) as [s|s| |s m e] eqn:E;
      cbn [bind int_of_float]; try discriminate.
    + intros [= <-]. lia.
    + apply binary_round_aux_sign in E. subst s.
      intros [= <-]. destruct e as [|k|k].
      * apply Z.shiftl_nonneg. lia.
      * apply Z.shiftl_nonneg. lia.
      * apply Z.shiftr_nonneg. lia.
Qed.

Lemma get_result_generated_nonneg (n : CNode) (a b r : Z) (op : operator) :
  In (a, op, b) (possible_moves n) ->
  0 <= a -> 0 <= b ->
  get_result a b op = Ok r -> 0 <= r.
Proof.
  intros Hin Ha Hb. destruct op; cbn [get_result].
  - intros [= <-]. lia.
  - pose proof (possible_moves_minus n a b Hin). intros [= <-]. lia.
  - intros [= <-]. nia.
  - destruct (possible_moves_shape n a b Slash Hin) as [_ Hdiv].
    destruct (Hdiv eq_refl) as [Hnz _].
    apply int_truediv_nonneg; lia.
Qed.

(** X9.  The moves keep the numbers non-negative: from non-negative
    numbers, every state a sequence of generated moves leads to holds
    non-negative numbers only. *)
Theorem X9_moves_keep_numbers_nonnegative :
  forall (brojevi final : list Z) (path : list Move),
    Forall (fun x => 0 <= x) brojevi ->
    legal_run brojevi path final ->
    Forall (fun x => 0 <= x) final.
Proof.
  intros brojevi final path H0 Hrun.
  induction Hrun as [|l l1 l' m path Hin Ha _ IH]; [exact H0|].
  apply IH. destruct m as [[a op] b].
  destruct (apply_move_result l l1 a b op Hin Ha) as (l2 & r & Hr & -> & Hp).
  assert (Hall : Forall (fun x => 0 <= x) (a :: b :: l2))
    by (eapply Permutation_Forall; eassumption).
  inversion Hall as [|? ? Hna Hall']; subst.
  inversion Hall' as [|? ? Hnb Hl2]; subst.
  apply Forall_app. split; [exact Hl2|].
  constructor; [|constructor].
  exact (get_result_generated_nonneg (Node l None) a b r op Hin Hna Hnb Hr).
Qed.

Lemma X9_moves_keep_numbers_nonnegative_witness :
  legal_run [3; 4; 5] [(4, Minus, 3); (5, Slash, 1)] [5]
  /\ Forall (fun x => 0 <= x) [5].
Proof.
  assert (R : legal_run [3; 4; 5] [(4, Minus, 3); (5, Slash, 1)] [5]).
  { eapply run_cons; [| |eapply run_cons; [| |apply run_nil]].
    - vm_compute. tauto.
    - reflexivity.
    - vm_compute. tauto.
    - vm_compute. reflexivity. }
  split; [exact R|].
  apply (X9_moves_keep_numbers_nonnegative [3; 4; 5] [5]
           [(4, Minus, 3); (5, Slash, 1)]); [|exact R].
  repeat constructor; lia.
Defined.

(* ================================================================= *)
(** ** The parser: errors and the shape of what it builds             *)
(* ================================================================= *)

Lemma tokenize_loop_known_step (c : ascii) (tokens : list token)
  (on_number : bool) (number : string) :
  known_char c = true ->
  exists tokens' on_number' number',
    forall s, tokenize_loop (String c s) tokens on_number number
              = tokenize_loop s tokens' on_number' number'.
Proof.
  unfold known_char. cbn [char_in]. intros Hk. cbn [tokenize_loop].
  destruct (char_in c numbers); [do 3 eexists; reflexivity|].
  destruct (if on_number then _ else _) as [tokens1 number1].
  destruct (is_space c); [do 3 eexists; reflexivity|].
  cbn [orb] in Hk. rewrite orb_false_r in Hk.
  destruct (Ascii.eqb c "("); [do 3 eexists; reflexivity|].
  destruct (Ascii.eqb c ")"); [do 3 eexists; reflexivity|].
  destruct (Ascii.eqb c "+"); [do 3 eexists; reflexivity|].
  destruct (Ascii.eqb c "-"); [do 3 eexists; reflexivity|].
  destruct (Ascii.eqb c "*"); [do 3 eexists; reflexivity|].
  destruct (Ascii.eqb c "/"); [do 3 eexists; reflexivity|].
  discriminate.
Qed.

Lemma tokenize_loop_unknown_char (c : ascii) (s : string) (tokens : list token)
  (on_number : bool) (number : string) :
  known_char c = false ->
  tokenize_loop (String c s) tokens on_number number
  = Raise (ExpressionParseError ("Unknown symbol: " ++ String c "")).
Proof.
  unfold known_char. cbn [char_in]. intros Hk. cbn [tokenize_loop].
  apply orb_false_elim in Hk as [Hk Hsym].
  apply orb_false_elim in Hk as [Hd Hs].
  rewrite Hd, Hs.
  repeat (apply orb_false_elim in Hsym as [?E Hsym]).
  destruct (if on_number then _ else _) as [tokens1 number1].
  repeat match goal with H : Ascii.eqb c _ = false |- _ => rewrite H; clear H end.
  reflexivity.
Qed.

Lemma tokenize_loop_known (s : string) :
  all_chars known_char s = true ->
  forall (tokens : list token) (on_number : bool) (number : string),
    exists tokens', tokenize_loop s tokens on_number number = Ok tokens'.
Proof.
  induction s as [|c s IH]; intros Hk tokens b number.
  - simpl. eauto.
  - unfold all_chars in Hk. cbn [list_ascii_of_string forallb] in Hk.
    apply andb_prop in Hk as [Hc Hs].
    destruct (tokenize_loop_known_step c tokens b number Hc)
      as (t' & b' & n' & E).
    rewrite E. now apply IH.
Qed.

Lemma tokenize_loop_unknown (s1 s2 : string) (c : ascii) :
  all_chars known_char s1 = true ->
  known_char c = false ->
  forall (tokens : list token) (on_number : bool) (number : string),
    tokenize_loop (s1 ++ String c s2) tokens on_number number
    = Raise (ExpressionParseError ("Unknown symbol: " ++ String c "")).
Proof.
  intros Hk Hc. induction s1 as [|c1 s1 IH]; intros tokens b number.
  - now apply tokenize_loop_unknown_char.
  - unfold all_chars in Hk. cbn [list_ascii_of_string forallb] in Hk.
    apply andb_prop in Hk as [Hc1 Hs1]. cbn [append].
    destruct (tokenize_loop_known_step c1 tokens b number Hc1)
      as (t' & b' & n' & E).
    rewrite E. now apply IH.
Qed.

(** X10.  The tokenizer accepts exactly the strings made of digits, the
    three separators, the two parentheses and the four operator symbols;
    on any other string it raises [ExpressionParseError], naming the first
    character outside that set, and [parse] raises the same error. *)
Theorem X10_tokenize_rejects_first_unknown_symbol :
  forall s : string,
    (all_chars known_char s = true -> exists tokens, tokenize s = Ok tokens)
    /\ (forall (s1 s2 : string) (c : ascii),
          s = (s1 ++ String c s2)%string ->
          all_chars known_char s1 = true ->
          known_char c = false ->
          tokenize s
            = Raise (ExpressionParseError ("Unknown symbol: " ++ String c ""))
          /\ parse s
            = Raise (ExpressionParseError ("Unknown symbol: " ++ String c ""))).
Proof.
  intros s. split.
  - intros Hk. now apply tokenize_loop_known.
  - intros s1 s2 c -> Hk Hc.
    assert (E : tokenize (s1 ++ String c s2)
                = Raise (ExpressionParseError ("Unknown symbol: " ++ String c "")))
      by (now apply tokenize_loop_unknown).
    split; [exact E|]. unfold parse. rewrite E. reflexivity.
Qed.

Lemma X10_tokenize_rejects_first_unknown_symbol_witness :
  (exists tokens, tokenize "12 * (3 + 4)" = Ok tokens)
  /\ parse "1 + x2" = Raise (ExpressionParseError "Unknown symbol: x").
Proof.
  split.
  - apply (proj1 (X10_tokenize_rejects_first_unknown_symbol "12 * (3 + 4)")).
    reflexivity.
  - apply (proj2 (X10_tokenize_rejects_first_unknown_symbol "1 + x2")
             "1 + "%string "2"%string "x"%char); reflexivity.
Defined.

Lemma pop_higher_open_count (val : operator) (st : list stack_entry) :
  forall q, open_count (snd (pop_higher val q st)) = open_count st.
Proof.
  induction st as [|[|p] st IH]; intros q; simpl; trivial.
  destruct (precedence val <=? precedence p); simpl; [apply IH | reflexivity].
Qed.

Lemma pop_to_open_count (st : list stack_entry) :
  forall q,
    match pop_to_open q st with
    | Some (_, st') => open_count st = S (open_count st')
    | None => open_count st = O
    end.
Proof.
  induction st as [|[|p] st IH]; intros q; simpl; trivial. apply IH.
Qed.

Lemma drain_open_count (st : list stack_entry) :
  forall q,
    match drain q st with
    | Ok _ => open_count st = O
    | Raise e => e = ExpressionParseError "Mismatched parentheses"
                 /\ open_count st <> O
    end.
Proof.
  induction st as [|[|p] st IH]; intros q; simpl; trivial.
  - split; [reflexivity | discriminate].
  - apply IH.
Qed.

(** The pass over the tokens fails exactly where a closing parenthesis has
    no partner, and otherwise leaves as many open parentheses on the
    stack as are still open. *)
Lemma shunt_tokens_depth (tokens : list token) :
  forall (q : list queue_item) (st : list stack_entry),
    match paren_depth tokens (open_count st) with
    | Some d =>
        exists q' st',
          foldM shunt_token tokens (q, st) = Ok (q', st')
          /\ open_count st' = d
    | None =>
        foldM shunt_token tokens (q, st)
        = Raise (ExpressionParseError "Mismatched parentheses")
    end.
Proof.
  induction tokens as [|t tokens IH]; intros q st.
  - simpl. eauto.
  - destruct t as [n | | | o]; cbn [paren_depth foldM shunt_token bind].
    + apply IH.
    + apply (IH q (S_open :: st)).
    + pose proof (pop_to_open_count st q) as Hc.
      destruct (pop_to_open q st) as [[q1 st1]|].
      * rewrite Hc. cbn [bind]. apply IH.
      * rewrite Hc. reflexivity.
    + pose proof (pop_higher_open_count o st q) as Hc.
      destruct (pop_higher o q st) as [q1 st1]. cbn [snd] in Hc. cbn [bind].
      rewrite <- Hc. apply (IH q1 (S_op o :: st1)).
Qed.

(** X11.  On a string that tokenizes, [parse] raises
    [ExpressionParseError("Mismatched parentheses")] exactly when the
    parentheses of the token sequence are not balanced (a closing one
    without partner, or an open one left at the end); with balanced
    parentheses the shunting-yard pass succeeds and [parse] is the fold of
    its output queue. *)
Theorem X11_parse_rejects_unbalanced_parentheses :
  forall (s : string) (tokens : list token),
    tokenize s = Ok tokens ->
    (paren_depth tokens 0 <> Some O ->
     parse s = Raise (ExpressionParseError "Mismatched parentheses"))
    /\ (paren_depth tokens 0 = Some O ->
        exists output_queue,
          ('(q, st) <- foldM shunt_token tokens ([], []) ;; drain q st)
            = Ok output_queue
          /\ parse s
             = (stack <- foldM build_item output_queue [] ;;
                '(e, _) <- pop stack ;; Ok e)).
Proof.
  intros s tokens Ht. unfold parse. rewrite Ht. cbn [bind].
  pose proof (shunt_tokens_depth tokens [] []) as H. cbn [open_count] in H.
  destruct (paren_depth tokens 0) as [d|].
  - destruct H as (q & st & E & Hd). rewrite E. cbn [bind].
    pose proof (drain_open_count st q) as Hdr.
    destruct (drain q st) as [q'|e].
    + split; [intros Hne; exfalso; apply Hne; congruence|].
      intros _. exists q'. split; reflexivity.
    + destruct Hdr as [-> Hne]. split; [reflexivity|].
      intros [= ->]. congruence.
  - rewrite H. split; [reflexivity | discriminate].
Qed.

Lemma X11_parse_rejects_unbalanced_parentheses_witness :
  parse "(1 + 2" = Raise (ExpressionParseError "Mismatched parentheses")
  /\ parse "1 + 2)" = Raise (ExpressionParseError "Mismatched parentheses").
Proof.
  split.
  - apply (proj1 (X11_parse_rejects_unbalanced_parentheses "(1 + 2" _ eq_refl)).
    vm_compute. discriminate.
  - apply (proj1 (X11_parse_rejects_unbalanced_parentheses "1 + 2)" _ eq_refl)).
    vm_compute. discriminate.
Defined.

(** X12.  An input without any token -- the empty string, or separators
    only -- makes [parse] raise [IndexError], from the final [stack.pop()],
    not [ExpressionParseError]. *)
Theorem X12_parse_blank_input_raises_index_error :
  forall s : string,
    all_chars is_space s = true -> parse s = Raise IndexError.
Proof.
  intros s Hs. unfold parse, tokenize.
  rewrite <- (string_append_nil_r s).
  rewrite tokenize_loop_spaces by assumption. reflexivity.
Qed.

Lemma X12_parse_blank_input_raises_index_error_witness :
  parse "" = Raise IndexError /\ parse "  " = Raise IndexError.
Proof.
  split; apply X12_parse_blank_input_raises_index_error; reflexivity.
Defined.

Lemma compose_ok_inv (l r e : Expression) (o : operator) :
  compose l r o = Ok e ->
  e = Binary l r o
  /\ (o = Slash ->
      exists v1 v2,
        value l = Ok v1 /\ value r = Ok v2 /\ v2 <> 0 /\ v1 mod v2 = 0).
Proof.
  destruct o; cbn [compose];
    try (intros [= <-]; split; [reflexivity | discriminate]).
  destruct (value l) as [v1|e1]; cbn [bind]; [|discriminate].
  destruct (value r) as [v2|e2]; cbn [bind]; [|discriminate].
  unfold py_mod. destruct (Z.eqb_spec v2 0) as [->|Hnz]; cbn [bind];
    [discriminate|].
  destruct (Z.eqb_spec (v1 mod v2) 0) as [Hm|Hm]; cbn [negb]; [|discriminate].
  intros [= <-]. split; [reflexivity|]. intros _. exists v1, v2. auto.
Qed.

Lemma compose_division_exact (l r e : Expression) (o : operator) :
  division_exact l -> division_exact r ->
  compose l r o = Ok e -> division_exact e.
Proof.
  intros Hl Hr H. apply compose_ok_inv in H as [-> Hd].
  cbn [division_exact]. auto.
Qed.

Lemma build_division_exact (items : list queue_item) :
  forall stack stack' : list Expression,
    Forall division_exact stack ->
    foldM build_item items stack = Ok stack' ->
    Forall division_exact stack'.
Proof.
  induction items as [|it items IH]; intros stack stack' Hs; cbn [foldM].
  - now intros [= <-].
  - destruct (build_item stack it) as [stack1|e] eqn:E; cbn [bind];
      [|discriminate].
    apply IH. destruct it as [n|o]; cbn [build_item] in E.
    + injection E as <-. constructor; [exact I | exact Hs].
    + destruct stack as [|b [|a stack]]; cbn [pop bind] in E; try discriminate.
      destruct (compose a b o) as [e'|err] eqn:Ec; cbn [bind] in E;
        [|discriminate].
      injection E as <-.
      inversion Hs as [|? ? Hb Hs']; subst. inversion Hs' as [|? ? Ha Hs'']; subst.
      constructor; [|exact Hs''].
      exact (compose_division_exact a b e' o Ha Hb Ec).
Qed.

Lemma extract_expression_forall (P : Expression -> Prop)
  (expressions : list Expression) (val : Z) (e : Expression)
  (rest : list Expression) :
  Forall P expressions ->
  extract_expression expressions val = Ok (e, rest) ->
  P e /\ Forall P rest.
Proof.
  intros F. revert rest. induction F as [|x xs Hx Hxs IH]; intros rest; simpl.
  - discriminate.
  - destruct (value x) as [v|err]; cbn [bind]; [|discriminate].
    destruct (v =? val).
    + intros [= <- <-]. auto.
    + destruct (extract_expression xs val) as [[found rest']|err];
        cbn [bind]; [|discriminate].
      intros [= <- <-]. destruct (IH rest' eq_refl). auto.
Qed.

Lemma closest_member (cilj d : Z) (expressions : list Expression)
  (e : Expression) :
  closest cilj expressions = Ok (d, e) -> In e expressions.
Proof.
  unfold closest.
  destruct (mapM _ expressions) as [tuples|err] eqn:E; cbn [bind];
    [|discriminate].
  apply mapM_ok_inv in E.
  destruct tuples as [|t rest]; [discriminate|].
  pose proof (proj1 (select_closest rest t)) as Hin. cbv zeta in Hin.
  destruct (fold_left _ rest t) as [[d' v'] e'].
  intros [= <- <-].
  clear -E Hin. induction E as [|x t' xs ts Hx _ IH]; [contradiction|].
  destruct Hin as [Heq|Hin]; [|right; now apply IH].
  left. destruct (value x) as [v|err]; cbn [bind] in Hx; [|discriminate].
  rewrite Heq in Hx. now injection Hx.
Qed.

Lemma replay_division_exact (cilj : Z) (moves : list Move) :
  forall expressions expressions' : list Expression,
    Forall division_exact expressions ->
    foldM replay_move moves expressions = Ok expressions' ->
    Forall division_exact expressions'.
Proof.
  induction moves as [|[[a op] b] moves IH]; intros es es' Hs; cbn [foldM].
  - now intros [= <-].
  - destruct (replay_move es (a, op, b)) as [es1|err] eqn:E; cbn [bind];
      [|discriminate].
    apply IH. unfold replay_move in E.
    destruct (extract_expression es a) as [[e1 r1]|err] eqn:E1; cbn [bind] in E;
      [|discriminate].
    destruct (extract_expression r1 b) as [[e2 r2]|err] eqn:E2; cbn [bind] in E;
      [|discriminate].
    destruct (compose e1 e2 op) as [e'|err] eqn:Ec; cbn [bind] in E;
      [|discriminate].
    injection E as <-.
    destruct (extract_expression_forall _ _ _ _ _ Hs E1) as [H1 Hr1].
    destruct (extract_expression_forall _ _ _ _ _ Hr1 E2) as [H2 Hr2].
    apply Forall_app. split; [exact Hr2|].
    constructor; [|constructor].
    exact (compose_division_exact e1 e2 e' op H1 H2 Ec).
Qed.

(** X13.  Every tree that [parse] or [moves_to_expression] returns has
    exact divisions only: at each division node both operands evaluate, the
    divisor is not zero and the dividend is a multiple of it.  An inexact
    or zero-divisor division stops the construction instead. *)
Theorem X13_built_trees_divide_exactly :
  (forall (s : string) (e : Expression),
      parse s = Ok e -> division_exact e)
  /\ (forall (brojevi : list Z) (cilj : Z) (moves : list Move)
             (e : Expression),
        moves_to_expression brojevi cilj moves = Ok e -> division_exact e).
Proof.
  split.
  - intros s e. unfold parse.
    destruct (tokenize s) as [tokens|err]; cbn [bind]; [|discriminate].
    destruct (foldM shunt_token tokens ([], [])) as [[q st]|err]; cbn [bind];
      [|discriminate].
    destruct (drain q st) as [q'|err]; cbn [bind]; [|discriminate].
    destruct (foldM build_item q' []) as [stack|err] eqn:Eb; cbn [bind];
      [|discriminate].
    apply build_division_exact in Eb; [|constructor].
    destruct stack as [|x stack]; cbn [pop bind]; [discriminate|].
    intros [= <-]. now inversion Eb.
  - intros brojevi cilj moves e. unfold moves_to_expression.
    destruct (foldM replay_move moves (map literal brojevi)) as [es|err] eqn:Ef;
      cbn [bind]; [|discriminate].
    apply (replay_division_exact cilj) in Ef.
    2:{ apply Forall_forall. intros x Hx.
        apply in_map_iff in Hx as (n & <- & _). exact I. }
    destruct (closest cilj es) as [[d e']|err] eqn:Ec; cbn [bind];
      [|discriminate].
    intros [= <-]. apply closest_member in Ec.
    rewrite Forall_forall in Ef. now apply Ef.
Qed.

Lemma X13_built_trees_divide_exactly_witness :
  (parse "12 / (2 + 1)"
   = Ok (Binary (Literal 12) (Binary (Literal 2) (Literal 1) Plus) Slash)
   /\ division_exact
        (Binary (Literal 12) (Binary (Literal 2) (Literal 1) Plus) Slash))
  /\ (moves_to_expression [12; 3; 5] 4 [(12, Slash, 3)]
      = Ok (Binary (Literal 12) (Literal 3) Slash)
      /\ division_exact (Binary (Literal 12) (Literal 3) Slash))
  /\ parse "12 / (2 + 3)"
     = Raise (InvalidExpressionException
                "Division is only allowed if the quotient is an integer.")
  /\ parse "12 / (2 - 2)" = Raise ZeroDivisionError.
Proof.
  assert (E : parse "12 / (2 + 1)"
              = Ok (Binary (Literal 12)
                      (Binary (Literal 2) (Literal 1) Plus) Slash))
    by reflexivity.
  assert (F : moves_to_expression [12; 3; 5] 4 [(12, Slash, 3)]
              = Ok (Binary (Literal 12) (Literal 3) Slash))
    by reflexivity.
  split; [split; [exact E|]|split; [split; [exact F|]|split; reflexivity]].
  - exact (proj1 X13_built_trees_divide_exactly _ _ E).
  - exact (proj2 X13_built_trees_divide_exactly _ _ _ _ F).
Defined.

(** X14.  A tree without a division node can always be built and
    evaluated: [compose] does not fail on its nodes, [value] raises
    nothing and returns the exact integer value, whatever the size of the
    numbers. *)
Theorem X14_division_free_trees_evaluate_exactly :
  forall e : Expression,
    no_division e = true ->
    value e = Ok (exact_value e)
    /\ division_exact e
    /\ (forall l r o, e = Binary l r o -> compose l r o = Ok e).
Proof.
  intros e H. split; [now apply value_no_division|]. split.
  - induction e as [v | l IHl r IHr o]; cbn [division_exact]; [exact I|].
    cbn [no_division] in H.
    apply andb_prop in H as [H Hr]. apply andb_prop in H as [Ho Hl].
    split; [now apply IHl|]. split; [now apply IHr|].
    intros ->. discriminate Ho.
  - intros l r o ->. cbn [no_division] in H.
    apply andb_prop in H as [H _]. apply andb_prop in H as [Ho _].
    destruct o; try reflexivity. discriminate Ho.
Qed.

Lemma X14_division_free_trees_evaluate_exactly_witness :
  value (Binary (Literal (2 ^ 70)) (Binary (Literal 3) (Literal 5) Minus) Times)
  = Ok (- 2 ^ 71).
Proof.
  exact (proj1 (X14_division_free_trees_evaluate_exactly
                  (Binary (Literal (2 ^ 70))
                     (Binary (Literal 3) (Literal 5) Minus) Times)
                  eq_refl)).
Defined.

(** *** Exact quotients survive the detour through the float *)

Lemma digits2_pos_size (p : positive) : digits2_pos p = Pos.size p.
Proof. induction p; cbn [digits2_pos Pos.size]; congruence. Qed.

Lemma digits2_pos_log2 (p : positive) :
  Zpos (digits2_pos p) = Z.log2 (Zpos p) + 1.
Proof.
  rewrite digits2_pos_size.
  destruct p; cbn [Pos.size Z.log2]; rewrite ?Pos2Z.inj_succ; lia.
Qed.

Lemma Zdigits2_log2 (z : Z) : 0 < z -> Zdigits2 z = Z.log2 z + 1.
Proof.
  destruct z as [|p|p]; try lia. intros _. apply digits2_pos_log2.
Qed.

Lemma shr_1_double (z : Z) :
  0 <= z ->
  shr_1 {| shr_m := 2 * z; shr_r := false; shr_s := false |}
  = {| shr_m := z; shr_r := false; shr_s := false |}.
Proof. destruct z as [|p|p]; try lia; reflexivity. Qed.

Lemma iter_shr_pow2 (n : positive) :
  forall z : Z,
    0 <= z ->
    iter_pos shr_1 n
      {| shr_m := z * 2 ^ Zpos n; shr_r := false; shr_s := false |}
    = {| shr_m := z; shr_r := false; shr_s := false |}.
Proof.
  induction n as [n IH|n IH|]; intros z Hz; cbn [iter_pos].
  - replace (z * 2 ^ Zpos n~1)
      with (2 * (z * 2 ^ Zpos n * 2 ^ Zpos n)).
    + rewrite shr_1_double by (apply Z.mul_nonneg_nonneg;
        [apply Z.mul_nonneg_nonneg|]; try lia; apply Z.pow_nonneg; lia).
      rewrite IH by (apply Z.mul_nonneg_nonneg; [lia|apply Z.pow_nonneg; lia]).
      now apply IH.
    + rewrite Pos2Z.inj_xI, Z.pow_add_r, Z.pow_mul_r by lia.
      change (2 ^ 2) with 4. rewrite Z.pow_1_r.
      replace (4 ^ Zpos n) with (2 ^ Zpos n * 2 ^ Zpos n);
        [ring|].
      rewrite <- Z.pow_add_r by lia. replace (Zpos n + Zpos n) with (2 * Zpos n) by lia.
      rewrite Z.pow_mul_r by lia. reflexivity.
  - replace (z * 2 ^ Zpos n~0) with (z * 2 ^ Zpos n * 2 ^ Zpos n).
    + rewrite IH by (apply Z.mul_nonneg_nonneg; [lia|apply Z.pow_nonneg; lia]).
      now apply IH.
    + rewrite Pos2Z.inj_xO, <- Z.mul_assoc, <- Z.pow_add_r by lia.
      do 2 f_equal. lia.
  - rewrite Z.pow_1_r, Z.mul_comm. now apply shr_1_double.
Qed.

Lemma shr_pow2 (z s n : Z) :
  0 <= z -> 0 <= n <= s ->
  shr {| shr_m := z * 2 ^ s; shr_r := false; shr_s := false |} (- s) n
  = ({| shr_m := z * 2 ^ (s - n); shr_r := false; shr_s := false |},
     - (s - n)).
Proof.
  intros Hz Hn. destruct n as [|p|p]; try lia; cbn [shr].
  - rewrite Z.sub_0_r. reflexivity.
  - replace (z * 2 ^ s) with (z * 2 ^ (s - Zpos p) * 2 ^ Zpos p).
    + rewrite iter_shr_pow2
        by (apply Z.mul_nonneg_nonneg; [lia|apply Z.pow_nonneg; lia]).
      f_equal. lia.
    + rewrite <- Z.mul_assoc, <- Z.pow_add_r by lia. do 2 f_equal. lia.
Qed.

Lemma SFdiv_core_exact (pa pb Q : positive) :
  Zpos pa = Zpos Q * Zpos pb ->
  Zpos Q < 2 ^ 53 ->
  exists s : Z,
    52 - Z.log2 (Zpos Q) <= s <= 53 - Z.log2 (Zpos Q)
    /\ SFdiv_core_binary prec emax (Zpos pa) 0 (Zpos pb) 0
       = (Zpos Q * 2 ^ s, - s, loc_Exact).
Proof.
  intros Hq HQ.
  assert (L52 : Z.log2 (Zpos Q) < 53) by (apply Z.log2_lt_pow2; lia).
  pose proof (Z.log2_nonneg (Zpos Q)) as L0.
  assert (Lb : Z.log2 (Zpos Q) + Z.log2 (Zpos pb) <= Z.log2 (Zpos pa))
    by (rewrite Hq; apply Z.log2_mul_below; lia).
  assert (La : Z.log2 (Zpos pa) <= Z.log2 (Zpos Q) + Z.log2 (Zpos pb) + 1)
    by (rewrite Hq; apply Z.log2_mul_above; lia).
  set (s := 53 - (Z.log2 (Zpos pa) - Z.log2 (Zpos pb))).
  exists s. split; [subst s; lia|].
  unfold SFdiv_core_binary. cbn [Zdigits2]. rewrite !digits2_pos_log2.
  replace (Z.min _ _) with (- s)
    by (unfold fexp, emin, prec, emax; subst s; lia).
  replace (0 - 0 - - s) with s by lia.
  assert (Hs : 0 <= s) by (subst s; lia).
  assert (Hm : match s with
               | 0 => Zpos pa
               | Zpos _ => Z.shiftl (Zpos pa) s
               | Zneg _ => 0
               end = Zpos Q * 2 ^ s * Zpos pb).
  { rewrite Hq. clearbody s.
    destruct s as [|k|k];
      [ rewrite Z.pow_0_r; ring
      | rewrite Z.shiftl_mul_pow2 by lia; ring
      | lia ]. }
  cbv zeta. rewrite Hm.
  destruct (Z.div_eucl (Zpos Q * 2 ^ s * Zpos pb) (Zpos pb)) as [q r] eqn:E.
  assert (Eq : q = Zpos Q * 2 ^ s).
  { rewrite <- (Z.div_mul (Zpos Q * 2 ^ s) (Zpos pb)) by lia.
    unfold Z.div. now rewrite E. }
  assert (Er : r = 0).
  { rewrite <- (Z.mod_mul (Zpos Q * 2 ^ s) (Zpos pb)) by lia.
    unfold Z.modulo. now rewrite E. }
  subst q r. unfold new_location, new_location_even, new_location_odd.
  destruct (Z.even (Zpos pb)); reflexivity.
Qed.

Lemma binary_round_aux_exact (sx : bool) (Q : positive) (s : Z) :
  Zpos Q < 2 ^ 53 ->
  52 - Z.log2 (Zpos Q) <= s <= 53 - Z.log2 (Zpos Q) ->
  exists (m : positive) (t : Z),
    0 <= t
    /\ Zpos m = Zpos Q * 2 ^ t
    /\ binary_round_aux prec emax sx (Zpos Q * 2 ^ s) (- s) loc_Exact
       = S754_finite sx m (- t).
Proof.
  intros HQ Hs.
  assert (L52 : Z.log2 (Zpos Q) < 53) by (apply Z.log2_lt_pow2; lia).
  pose proof (Z.log2_nonneg (Zpos Q)) as L0.
  set (t := 52 - Z.log2 (Zpos Q)).
  assert (Ht : 0 <= t) by (subst t; lia).
  assert (Hpos : forall u, 0 <= u -> 0 < Zpos Q * 2 ^ u).
  { intros u Hu. apply Z.mul_pos_pos; [lia|]. apply Z.pow_pos_nonneg; lia. }
  assert (Hd : forall u, 0 <= u ->
             Zdigits2 (Zpos Q * 2 ^ u) = Z.log2 (Zpos Q) + 1 + u).
  { intros u Hu. rewrite Zdigits2_log2 by now apply Hpos.
    rewrite Z.log2_mul_pow2 by lia. lia. }
  destruct (Zpos Q * 2 ^ t) as [|m|m] eqn:Em;
    try (pose proof (Hpos t Ht); lia).
  exists m, t. split; [exact Ht|]. split; [symmetry; exact Em|].
  unfold binary_round_aux, shr_fexp. cbn [shr_record_of_loc].
  rewrite Hd by lia.
  replace (fexp prec emax (Z.log2 (Zpos Q) + 1 + s + - s) - - s) with (s - t)
    by (unfold fexp, emin, prec, emax; subst t; lia).
  rewrite shr_pow2 by (subst t; lia).
  replace (s - (s - t)) with t by lia.
  cbn [shr_m loc_of_shr_record round_nearest_even shr_record_of_loc].
  rewrite Hd by lia.
  replace (fexp prec emax (Z.log2 (Zpos Q) + 1 + t + - t) - - t) with 0
    by (unfold fexp, emin, prec, emax; subst t; lia).
  cbn [shr shr_m]. rewrite Em.
  replace (Z.leb (- t) (emax - prec)) with true; [reflexivity|].
  symmetry. apply Z.leb_le. unfold emax, prec. lia.
Qed.

Lemma int_of_float_scaled (sx : bool) (m Q : positive) (t : Z) :
  0 <= t -> Zpos m = Zpos Q * 2 ^ t ->
  int_of_float (S754_finite sx m (- t))
  = Ok (if sx then - Zpos Q else Zpos Q).
Proof.
  intros Ht Hm. unfold int_of_float.
  assert (E : match - t with
              | Zneg k => Z.shiftr (Zpos m) (Zpos k)
              | _ => Z.shiftl (Zpos m) (- t)
              end = Zpos Q).
  { destruct t as [|k|k]; cbn [Z.opp];
      [ rewrite Z.shiftl_0_r, Hm, Z.pow_0_r; ring
      | rewrite Z.shiftr_div_pow2, Hm by lia;
        apply Z.div_mul; apply Z.pow_nonzero; lia
      | lia ]. }
  cbv zeta. now rewrite E.
Qed.

Lemma truediv_exact_pos (sx sy : bool) (pa pb Q : positive) :
  Zpos pa = Zpos Q * Zpos pb ->
  Zpos Q < 2 ^ 53 ->
  match SFdiv prec emax (S754_finite sx pa 0) (S754_finite sy pb 0) with
  | S754_infinity _ => Raise OverflowError
  | f => int_of_float f
  end = Ok (if xorb sx sy then - Zpos Q else Zpos Q).
Proof.
  intros Hq HQ. cbn [SFdiv].
  destruct (SFdiv_core_exact pa pb Q Hq HQ) as (s & Hs & ->).
  destruct (binary_round_aux_exact (xorb sx sy) Q s HQ Hs)
    as (m & t & Ht & Hm & ->).
  now apply int_of_float_scaled.
Qed.

Lemma int_truediv_exact (a b : Z) :
  b <> 0 -> a mod b = 0 -> Z.abs (a / b) < 2 ^ 53 ->
  int_truediv a b = Ok (a / b).
Proof.
  intros Hb Hm HQ.
  assert (Ha : a = b * (a / b)) by (apply Z_div_exact_full_2; assumption).
  unfold int_truediv, truediv.
  destruct (Z.eqb_spec b 0) as [|_]; [contradiction|].
  assert (G : match SFdiv prec emax (float_of_int a) (float_of_int b) with
              | S754_infinity _ => Raise OverflowError
              | f => int_of_float f
              end = Ok (a / b)).
  { destruct (a / b) as [|Q|Q] eqn:Eq.
    - rewrite Z.mul_0_r in Ha. subst a.
      destruct b as [|pb|pb]; [contradiction| |]; reflexivity.
    - destruct a as [|pa|pa], b as [|pb|pb]; try contradiction; try lia;
        cbn [float_of_int].
      + apply (truediv_exact_pos false false pa pb Q); lia.
      + apply (truediv_exact_pos true true pa pb Q); lia.
    - destruct a as [|pa|pa], b as [|pb|pb]; try contradiction; try lia;
        cbn [float_of_int].
      + apply (truediv_exact_pos false true pa pb Q); lia.
      + apply (truediv_exact_pos true false pa pb Q); lia. }
  destruct (SFdiv prec emax (float_of_int a) (float_of_int b));
    cbn [bind]; exact G.
Qed.

(** X15.  When the divisor is not zero, divides the dividend evenly and
    the quotient is below 2^53 in absolute value, [int(a / b)] is the
    exact quotient: the detour through the float loses nothing.  This
    holds for [get_result] on a division move and for [value] on a
    division node. *)
Theorem X15_even_division_is_exact_below_2_53 :
  forall a b : Z,
    b <> 0 -> a mod b = 0 -> Z.abs (a / b) < 2 ^ 53 ->
    int_truediv a b = Ok (a / b)
    /\ get_result a b Slash = Ok (a / b)
    /\ (forall l r : Expression,
          value l = Ok a -> value r = Ok b ->
          value (Binary l r Slash) = Ok (a / b)
          /\ compose l r Slash = Ok (Binary l r Slash)).
Proof.
  intros a b Hb Hm HQ.
  pose proof (int_truediv_exact a b Hb Hm HQ) as H.
  split; [exact H|]. split; [exact H|].
  intros l r Hl Hr. split.
  - cbn [value]. rewrite Hl, Hr. cbn [bind]. exact H.
  - cbn [compose]. rewrite Hl, Hr. cbn [bind]. unfold py_mod.
    destruct (Z.eqb_spec b 0) as [|_]; [contradiction|]. cbn [bind].
    rewrite Hm. reflexivity.
Qed.

Lemma X15_even_division_is_exact_below_2_53_witness :
  int_truediv (- (3 * (2 ^ 53 - 1))) 3 = Ok (- (2 ^ 53 - 1)).
Proof.
  refine (proj1 (X15_even_division_is_exact_below_2_53
                   (- (3 * (2 ^ 53 - 1))) 3 _ _ _)).
  - discriminate.
  - reflexivity.
  - reflexivity.
Defined.


(* ================================================================= *)
(** ** Widening the tolerance                                         *)
(* ================================================================= *)

Lemma int_truediv_raise_kind (a b : Z) (e : exn) :
  int_truediv a b = Raise e ->
  e = ZeroDivisionError \/ e = OverflowError \/ e = ValueError.
Proof.
  unfold int_truediv, truediv. destruct (b =? 0); cbn [bind].
  - intros [= <-]. auto.
  - destruct (SFdiv prec emax (float_of_int a) (float_of_int b));
      cbn [bind int_of_float]; intros [= <-]; auto.
Qed.

Lemma list_remove_raise_kind (x : Z) (l : list Z) (e : exn) :
  list_remove x l = Raise e -> e = ValueError.
Proof.
  induction l as [|y l IH]; cbn [list_remove].
  - now intros [= <-].
  - destruct (y =? x); [discriminate|].
    destruct (list_remove x l) as [r|e']; cbn [bind]; [discriminate|].
    intros [= <-]. now apply IH.
Qed.

Lemma do_search_raise_kind (brojevi : list Z) (cilj tolerance : Z)
  (fuel : nat) (e : exn) :
  do_search capabilities (search brojevi cilj tolerance) fuel
    = Some (Raise e) ->
  e = ZeroDivisionError \/ e = OverflowError \/ e = ValueError.
Proof.
  intros H.
  assert (O : engine_outcome capabilities (search brojevi cilj tolerance)
                (Raise e)).
  { unfold do_search in H.
    destruct (sortkey capabilities (search brojevi cilj tolerance)
                (start (search brojevi cilj tolerance))) as [key|e0] eqn:Ek.
    - eapply search_loop_outcome; exact H.
    - injection H as ->. right; right. exists e. split; [reflexivity|].
      left. apply sortkey_raise in Ek. eauto. }
  destruct O as [O|[(n & _ & O)|(e' & [= <-] & [(n & Hh)|(n & m & Ha)])]];
    try discriminate.
  - change (heuristic cilj n = Raise e) in Hh. unfold heuristic, py_min in Hh.
    destruct (map _ (data n)); [|discriminate]. injection Hh as <-. auto.
  - change (apply_move n m = Raise e) in Ha.
    destruct m as [[a op] b]. cbn [apply_move] in Ha.
    destruct (list_remove a (data n)) as [l1|e1] eqn:E1; cbn [bind] in Ha.
    2:{ injection Ha as <-. apply list_remove_raise_kind in E1. auto. }
    destruct (list_remove b l1) as [l2|e2] eqn:E2; cbn [bind] in Ha.
    2:{ injection Ha as <-. apply list_remove_raise_kind in E2. auto. }
    destruct (get_result a b op) as [r|e3] eqn:E3; cbn [bind] in Ha;
      [discriminate|].
    injection Ha as <-.
    destruct op; cbn [get_result] in E3; try discriminate.
    now apply int_truediv_raise_kind in E3.
Qed.

(** X16.  Widening the tolerance never loses a solution: when
    [find_solution] returns a value at one tolerance, then at every larger
    tolerance the search does not report failure and [find_solution] does
    not raise [CountDownNumbersException], whatever the fuel. *)
Theorem X16_wider_tolerance_keeps_the_solution :
  forall (brojevi : list Z) (cilj tolerance tolerance' : Z)
         (fuel fuel' : nat) (res : list Move * Expression),
    tolerance <= tolerance' ->
    find_solution brojevi cilj tolerance fuel = Some (Ok res) ->
    (forall p,
        do_search capabilities (search brojevi cilj tolerance') fuel'
        <> Some (Ok (false, p)))
    /\ (forall msg,
          find_solution brojevi cilj tolerance' fuel'
          <> Some (Raise (CountDownNumbersException msg))).
Proof.
  intros brojevi cilj tolerance tolerance' fuel fuel' res Hle Hres.
  apply find_solution_ok_inv in Hres as [path Hs].
  destruct (do_search_success capabilities _ fuel path Hs)
    as (n & Hreach & Hgoal & _).
  pose proof (reachable_legal_run brojevi n Hreach) as Hrun.
  apply is_goal_within in Hgoal.
  assert (Hw : within_tolerance cilj tolerance' (data n)).
  { destruct Hgoal as (x & Hx & Ht). exists x. split; [exact Hx | lia]. }
  assert (Hnf : forall p,
             do_search capabilities (search brojevi cilj tolerance') fuel'
             <> Some (Ok (false, p))).
  { intros p Hf.
    destruct (do_search_failure_closed _ _ _ _ _ Hf) as (F & Hstart & HF).
    apply (closed_has_no_goal cilj tolerance' F (data n) HF); [|exact Hw].
    exact (closed_contains_runs cilj tolerance' F _ _ _ HF Hrun Hstart). }
  split; [exact Hnf|].
  intros msg. unfold find_solution.
  destruct (do_search capabilities (search brojevi cilj tolerance') fuel')
    as [[[[|] p]|e]|] eqn:Hd; cbn [negb]; try discriminate.
  - destruct p as [[|m ms]|].
    + destruct (closest cilj (map literal brojevi)) as [[d e']|err] eqn:Ec;
        cbn [bind]; [discriminate|].
      intros [= ->]. revert Ec. unfold closest.
      destruct (mapM _ (map literal brojevi)) as [tuples|err] eqn:Em;
        cbn [bind].
      * destruct tuples as [|t rest]; [discriminate|].
        destruct (fold_left _ rest t) as [[? ?] ?]. discriminate.
      * intros [= ->]. apply mapM_raise_inv in Em as (x & Hx & Hv).
        apply in_map_iff in Hx as (z & <- & _). discriminate.
    + destruct (do_search_success capabilities _ fuel' _ Hd)
        as (n' & Hreach' & Hgoal' & Hp).
      pose proof (reachable_legal_run brojevi n' Hreach') as Hrun'.
      injection Hp as Hp. rewrite <- Hp in Hrun'.
      destruct (replay_moves_sim (m :: ms) (map literal brojevi) brojevi
                  (data n') (values_are_literals brojevi) Hrun')
        as (es & Ef & Fv & _).
      assert (Hne : data n' <> []).
      { apply is_goal_within in Hgoal'. destruct Hgoal' as (x & Hx & _).
        intros E. rewrite E in Hx. contradiction. }
      destruct (closest_spec cilj es (data n') Fv Hne)
        as (e' & v & Ec & _).
      unfold moves_to_expression. rewrite Ef. cbn [bind]. rewrite Ec.
      cbn [bind]. discriminate.
    + exfalso. destruct (do_search_success capabilities _ fuel' _ Hd)
        as (? & _ & _ & ?). discriminate.
  - exfalso. exact (Hnf p eq_refl).
  - intros [= ->]. apply do_search_raise_kind in Hd.
    destruct Hd as [|[|]]; discriminate.
Qed.

Lemma X16_wider_tolerance_keeps_the_solution_witness :
  find_solution [3; 4; 5] 35 0 100
    = Some (Ok ([(3, Plus, 4); (5, Times, 7)],
                Binary (Literal 5) (Binary (Literal 3) (Literal 4) Plus) Times))
  /\ (forall p,
        do_search capabilities (search [3; 4; 5] 35 2) 100
        <> Some (Ok (false, p)))
  /\ (forall msg,
        find_solution [3; 4; 5] 35 2 100
        <> Some (Raise (CountDownNumbersException msg))).
Proof.
  assert (E : find_solution [3; 4; 5] 35 0 100
              = Some (Ok ([(3, Plus, 4); (5, Times, 7)],
                          Binary (Literal 5)
                            (Binary (Literal 3) (Literal 4) Plus) Times)))
    by (vm_compute; reflexivity).
  split; [exact E|].
  apply (X16_wider_tolerance_keeps_the_solution [3; 4; 5] 35 0 2
           100%nat 100%nat _ ltac:(lia) E).
Defined.
